(** * ONNX peephole optimizations of the JIT: a model of
    [torch/csrc/jit/passes/onnx/peephole.cpp]

    The file embeds the pure helpers of the pass (permutation tests and
    composition, the Caffe2-style broadcast check) and the graph rewrites
    built on them, and proves the properties the design document states
    about them. *)

From stdpp Require Import base numbers list strings gmap.

#[local] Set Warnings "-clear-no-such-hyp".
#[local] Open Scope Z_scope.

(** ** Outcomes

    A C++ call either returns, trips a [JIT_ASSERT] (or a checked accessor),
    reads a vector outside its bounds, or follows a pointer to a destroyed
    node.  Loops are run with a bound on the number of iterations; [NoFuel]
    marks a run the bound cut short. *)

Inductive fault : Type :=
| AssertFailed   (* a JIT_ASSERT or a checked accessor failed *)
| OutOfRange     (* a vector was read outside its bounds *)
| Dangling       (* a node that is no longer in the graph was used *)
| NoFuel.        (* the iteration bound of the model was reached *)

Inductive outcome (A : Type) : Type :=
| Ok (a : A)
| Err (e : fault).

Arguments Ok {A} a.
Arguments Err {A} e.

#[global] Instance outcome_ret : MRet outcome := fun A a => Ok a.

#[global] Instance outcome_bind : MBind outcome := fun A B k m =>
  match m with
  | Ok a => k a
  | Err e => Err e
  end.

Definition JIT_ASSERT (b : bool) : outcome unit :=
  if b then Ok tt else Err AssertFailed.

(** [v.size()] as a signed integer, and [v[i]] for a signed index. *)
Definition size {A} (v : list A) : Z := Z.of_nat (length v).

Definition idx {A} (v : list A) (i : Z) : outcome A :=
  if 0 <=? i then
    match v !! Z.to_nat i with
    | Some x => Ok x
    | None => Err OutOfRange
    end
  else Err OutOfRange.

(** ** Permutations *)

(** [for (i = 0; i < perm_size; i++) if (perm[i] != i) return false;] *)
Fixpoint isNopTranspose_from (i : Z) (perm : list Z) : bool :=
  match perm with
  | [] => true
  | p :: perm' => if negb (p =? i) then false else isNopTranspose_from (i + 1) perm'
  end.

Definition isNopTranspose (perm : list Z) : bool := isNopTranspose_from 0 perm.

(** The loop of [composeTransposes]: [todo] holds [t1[i..]], [ret] the
    vector built so far. *)
Fixpoint composeTransposes_loop (todo t2 ret : list Z) : outcome (list Z) :=
  match todo with
  | [] => Ok ret
  | t1_i :: todo' =>
      _ ← JIT_ASSERT (t1_i <? size t2);
      t2_t1_i ← idx t2 t1_i;
      _ ← JIT_ASSERT (t2_t1_i <? size t2);
      composeTransposes_loop todo' t2 (ret ++ [t2_t1_i])
  end.

Definition composeTransposes (t1 t2 : list Z) : outcome (list Z) :=
  _ ← JIT_ASSERT (size t1 =? size t2);
  composeTransposes_loop t1 t2 [].

(** ** Broadcast fusability *)

(** [while (from_dim_start < from.size() && from[from_dim_start] == 1)
      from_dim_start++;] *)
Fixpoint skip_leading_ones (fuel : nat) (from : list Z) (from_dim_start : Z)
  : outcome Z :=
  match fuel with
  | O => Err NoFuel
  | S fuel' =>
      if from_dim_start <? size from then
        d ← idx from from_dim_start;
        if d =? 1 then skip_leading_ones fuel' from (from_dim_start + 1)
        else Ok from_dim_start
      else Ok from_dim_start
  end.

(** [while (from_dim_end > from_dim_start && from[from_dim_end] == 1)
      from_dim_end--;] *)
Fixpoint skip_trailing_ones (fuel : nat) (from : list Z)
    (from_dim_start from_dim_end : Z) : outcome Z :=
  match fuel with
  | O => Err NoFuel
  | S fuel' =>
      if from_dim_start <? from_dim_end then
        d ← idx from from_dim_end;
        if d =? 1 then skip_trailing_ones fuel' from from_dim_start (from_dim_end - 1)
        else Ok from_dim_end
      else Ok from_dim_end
  end.

(** [for (; f >= from_dim_start && t >= 0; --f, --t)
      if (from[f] != to[t]) { trailing_expand = false; break; }]
    The result is [(trailing_expand, f)] at the exit of the loop. *)
Fixpoint trailing_scan (fuel : nat) (from to : list Z)
    (from_dim_start f t : Z) : outcome (bool * Z) :=
  match fuel with
  | O => Err NoFuel
  | S fuel' =>
      if (from_dim_start <=? f) && (0 <=? t) then
        a ← idx from f;
        b ← idx to t;
        if negb (a =? b) then Ok (false, f)
        else trailing_scan fuel' from to from_dim_start (f - 1) (t - 1)
      else Ok (true, f)
  end.

(** [for (; f <= from_dim_end && t < to.size(); ++f, ++t)
      if (from[f] != to[t]) { leading_expand = false; break; }] *)
Fixpoint leading_scan (fuel : nat) (from to : list Z)
    (from_dim_end f t : Z) : outcome (bool * Z) :=
  match fuel with
  | O => Err NoFuel
  | S fuel' =>
      if (f <=? from_dim_end) && (t <? size to) then
        a ← idx from f;
        b ← idx to t;
        if negb (a =? b) then Ok (false, f)
        else leading_scan fuel' from to from_dim_end (f + 1) (t + 1)
      else Ok (true, f)
  end.

(** The pair returned is (fusable, axis); every loop runs at most
    [from.size()] times, so [from.size() + 1] rounds of fuel never run out. *)
Definition fusibleExpandTo (from to : list Z) : outcome (bool * option Z) :=
  if size to <? size from then Ok (false, None)
  else
    let fuel := S (length from) in
    from_dim_start ← skip_leading_ones fuel from 0;
    from_dim_end ← skip_trailing_ones fuel from from_dim_start (size from - 1);
    '(trailing_expand, f) ←
      trailing_scan fuel from to from_dim_start from_dim_end (size to - 1);
    if trailing_expand && (f <=? from_dim_start) then Ok (true, None)
    else
      '(leading_expand, f) ←
        leading_scan fuel from to from_dim_end from_dim_start 0;
      if leading_expand && (from_dim_end <=? f) then Ok (true, Some 0)
      else Ok (false, None).

(** *** The same check in the words of the design document

    Trim the leading and the trailing ones of [from]; the core that is left
    is compared with [to] from the trailing ends, then from the leading
    ends. *)
Fixpoint drop_ones (l : list Z) : list Z :=
  match l with
  | [] => []
  | d :: l' => if d =? 1 then drop_ones l' else l
  end.

Definition core_of (from : list Z) : list Z :=
  reverse (drop_ones (reverse (drop_ones from))).

(** Every position the two walks share holds equal sizes. *)
Fixpoint walk_matches (xs ys : list Z) : bool :=
  match xs, ys with
  | x :: xs', y :: ys' => (x =? y) && walk_matches xs' ys'
  | _, _ => true
  end.

Definition trailing_aligned (core to : list Z) : bool :=
  walk_matches (reverse core) (reverse to).

Definition leading_aligned (core to : list Z) : bool :=
  walk_matches core to.

Definition fusible_by_alignment (from to : list Z) : bool * option Z :=
  let core := core_of from in
  if trailing_aligned core to then (true, None)
  else if leading_aligned core to then (true, Some 0)
  else (false, None).


(** *** Permutations in the words of the design document *)

(** The identity permutation [0, 1, ..., n-1]. *)
Definition identity_perm (n : nat) : list Z := Z.of_nat <$> seq 0 n.

(** A valid permutation of length N: a rearrangement of [0..N-1]. *)
Definition is_permutation (p : list Z) : Prop :=
  p ≡ₚ identity_perm (length p).

(** [p3[i] = p2[p1[i]]]. *)
Definition compose_pointwise (p1 p2 : list Z) : list Z :=
  (fun a => default 0 (p2 !! Z.to_nat a)) <$> p1.

Definition in_range (n : Z) (p : list Z) : Prop :=
  Forall (fun a => 0 <= a < n) p.

(** ** The graph IR

    The passes work on [Graph], [Node] and [Value] of the JIT IR, which
    this file only uses.  Their model below follows the data model of the
    design document (sections 3 and 4.1). *)

(** The operator kinds the passes look at. *)
Inductive NodeKind : Type :=
| onnx_Add | onnx_Div | onnx_Mul | onnx_Pow | onnx_Sub | onnx_Gemm
| onnx_Transpose
| onnx_RNN | onnx_LSTM | onnx_GRU
| onnx_Constant | onnx_Slice | onnx_Shape | onnx_Gather | onnx_Unsqueeze
| onnx_Concat | onnx_ConstantFill
| aten_expand
| prim_PackPadded | prim_PadPacked
| prim_Param | prim_Return
| other_kind (name : string).

#[global] Instance NodeKind_eq_dec : EqDecision NodeKind.
Proof. solve_decision. Defined.

(** Modelled from the spec: a Value is "produced by exactly one Node at one
    output position" (section 3); it is named by its producer and the
    position.  [unique] numbers stand for the addresses of nodes. *)
Record Value : Type := mkValue { producer : nat; offset : nat }.

#[global] Instance Value_eq_dec : EqDecision Value.
Proof. solve_decision. Defined.

(** Modelled from the spec: a Use is "a (consumer Node, input-position)
    pair" (section 3). *)
Record Use : Type := mkUse { user : nat; use_offset : nat }.

#[global] Instance Use_eq_dec : EqDecision Use.
Proof. solve_decision. Defined.

(** A tensor literal: its sizes and its elements. *)
Record Tensor : Type := mkTensor { t_sizes : list Z; t_data : list Z }.

#[global] Instance Tensor_eq_dec : EqDecision Tensor.
Proof. solve_decision. Defined.

Inductive AttributeValue : Type :=
| IntAttr (i : Z)
| IntsAttr (l : list Z)
| StringAttr (s : string)
| TensorAttr (t : Tensor).

#[global] Instance AttributeValue_eq_dec : EqDecision AttributeValue.
Proof. solve_decision. Defined.

(** Modelled from the spec: a Node has a kind, ordered inputs, ordered owned
    outputs and named attributes (section 3).  [output_types] holds, for
    each output, the sizes of its tensor type, [None] when the value
    carries no tensor type. *)
Record Node : Type := mkNode {
  unique : nat;
  kind : NodeKind;
  inputs : list Value;
  output_types : list (option (list Z));
  attrs : gmap string AttributeValue
}.

#[global] Instance Node_eq_dec : EqDecision Node.
Proof. solve_decision. Defined.

(** Modelled from the spec: a Graph is an ordered container of nodes
    (section 3).  As in the IR, the graph's inputs are the outputs of the
    node [input_] and its outputs are the inputs of the node [output_];
    neither is part of [nodes].  [output_] closes the node list: it is what
    [graph->nodes().end()] points to. *)
Record Graph : Type := mkGraph {
  input_ : Node;
  nodes : list Node;
  output_ : Node;
  next_unique : nat
}.

Definition attr_perm : string := "perm".
Definition attr_broadcast : string := "broadcast".
Definition attr_axis : string := "axis".
Definition attr_axes : string := "axes".
Definition attr_value : string := "value".
Definition attr_hidden_size : string := "hidden_size".
Definition attr_direction : string := "direction".
Definition attr_input_as_shape : string := "input_as_shape".

(** *** Reading nodes *)

Definition all_nodes (g : Graph) : list Node :=
  input_ g :: nodes g ++ [output_ g].

Definition has_unique (id : nat) (n : Node) : bool := bool_decide (unique n = id).

(** Following a [Node*]. *)
Definition node_at (g : Graph) (id : nat) : outcome Node :=
  match find (has_unique id) (all_nodes g) with
  | Some n => Ok n
  | None => Err Dangling
  end.

(** [v->node()] *)
Definition Value_node (g : Graph) (v : Value) : outcome Node :=
  node_at g (producer v).

(** [n->outputs()[i]] *)
Definition Node_outputs_at (n : Node) (i : nat) : outcome Value :=
  if decide (i < length (output_types n))%nat then Ok (mkValue (unique n) i)
  else Err OutOfRange.

(** [n->inputs()[i]] *)
Definition Node_inputs_at (n : Node) (i : nat) : outcome Value :=
  match inputs n !! i with
  | Some v => Ok v
  | None => Err OutOfRange
  end.

(** Modelled from the spec: [n->input()] and [n->output()] are the checked
    accessors of a node with a single input (output). *)
Definition Node_input (n : Node) : outcome Value :=
  match inputs n with
  | [v] => Ok v
  | _ => Err AssertFailed
  end.

Definition Node_output (n : Node) : outcome Value :=
  match output_types n with
  | [_] => Ok (mkValue (unique n) 0)
  | _ => Err AssertFailed
  end.

(** The tensor type of a value, when it has one. *)
Definition Value_type (g : Graph) (v : Value) : outcome (option (list Z)) :=
  n ← Value_node g v;
  match output_types n !! offset v with
  | Some ty => Ok ty
  | None => Err Dangling
  end.

(** [v->isTensor()] *)
Definition Value_isTensor (g : Graph) (v : Value) : outcome bool :=
  ty ← Value_type g v; Ok (bool_decide (is_Some ty)).

(** Modelled from the spec: [v->type()->expect<TensorType>()->sizes()], the
    checked cast of the value's type; on a value without a tensor type the
    check fails (section 7, internal-consistency violations). *)
Definition Value_expect_sizes (g : Graph) (v : Value) : outcome (list Z) :=
  ty ← Value_type g v;
  match ty with
  | Some sizes => Ok sizes
  | None => Err AssertFailed
  end.

Definition hasAttribute (n : Node) (name : string) : bool :=
  bool_decide (is_Some (attrs n !! name)).

(** [n->i(name)], [n->is(name)], [n->s(name)]: the attribute must be there
    and of the kind asked for. *)
Definition Node_i (n : Node) (name : string) : outcome Z :=
  match attrs n !! name with
  | Some (IntAttr i) => Ok i
  | _ => Err AssertFailed
  end.

Definition Node_is (n : Node) (name : string) : outcome (list Z) :=
  match attrs n !! name with
  | Some (IntsAttr l) => Ok l
  | _ => Err AssertFailed
  end.

Definition Node_s (n : Node) (name : string) : outcome string :=
  match attrs n !! name with
  | Some (StringAttr s) => Ok s
  | _ => Err AssertFailed
  end.

(** Modelled from the spec: "a Value's use-set is exactly the set of
    (node, position) pairs currently reading it" (section 3, invariant 2):
    the uses are read off the input slots.  The list below names them slot
    by slot, node by node; the order in which the IR holds them is not this
    one (see [use_order] below), and the passes take from this list what
    does not depend on its order: its length, whether it is empty, and its
    element when it has one. *)
Fixpoint slots_holding (v : Value) (id : nat) (i : nat) (l : list Value) : list Use :=
  match l with
  | [] => []
  | w :: l' =>
      (if decide (w = v) then [mkUse id i] else []) ++ slots_holding v id (S i) l'
  end.

Definition uses_in (v : Value) (n : Node) : list Use :=
  slots_holding v (unique n) 0 (inputs n).

Definition uses (g : Graph) (v : Value) : list Use :=
  all_nodes g ≫= uses_in v.

(** [n->hasUses()]: some output of [n] is read. *)
Definition Value_hasUses (g : Graph) (v : Value) : bool :=
  negb (bool_decide (uses g v = [])).

Definition Node_hasUses (g : Graph) (n : Node) : bool :=
  existsb (fun i => Value_hasUses g (mkValue (unique n) i))
          (seq 0 (length (output_types n))).

(** *** Editing the graph (section 4.1) *)

Definition map_nodes (f : Node -> Node) (g : Graph) : Graph :=
  {| input_ := f (input_ g);
     nodes := f <$> nodes g;
     output_ := f (output_ g);
     next_unique := next_unique g |}.

(** [f] applied to the node [id] and to no other. *)
Definition only_at (id : nat) (f : Node -> Node) (n : Node) : Node :=
  if has_unique id n then f n else n.

Definition update_node (id : nat) (f : Node -> Node) (g : Graph) : Graph :=
  map_nodes (only_at id f) g.

Definition set_inputs (l : list Value) (n : Node) : Node :=
  {| unique := unique n; kind := kind n; inputs := l;
     output_types := output_types n; attrs := attrs n |}.

Definition set_attr (name : string) (a : AttributeValue) (n : Node) : Node :=
  {| unique := unique n; kind := kind n; inputs := inputs n;
     output_types := output_types n; attrs := <[name := a]> (attrs n) |}.

Definition rename_value (old new : Value) (w : Value) : Value :=
  if decide (w = old) then new else w.

(** Modelled from the spec: [replace_all_uses(old_value, new_value)]
    "retargets every current use of old_value to new_value; afterwards
    old_value has zero uses". *)
Definition Value_replaceAllUsesWith (g : Graph) (old new : Value) : Graph :=
  map_nodes (fun n => set_inputs (rename_value old new <$> inputs n) n) g.

(** Modelled from the spec: a value "carries the ordered set of uses"
    (section 3).  The IR appends a use to the list of a value when an input
    slot is set to it, so the list is in the order of registration, which
    the slots of the graph do not tell.  The graph of this model has no
    record of it: a [use_order] supplies it, [registered g v] standing for
    [v->uses()] in the graph [g].  By invariant 2 it is a rearrangement of
    [uses g v], which [use_order_ok] says; nothing else is known of it. *)
Definition use_order : Type := Graph -> Value -> list Use.

Definition use_order_ok (registered : use_order) : Prop :=
  forall g v, registered g v ≡ₚ uses g v.

(** The order of the slots, one order among those the IR can be in. *)
Definition slot_order : use_order := uses.

(** [registered] where a value has several uses; a value with one use or
    none leaves no choice. *)
Definition settled (registered : use_order) : use_order :=
  fun g v => if (length (uses g v) <=? 1)%nat then uses g v else registered g v.

(** Modelled from the spec: [old->replaceFirstUseWith(new)] retargets
    [old->uses()[0]], the first use on record of [old]; a value with no use
    has no first use. *)
Definition Value_replaceFirstUseWith (registered : use_order) (g : Graph)
    (old new : Value) : outcome Graph :=
  match registered g old with
  | u :: _ =>
      Ok (update_node (user u)
            (fun n => set_inputs (<[use_offset u := new]> (inputs n)) n) g)
  | [] => Err OutOfRange
  end.

(** Modelled from the spec: [replace_all_uses] lifted to nodes, for the
    calls [n->replaceAllUsesWith(m)] of the source whose argument is a node.
    The uses of each output of [n] go to the output of [m] at the same
    position; the two nodes must have the same number of outputs, which is
    checked. *)
Definition Node_replaceAllUsesWith (g : Graph) (n m : Node) : outcome Graph :=
  _ ← JIT_ASSERT (bool_decide (length (output_types n) = length (output_types m)));
  Ok (foldl (fun g i =>
               Value_replaceAllUsesWith g (mkValue (unique n) i) (mkValue (unique m) i))
        g (seq 0 (length (output_types n)))).

(** Modelled from the spec: [replace_input(node, position, new_value)]
    "updates the node's input slot"; the slot must exist. *)
Definition replaceInput (g : Graph) (id : nat) (i : nat) (new : Value) : outcome Graph :=
  n ← node_at g id;
  _ ← JIT_ASSERT (bool_decide (i < length (inputs n))%nat);
  Ok (update_node id (fun n => set_inputs (<[i := new]> (inputs n)) n) g).

(** [n->addInput(v)] *)
Definition addInput (g : Graph) (id : nat) (v : Value) : outcome Graph :=
  _ ← node_at g id;
  Ok (update_node id (fun n => set_inputs (inputs n ++ [v]) n) g).

(** [n->i_(name, v)] and the like. *)
Definition setAttribute (g : Graph) (id : nat) (name : string) (a : AttributeValue)
  : outcome Graph :=
  _ ← node_at g id;
  Ok (update_node id (set_attr name a) g).

(** Modelled from the spec: [destroy(node)] "fails (precondition
    violation) if any output still has uses; otherwise removes the node and
    its outputs from the graph". *)
Definition destroy (g : Graph) (id : nat) : outcome Graph :=
  n ← node_at g id;
  _ ← JIT_ASSERT (negb (Node_hasUses g n));
  Ok {| input_ := input_ g;
        nodes := filter (fun m => unique m <> id) (nodes g);
        output_ := output_ g;
        next_unique := next_unique g |}.

(** [graph->create(kind, num_outputs)]: a fresh node, not yet in the list. *)
Definition fresh_node (id : nat) (k : NodeKind) (num_outputs : nat) : Node :=
  {| unique := id; kind := k; inputs := [];
     output_types := replicate num_outputs None; attrs := ∅ |}.

Definition create (g : Graph) (k : NodeKind) (num_outputs : nat) : Graph * Node :=
  ({| input_ := input_ g; nodes := nodes g; output_ := output_ g;
      next_unique := S (next_unique g) |},
   fresh_node (next_unique g) k num_outputs).

Fixpoint insert_before (new : Node) (anchor : nat) (l : list Node) : option (list Node) :=
  match l with
  | [] => None
  | n :: l' =>
      if has_unique anchor n then Some (new :: n :: l')
      else cons n <$> insert_before new anchor l'
  end.

Fixpoint insert_after (new : Node) (anchor : nat) (l : list Node) : option (list Node) :=
  match l with
  | [] => None
  | n :: l' =>
      if has_unique anchor n then Some (n :: new :: l')
      else cons n <$> insert_after new anchor l'
  end.

Definition set_nodes (l : list Node) (g : Graph) : Graph :=
  {| input_ := input_ g; nodes := l; output_ := output_ g;
     next_unique := next_unique g |}.

(** Modelled from the spec: [insert_before(node, anchor)] and
    [insert_after] splice a new node into the order next to an anchor that
    is in the list. *)
Definition insertBefore (g : Graph) (new : Node) (anchor : nat) : outcome Graph :=
  match insert_before new anchor (nodes g) with
  | Some l => Ok (set_nodes l g)
  | None => Err AssertFailed
  end.

Definition insertAfter (g : Graph) (new : Node) (anchor : nat) : outcome Graph :=
  match insert_after new anchor (nodes g) with
  | Some l => Ok (set_nodes l g)
  | None => Err AssertFailed
  end.

(** *** Iterating over [graph->nodes()]

    An iterator stands on a node of the list or on the sentinel that closes
    it ([None]): [begin()] is the successor of the sentinel, [end()] the
    sentinel itself. *)
Definition iterator : Type := option nat.

Fixpoint succ_in (l : list Node) (id : nat) : outcome iterator :=
  match l with
  | [] => Err Dangling
  | n :: l' => if has_unique id n then Ok (unique <$> head l') else succ_in l' id
  end.

Fixpoint pred_in (l : list Node) (id : nat) (before : iterator) : outcome iterator :=
  match l with
  | [] => Err Dangling
  | n :: l' => if has_unique id n then Ok before else pred_in l' id (Some (unique n))
  end.

(** [++it] *)
Definition it_next (g : Graph) (it : iterator) : outcome iterator :=
  match it with
  | None => Ok (unique <$> head (nodes g))
  | Some id => succ_in (nodes g) id
  end.

(** Modelled from the spec: [it.destroyCurrent()], "delete the node just
    visited and continue": the iterator steps back to the previous entry and
    the node is destroyed, so that [++it] reaches the node that followed. *)
Definition destroyCurrent (g : Graph) (id : nat) : outcome (Graph * iterator) :=
  it' ← pred_in (nodes g) id None;
  g' ← destroy g id;
  Ok (g', it').

(** [for (it = begin; it != end; ++it) body], the body returning the graph
    and where it left the iterator. *)
Fixpoint for_nodes (fuel : nat) (body : Graph -> nat -> outcome (Graph * iterator))
    (g : Graph) (it : iterator) : outcome Graph :=
  match it with
  | None => Ok g
  | Some id =>
      match fuel with
      | O => Err NoFuel
      | S fuel' =>
          '(g', it') ← body g id;
          it'' ← it_next g' it';
          for_nodes fuel' body g' it''
      end
  end.

(** A body that does not move the iterator (the range-based [for]). *)
Definition keeping_iterator (body : Graph -> nat -> outcome Graph)
  : Graph -> nat -> outcome (Graph * iterator) :=
  fun g id => g' ← body g id; Ok (g', Some id).

(** ** The passes *)

Definition isRNN (n : Node) : bool :=
  let k := kind n in
  bool_decide (k = onnx_RNN) || bool_decide (k = onnx_LSTM) || bool_decide (k = onnx_GRU).

Definition isBroadcasting (n : Node) : bool :=
  bool_decide (kind n ∈ [onnx_Add; onnx_Div; onnx_Mul; onnx_Pow; onnx_Sub; onnx_Gemm]).

(** *** fuseBroadcast *)

(** [n->hasAttribute(attr::broadcast) && n->i(attr::broadcast)] *)
Definition already_broadcasts (n : Node) : outcome bool :=
  if hasAttribute n attr_broadcast
  then b ← Node_i n attr_broadcast; Ok (negb (b =? 0))
  else Ok false.

Definition fuseBroadcast_body (g : Graph) (id : nat) : outcome Graph :=
  n ← node_at g id;
  (* Can't fuse into nodes that don't support broadcasting *)
  if negb (isBroadcasting n) then Ok g else
  (* If the node already broadcasts, can't "rebroadcast" *)
  already ← already_broadcasts n;
  if (already : bool) then Ok g else
  _ ← JIT_ASSERT (negb (hasAttribute n attr_axis));
  let input_index := (length (inputs n) - 1)%nat in
  rhs ← Node_inputs_at n input_index;
  expanded_rhs ← Value_node g rhs;
  (* The expanded_rhs input isn't actually an expand, so no fusion available *)
  if negb (bool_decide (kind expanded_rhs = aten_expand)) then Ok g else
  unexpanded_rhs ← Node_input expanded_rhs;
  (* We need to know what the type pre-expand is *)
  known ← Value_isTensor g unexpanded_rhs;
  if negb (known : bool) then Ok g else
  from ← Value_expect_sizes g unexpanded_rhs;
  expanded ← Node_output expanded_rhs;
  to ← Value_expect_sizes g expanded;
  '(fusible_expand, axis) ← fusibleExpandTo from to;
  if negb (fusible_expand : bool) then Ok g else
  g ← replaceInput g id input_index unexpanded_rhs;
  g ← setAttribute g id attr_broadcast (IntAttr 1);
  g ← match axis with
      | Some a => setAttribute g id attr_axis (IntAttr a)
      | None => Ok g
      end;
  expanded_rhs' ← node_at g (unique expanded_rhs);
  if negb (Node_hasUses g expanded_rhs') then destroy g (unique expanded_rhs)
  else Ok g.

Definition fuseBroadcast (g : Graph) : outcome Graph :=
  it ← it_next g None;
  for_nodes (S (length (nodes g))) (keeping_iterator fuseBroadcast_body) g it.

(** *** fuseConsecutiveTransposes *)

Definition fuseConsecutiveTransposes_body (g : Graph) (id : nat) : outcome Graph :=
  n ← node_at g id;
  if negb (bool_decide (kind n = onnx_Transpose)) then Ok g else
  origInput ← Node_input n;
  inner ← Value_node g origInput;
  if negb (bool_decide (kind inner = onnx_Transpose)) then Ok g else
  inner_perm ← Node_is inner attr_perm;
  outer_perm ← Node_is n attr_perm;
  perm ← composeTransposes inner_perm outer_perm;
  g ← setAttribute g id attr_perm (IntsAttr perm);
  inner_input ← Node_input inner;
  g ← replaceInput g id 0 inner_input;
  if bool_decide (length (uses g origInput) = 0%nat)
  then destroy g (unique inner)
  else Ok g.

Definition fuseConsecutiveTransposes (g : Graph) : outcome Graph :=
  it ← it_next g None;
  for_nodes (S (length (nodes g)))
    (keeping_iterator fuseConsecutiveTransposes_body) g it.

(** *** eliminateNopTranspose *)

Definition eliminateNopTranspose_body (g : Graph) (id : nat)
  : outcome (Graph * iterator) :=
  n ← node_at g id;
  if negb (bool_decide (kind n = onnx_Transpose)) then Ok (g, Some id) else
  perm ← Node_is n attr_perm;
  if negb (isNopTranspose perm) then Ok (g, Some id) else
  v ← Node_input n;
  m ← Value_node g v;
  g ← Node_replaceAllUsesWith g n m;
  destroyCurrent g id.

Definition eliminateNopTranspose (g : Graph) : outcome Graph :=
  it ← it_next g None;
  for_nodes (S (length (nodes g))) eliminateNopTranspose_body g it.

(** *** pushPackingPastRnn *)

(** [registered] is the order in which the IR holds the use lists (see
    [use_order]); the rewrite reads it once, for the first use on record of
    the lengths. *)
Definition pushPackingPastRnn_body (registered : use_order) (g : Graph)
    (id : nat) : outcome (Graph * iterator) :=
  n ← node_at g id;
  if negb (bool_decide (kind n = prim_PackPadded)) then Ok (g, Some id) else
  out0 ← Node_outputs_at n 0;
  if negb (bool_decide (length (uses g out0) = 1%nat)) then
    (* For now, only handle the case where there is one consumer. *)
    Ok (g, Some id)
  else
  rnn_id ← match uses g out0 with
           | u :: _ => Ok (user u)
           | [] => Err OutOfRange
           end;
  rnn ← node_at g rnn_id;
  if negb (isRNN rnn) then Ok (g, Some id) else
  (* remove PackPadded from in front of the RNN *)
  in0 ← Node_inputs_at n 0;
  let g := Value_replaceAllUsesWith g out0 in0 in
  (* note there can be multiple uses of the length blob *)
  out1 ← Node_outputs_at n 1;
  in1 ← Node_inputs_at n 1;
  g ← Value_replaceFirstUseWith registered g out1 in1;
  (* and insert new PackPadded after the RNN *)
  let '(g, newPackPadded) := create g prim_PackPadded 2 in
  g ← insertAfter g newPackPadded rnn_id;
  (* make things consume from the new PackPadded *)
  rnn_out0 ← Node_outputs_at rnn 0;
  new_out0 ← Node_outputs_at newPackPadded 0;
  new_out1 ← Node_outputs_at newPackPadded 1;
  let g := Value_replaceAllUsesWith g rnn_out0 new_out0 in
  let g := Value_replaceAllUsesWith g out1 new_out1 in
  (* setup the new PackPadded's inputs *)
  g ← addInput g (unique newPackPadded) rnn_out0;
  g ← addInput g (unique newPackPadded) in1;
  destroyCurrent g id.

(** Each rewrite moves one packing node behind a recurrent node that
    follows it, so a pass over [k] nodes takes at most [k * k] rewrites. *)
Definition pushPackingPastRnn (registered : use_order) (g : Graph)
  : outcome Graph :=
  it ← it_next g None;
  let k := S (length (nodes g)) in
  for_nodes (k * k) (pushPackingPastRnn_body registered) g it.

(** *** fixDefaultRNNState *)

Definition scalar_tensor (x : Z) : Tensor := mkTensor [] [x].

(** Create a node with [num_outputs] outputs and insert it before [anchor]. *)
Definition create_before (g : Graph) (k : NodeKind) (num_outputs : nat) (anchor : nat)
  : outcome (Graph * Node) :=
  let '(g, new) := create g k num_outputs in
  g ← insertBefore g new anchor;
  Ok (g, new).

(** [n->hasAttribute(attr::direction) && n->s(attr::direction) == "bidirectional"] *)
Definition is_bidirectional (n : Node) : outcome bool :=
  if hasAttribute n attr_direction
  then d ← Node_s n attr_direction; Ok (bool_decide (d = "bidirectional"))
  else Ok false.

(** The producer of the state is a Constant, or a Slice of a Constant. *)
Definition needsFixing (g : Graph) (state_node : Node) : outcome bool :=
  if bool_decide (kind state_node = onnx_Constant) then Ok true
  else if bool_decide (kind state_node = onnx_Slice) then
    sliced ← Node_inputs_at state_node 0;
    sliced_node ← Value_node g sliced;
    Ok (bool_decide (kind sliced_node = onnx_Constant))
  else Ok false.

Definition fixDefaultRNNState (g : Graph) (id : nat) (input_index : nat)
  : outcome Graph :=
  n ← node_at g id;
  initial_state ← Node_inputs_at n input_index;
  state_node ← Value_node g initial_state;
  fix_it ← needsFixing g state_node;
  if negb (fix_it : bool) then Ok g else
  '(g, shape_of_input) ← create_before g onnx_Shape 1 id;
  x ← Node_inputs_at n 0;
  g ← addInput g (unique shape_of_input) x;
  '(g, gather_indices) ← create_before g onnx_Constant 1 id;
  g ← setAttribute g (unique gather_indices) attr_value (TensorAttr (scalar_tensor 1));
  '(g, batch_size) ← create_before g onnx_Gather 1 id;
  g ← addInput g (unique batch_size) (mkValue (unique shape_of_input) 0);
  g ← addInput g (unique batch_size) (mkValue (unique gather_indices) 0);
  '(g, unsqueezed_batch_size) ← create_before g onnx_Unsqueeze 1 id;
  g ← addInput g (unique unsqueezed_batch_size) (mkValue (unique batch_size) 0);
  g ← setAttribute g (unique unsqueezed_batch_size) attr_axes (IntsAttr [0]);
  '(g, hidden_size) ← create_before g onnx_Constant 1 id;
  h ← Node_i n attr_hidden_size;
  g ← setAttribute g (unique hidden_size) attr_value (TensorAttr (mkTensor [1] [h]));
  '(g, num_directions) ← create_before g onnx_Constant 1 id;
  bidirectional ← is_bidirectional n;
  g ← setAttribute g (unique num_directions) attr_value
        (TensorAttr (scalar_tensor (if (bidirectional : bool) then 2 else 1)));
  '(g, unsqueezed_num_directions) ← create_before g onnx_Unsqueeze 1 id;
  g ← addInput g (unique unsqueezed_num_directions) (mkValue (unique num_directions) 0);
  g ← setAttribute g (unique unsqueezed_num_directions) attr_axes (IntsAttr [0]);
  '(g, concated_dims) ← create_before g onnx_Concat 1 id;
  g ← setAttribute g (unique concated_dims) attr_axis (IntAttr 0);
  g ← addInput g (unique concated_dims) (mkValue (unique unsqueezed_num_directions) 0);
  g ← addInput g (unique concated_dims) (mkValue (unique unsqueezed_batch_size) 0);
  g ← addInput g (unique concated_dims) (mkValue (unique hidden_size) 0);
  '(g, constant_fill) ← create_before g onnx_ConstantFill 1 id;
  g ← setAttribute g (unique constant_fill) attr_input_as_shape (IntAttr 1);
  g ← addInput g (unique constant_fill) (mkValue (unique concated_dims) 0);
  g ← replaceInput g id input_index (mkValue (unique constant_fill) 0);
  if bool_decide (length (uses g initial_state) = 0%nat)
  then destroy g (unique state_node)
  else Ok g.

Definition fixDefaultRnnHiddenState_body (g : Graph) (id : nat) : outcome Graph :=
  n ← node_at g id;
  if negb (isRNN n) then Ok g else
  (* Hidden state is the sixth input for RNN, LSTM, GRU. *)
  if bool_decide (length (inputs n) < 6)%nat then Ok g else
  fixDefaultRNNState g id 5.

Definition fixDefaultRnnHiddenState (g : Graph) : outcome Graph :=
  it ← it_next g None;
  for_nodes (S (length (nodes g)))
    (keeping_iterator fixDefaultRnnHiddenState_body) g it.

Definition fixDefaultLstmCellState_body (g : Graph) (id : nat) : outcome Graph :=
  n ← node_at g id;
  if negb (bool_decide (kind n = onnx_LSTM)) then Ok g else
  (* Cell state is the seventh input for LSTM. *)
  if bool_decide (length (inputs n) < 7)%nat then Ok g else
  fixDefaultRNNState g id 6.

Definition fixDefaultLstmCellState (g : Graph) : outcome Graph :=
  it ← it_next g None;
  for_nodes (S (length (nodes g)))
    (keeping_iterator fixDefaultLstmCellState_body) g it.

(** ** Well-formed graphs and vocabulary for the statements *)

(** Nodes are told apart by their address. *)
Definition graph_ok (g : Graph) : Prop := NoDup (unique <$> all_nodes g).

(** [rewire r n] is [n] with every input renamed by [r]. *)
Definition rewire (r : Value -> Value) (n : Node) : Node :=
  set_inputs (r <$> inputs n) n.

(** A node the no-op elimination removes: a transpose by the identity. *)
Definition is_nop_transpose (n : Node) : bool :=
  bool_decide (kind n = onnx_Transpose)
  && match attrs n !! attr_perm with
     | Some (IntsAttr perm) => isNopTranspose perm
     | _ => false
     end.

(** A node the no-op elimination passes over: not a transpose, or a
    transpose by a permutation that moves some position. *)
Definition passed_over (n : Node) : Prop :=
  kind n <> onnx_Transpose
  \/ exists perm, attrs n !! attr_perm = Some (IntsAttr perm)
                  /\ isNopTranspose perm = false.

(** The outer transpose after the fusion: the composed permutation, and
    the inner transpose's input as its input. *)
Definition fused_transpose (perm : list Z) (w : Value) (n : Node) : Node :=
  set_inputs [w] (set_attr attr_perm (IntsAttr perm) n).

(** [g] without the node [id]. *)
Definition without_node (id : nat) (g : Graph) : Graph :=
  set_nodes (filter (fun m => unique m <> id) (nodes g)) g.

(** Two chained transposes, by [1,0,2] and then by [0,2,1], of the first
    graph input; the graph returns the outer one. *)
Definition two_transposes : Graph :=
  {| input_ := mkNode 0 prim_Param [] [Some [2; 3; 4]] ∅;
     nodes :=
       [ mkNode 1 onnx_Transpose [mkValue 0 0] [None]
           {[ attr_perm := IntsAttr [1; 0; 2] ]};
         mkNode 2 onnx_Transpose [mkValue 1 0] [None]
           {[ attr_perm := IntsAttr [0; 2; 1] ]} ];
     output_ := mkNode 3 prim_Return [mkValue 2 0] [] ∅;
     next_unique := 4 |}.

Definition two_transposes_fused : Graph :=
  {| input_ := mkNode 0 prim_Param [] [Some [2; 3; 4]] ∅;
     nodes :=
       [ mkNode 2 onnx_Transpose [mkValue 0 0] [None]
           {[ attr_perm := IntsAttr [2; 0; 1] ]} ];
     output_ := mkNode 3 prim_Return [mkValue 2 0] [] ∅;
     next_unique := 4 |}.

(** An addition whose last input is an expand of the second graph input;
    the three graphs differ in which tensor types are known. *)
Definition expand_then_add (pre_expand post_expand : option (list Z)) : Graph :=
  {| input_ := mkNode 0 prim_Param [] [Some [2; 3]; pre_expand] ∅;
     nodes :=
       [ mkNode 1 aten_expand [mkValue 0 1] [post_expand] ∅;
         mkNode 2 onnx_Add [mkValue 0 0; mkValue 1 0] [None] ∅ ];
     output_ := mkNode 3 prim_Return [mkValue 2 0] [] ∅;
     next_unique := 4 |}.

(** A node on which [fuseBroadcast] tries the fusion: a broadcasting
    operator that does not broadcast yet and carries no axis. *)
Definition fusion_candidate (n : Node) : Prop :=
  isBroadcasting n = true
  /\ already_broadcasts n = Ok false
  /\ hasAttribute n attr_axis = false.

(** A transpose by the identity of the second of two graph inputs, read by
    an addition. *)
Definition nop_transpose_of_second_input : Graph :=
  {| input_ := mkNode 0 prim_Param [] [Some [2; 3; 4]; Some [2; 3; 4]] ∅;
     nodes :=
       [ mkNode 1 onnx_Transpose [mkValue 0 1] [None]
           {[ attr_perm := IntsAttr [0; 1; 2] ]};
         mkNode 2 onnx_Add [mkValue 0 0; mkValue 1 0] [None] ∅ ];
     output_ := mkNode 3 prim_Return [mkValue 2 0] [] ∅;
     next_unique := 4 |}.

(** The same with a single graph input, and a second no-op transpose right
    behind the first. *)
Definition nop_transposes_in_a_row : Graph :=
  {| input_ := mkNode 0 prim_Param [] [Some [2; 3; 4]] ∅;
     nodes :=
       [ mkNode 1 onnx_Transpose [mkValue 0 0] [None]
           {[ attr_perm := IntsAttr [0; 1; 2] ]};
         mkNode 2 onnx_Transpose [mkValue 1 0] [None]
           {[ attr_perm := IntsAttr [0; 1; 2] ]};
         mkNode 3 onnx_Add [mkValue 2 0; mkValue 1 0] [None] ∅ ];
     output_ := mkNode 4 prim_Return [mkValue 3 0; mkValue 2 0] [] ∅;
     next_unique := 5 |}.

Definition nop_transposes_eliminated : Graph :=
  {| input_ := mkNode 0 prim_Param [] [Some [2; 3; 4]] ∅;
     nodes := [ mkNode 3 onnx_Add [mkValue 0 0; mkValue 0 0] [None] ∅ ];
     output_ := mkNode 4 prim_Return [mkValue 3 0; mkValue 0 0] [] ∅;
     next_unique := 5 |}.

(** Ids handed out by [create] are new: every node is below [next_unique]. *)
Definition fresh_ok (g : Graph) : Prop :=
  graph_ok g /\ Forall (fun m => (unique m < next_unique g)%nat) (all_nodes g).

(** The subgraph [fixDefaultRNNState] builds in front of a recurrent node
    whose first input is [x]: the shape [num_directions, batch, hidden_size]
    computed from the run-time shape of [x], and a fill of that shape.  The
    nodes take the ids [k], [k+1], ..., [k+8]; the last one is the fill. *)
Definition zero_fill_subgraph (k : nat) (x : Value) (h : Z) (bidirectional : bool)
  : list Node :=
  let shape_of_input := k in
  let gather_indices := S shape_of_input in
  let batch_size := S gather_indices in
  let unsqueezed_batch_size := S batch_size in
  let hidden_size := S unsqueezed_batch_size in
  let num_directions := S hidden_size in
  let unsqueezed_num_directions := S num_directions in
  let concated_dims := S unsqueezed_num_directions in
  let constant_fill := S concated_dims in
  [ mkNode shape_of_input onnx_Shape [x] [None] ∅;
    mkNode gather_indices onnx_Constant [] [None]
      (<[attr_value := TensorAttr (scalar_tensor 1)]> ∅);
    mkNode batch_size onnx_Gather
      [mkValue shape_of_input 0; mkValue gather_indices 0] [None] ∅;
    mkNode unsqueezed_batch_size onnx_Unsqueeze [mkValue batch_size 0] [None]
      (<[attr_axes := IntsAttr [0]]> ∅);
    mkNode hidden_size onnx_Constant [] [None]
      (<[attr_value := TensorAttr (mkTensor [1] [h])]> ∅);
    mkNode num_directions onnx_Constant [] [None]
      (<[attr_value := TensorAttr (scalar_tensor (if bidirectional then 2 else 1))]> ∅);
    mkNode unsqueezed_num_directions onnx_Unsqueeze [mkValue num_directions 0] [None]
      (<[attr_axes := IntsAttr [0]]> ∅);
    mkNode concated_dims onnx_Concat
      [mkValue unsqueezed_num_directions 0; mkValue unsqueezed_batch_size 0;
       mkValue hidden_size 0] [None]
      (<[attr_axis := IntAttr 0]> ∅);
    mkNode constant_fill onnx_ConstantFill [mkValue concated_dims 0] [None]
      (<[attr_input_as_shape := IntAttr 1]> ∅) ].

(** The output of the fill node of [zero_fill_subgraph k]. *)
Definition zero_fill_output (k : nat) : Value := mkValue (8 + k) 0.

(** The graph after the state input [input_index] of [n] has been given
    the zero fill: the subgraph stands right before [n]. *)
Definition with_zero_fill (g : Graph) (pre post : list Node) (n : Node)
    (input_index : nat) (x : Value) (h : Z) (bidirectional : bool) : Graph :=
  {| input_ := input_ g;
     nodes := pre ++ zero_fill_subgraph (next_unique g) x h bidirectional
                  ++ set_inputs (<[input_index := zero_fill_output (next_unique g)]>
                                   (inputs n)) n :: post;
     output_ := output_ g;
     next_unique := 9 + next_unique g |}.

(** The default state of a recurrent node as the tracer leaves it: a
    Constant, or a Slice whose own input is a Constant. *)
Definition default_state (g : Graph) (state_node : Node) : Prop :=
  kind state_node = onnx_Constant
  \/ (kind state_node = onnx_Slice
      /\ exists sliced sliced_node,
           inputs state_node !! 0%nat = Some sliced
           /\ Value_node g sliced = Ok sliced_node
           /\ kind sliced_node = onnx_Constant).

(** An LSTM with six inputs whose hidden state is a Constant with no other
    use. *)
Definition lstm_default_state : Graph :=
  {| input_ := mkNode 0 prim_Param [] [None; None] ∅;
     nodes :=
       [ mkNode 1 onnx_Constant [] [None] ∅;
         mkNode 2 onnx_LSTM
           [mkValue 0 0; mkValue 0 1; mkValue 0 1; mkValue 0 1; mkValue 0 1;
            mkValue 1 0] [None; None; None]
           {[ attr_hidden_size := IntAttr 7 ]} ];
     output_ := mkNode 3 prim_Return [mkValue 2 0] [] ∅;
     next_unique := 4 |}.

Definition lstm_state_filled : Graph :=
  {| input_ := mkNode 0 prim_Param [] [None; None] ∅;
     nodes :=
       zero_fill_subgraph 4 (mkValue 0 0) 7 false
       ++ [ mkNode 2 onnx_LSTM
              [mkValue 0 0; mkValue 0 1; mkValue 0 1; mkValue 0 1; mkValue 0 1;
               mkValue 12 0] [None; None; None]
              {[ attr_hidden_size := IntAttr 7 ]} ];
     output_ := mkNode 3 prim_Return [mkValue 2 0] [] ∅;
     next_unique := 13 |}.

(** Every value read in the graph is defined by a node that [create] has
    already numbered. *)
Definition values_below (g : Graph) : Prop :=
  Forall (fun m => Forall (fun w => (producer w < next_unique g)%nat) (inputs m))
         (all_nodes g).

(** The renamings of [pushPackingPastRnn] at the packing node [n] in front
    of the recurrent node [rnn]: the packed data becomes the padded input
    [in0]; the output of [rnn] and the lengths output of [n] become the
    outputs of the new packing node [k]. *)
Definition unpack_input (n : Node) (in0 : Value) : Value -> Value :=
  rename_value (mkValue (unique n) 0) in0.

Definition repack_outputs (n rnn : Node) (k : nat) : Value -> Value :=
  rename_value (mkValue (unique n) 1) (mkValue k 1)
  ∘ rename_value (mkValue (unique rnn) 0) (mkValue k 0).

(** The recurrent node after the rewrite: it reads [in0] where it read the
    packed data and [in1] at its slot [j1], the first use on record of the
    lengths. *)
Definition rnn_unpacked (n rnn : Node) (in0 in1 : Value) (j1 k : nat) : Node :=
  rewire (repack_outputs n rnn k)
    (set_inputs (<[j1 := in1]> (inputs (rewire (unpack_input n in0) rnn)))
       (rewire (unpack_input n in0) rnn)).

(** The packing node created behind the recurrent node. *)
Definition new_packing (rnn : Node) (in1 : Value) (k : nat) : Node :=
  mkNode k prim_PackPadded [mkValue (unique rnn) 0; in1] [None; None] ∅.

(** The graph after the packing node [n] has been pushed past [rnn]. *)
Definition packing_pushed (g : Graph) (pre mid post : list Node) (n rnn : Node)
    (in0 in1 : Value) (j1 : nat) : Graph :=
  let k := next_unique g in
  let r := repack_outputs n rnn k ∘ unpack_input n in0 in
  {| input_ := rewire r (input_ g);
     nodes := (rewire r <$> pre) ++ (rewire r <$> mid)
              ++ rnn_unpacked n rnn in0 in1 j1 k
              :: new_packing rnn in1 k :: (rewire r <$> post);
     output_ := rewire r (output_ g);
     next_unique := S k |}.

(** A packing node in front of a recurrent node that reads the packed data
    and the lengths; an unpacking node reads the result and the lengths. *)
Definition packed_rnn : Graph :=
  {| input_ := mkNode 0 prim_Param [] [None; None; None] ∅;
     nodes :=
       [ mkNode 1 prim_PackPadded [mkValue 0 0; mkValue 0 1] [None; None] ∅;
         mkNode 2 onnx_RNN [mkValue 1 0; mkValue 0 2; mkValue 1 1] [None; None] ∅;
         mkNode 3 prim_PadPacked [mkValue 2 0; mkValue 1 1] [None; None] ∅ ];
     output_ := mkNode 4 prim_Return [mkValue 3 0; mkValue 3 1; mkValue 2 1] [] ∅;
     next_unique := 5 |}.

Definition packed_rnn_pushed : Graph :=
  {| input_ := mkNode 0 prim_Param [] [None; None; None] ∅;
     nodes :=
       [ mkNode 2 onnx_RNN [mkValue 0 0; mkValue 0 2; mkValue 0 1] [None; None] ∅;
         mkNode 5 prim_PackPadded [mkValue 2 0; mkValue 0 1] [None; None] ∅;
         mkNode 3 prim_PadPacked [mkValue 5 0; mkValue 5 1] [None; None] ∅ ];
     output_ := mkNode 4 prim_Return [mkValue 3 0; mkValue 3 1; mkValue 2 1] [] ∅;
     next_unique := 6 |}.

(** The same packing node when the recurrent node does not read the
    lengths: their only reader is the unpacking node. *)
Definition packed_rnn_without_lengths : Graph :=
  {| input_ := mkNode 0 prim_Param [] [None; None; None] ∅;
     nodes :=
       [ mkNode 1 prim_PackPadded [mkValue 0 0; mkValue 0 1] [None; None] ∅;
         mkNode 2 onnx_RNN [mkValue 1 0; mkValue 0 2] [None; None] ∅;
         mkNode 3 prim_PadPacked [mkValue 2 0; mkValue 1 1] [None; None] ∅ ];
     output_ := mkNode 4 prim_Return [mkValue 3 0; mkValue 3 1; mkValue 2 1] [] ∅;
     next_unique := 5 |}.

(** That graph after [pushPackingPastRnn]: the unpacking node reads the
    lengths that went into the old packing node, and nothing reads the
    lengths output of the new one. *)
Definition packed_rnn_lengths_lost : Graph :=
  {| input_ := mkNode 0 prim_Param [] [None; None; None] ∅;
     nodes :=
       [ mkNode 2 onnx_RNN [mkValue 0 0; mkValue 0 2] [None; None] ∅;
         mkNode 5 prim_PackPadded [mkValue 2 0; mkValue 0 1] [None; None] ∅;
         mkNode 3 prim_PadPacked [mkValue 5 0; mkValue 0 1] [None; None] ∅ ];
     output_ := mkNode 4 prim_Return [mkValue 3 0; mkValue 3 1; mkValue 2 1] [] ∅;
     next_unique := 6 |}.

(** A packing node in front of a recurrent node, with no reader of the
    lengths output at all. *)
Definition packed_rnn_unread_lengths : Graph :=
  {| input_ := mkNode 0 prim_Param [] [None; None; None] ∅;
     nodes :=
       [ mkNode 1 prim_PackPadded [mkValue 0 0; mkValue 0 1] [None; None] ∅;
         mkNode 2 onnx_RNN [mkValue 1 0; mkValue 0 2] [None; None] ∅ ];
     output_ := mkNode 3 prim_Return [mkValue 2 0; mkValue 2 1] [] ∅;
     next_unique := 4 |}.

(** An LSTM with seven inputs and both states left to their defaults: the
    hidden state is a Constant, the cell state a Slice of another
    Constant; neither has another use. *)
Definition lstm_default_states : Graph :=
  {| input_ := mkNode 0 prim_Param [] [None; None] ∅;
     nodes :=
       [ mkNode 1 onnx_Constant [] [None] ∅;
         mkNode 2 onnx_Constant [] [None] ∅;
         mkNode 3 onnx_Slice [mkValue 2 0] [None] ∅;
         mkNode 4 onnx_LSTM
           [mkValue 0 0; mkValue 0 1; mkValue 0 1; mkValue 0 1; mkValue 0 1;
            mkValue 1 0; mkValue 3 0] [None; None; None]
           {[ attr_hidden_size := IntAttr 7 ]} ];
     output_ := mkNode 5 prim_Return [mkValue 4 0] [] ∅;
     next_unique := 6 |}.

(** That graph after [fixDefaultRnnHiddenState]. *)
Definition lstm_hidden_filled : Graph :=
  {| input_ := mkNode 0 prim_Param [] [None; None] ∅;
     nodes :=
       [ mkNode 2 onnx_Constant [] [None] ∅;
         mkNode 3 onnx_Slice [mkValue 2 0] [None] ∅ ]
       ++ zero_fill_subgraph 6 (mkValue 0 0) 7 false
       ++ [ mkNode 4 onnx_LSTM
              [mkValue 0 0; mkValue 0 1; mkValue 0 1; mkValue 0 1; mkValue 0 1;
               mkValue 14 0; mkValue 3 0] [None; None; None]
              {[ attr_hidden_size := IntAttr 7 ]} ];
     output_ := mkNode 5 prim_Return [mkValue 4 0] [] ∅;
     next_unique := 15 |}.

(** And after [fixDefaultLstmCellState]: the Slice is gone, the Constant
    it read is still there. *)
Definition lstm_states_filled : Graph :=
  {| input_ := mkNode 0 prim_Param [] [None; None] ∅;
     nodes :=
       [ mkNode 2 onnx_Constant [] [None] ∅ ]
       ++ zero_fill_subgraph 6 (mkValue 0 0) 7 false
       ++ zero_fill_subgraph 15 (mkValue 0 0) 7 false
       ++ [ mkNode 4 onnx_LSTM
              [mkValue 0 0; mkValue 0 1; mkValue 0 1; mkValue 0 1; mkValue 0 1;
               mkValue 14 0; mkValue 23 0] [None; None; None]
              {[ attr_hidden_size := IntAttr 7 ]} ];
     output_ := mkNode 5 prim_Return [mkValue 4 0] [] ∅;
     next_unique := 24 |}.

(** ** The remaining passes and the pipeline *)

Definition attr_transA : string := "transA".
Definition attr_transB : string := "transB".

(** *** fuseTransposeIntoGemm *)

Definition simpleTransPerm : list Z := [1; 0].

(** [i == 0 ? attr::transA : attr::transB] *)
Definition trans_attr (i : nat) : string :=
  if bool_decide (i = 0%nat) then attr_transA else attr_transB.

(** [n->hasAttribute(trans) ? !n->i(trans) : 1] *)
Definition flipped_trans (n : Node) (trans : string) : outcome Z :=
  if hasAttribute n trans
  then old ← Node_i n trans; Ok (if old =? 0 then 1 else 0)
  else Ok 1.

(** One round of [for (size_t i : {0,1})] at the Gemm node [id]. *)
Definition fuseTransposeIntoGemm_at (g : Graph) (id : nat) (i : nat)
  : outcome Graph :=
  n ← node_at g id;
  inp ← Node_inputs_at n i;
  let trans := trans_attr i in
  t ← Value_node g inp;
  if negb (bool_decide (kind t = onnx_Transpose)) then Ok g else
  perm ← Node_is t attr_perm;
  if negb (bool_decide (perm = simpleTransPerm)) then Ok g else
  w ← Node_input t;
  g ← replaceInput g id i w;
  n ← node_at g id;
  flag ← flipped_trans n trans;
  g ← setAttribute g id trans (IntAttr flag);
  if bool_decide (length (uses g inp) = 0%nat)
  then destroy g (unique t)
  else Ok g.

Definition fuseTransposeIntoGemm_body (g : Graph) (id : nat) : outcome Graph :=
  n ← node_at g id;
  if negb (bool_decide (kind n = onnx_Gemm)) then Ok g else
  g ← fuseTransposeIntoGemm_at g id 0;
  fuseTransposeIntoGemm_at g id 1.

Definition fuseTransposeIntoGemm (g : Graph) : outcome Graph :=
  it ← it_next g None;
  for_nodes (S (length (nodes g)))
    (keeping_iterator fuseTransposeIntoGemm_body) g it.

(** *** removeNopPacking *)

(** Modelled from the spec: [n->removeAllInputs()] empties the input slots
    of the node; the uses being read off the slots (section 3, invariant
    2), the values it read lose these uses. *)
Definition removeAllInputs (g : Graph) (id : nat) : outcome Graph :=
  _ ← node_at g id;
  Ok (update_node id (set_inputs []) g).

Definition removeNopPacking_body (g : Graph) (id : nat)
  : outcome (Graph * iterator) :=
  n ← node_at g id;
  if negb (bool_decide (kind n = prim_PadPacked)) then Ok (g, Some id) else
  in0 ← Node_inputs_at n 0;
  input ← Value_node g in0;
  if negb (bool_decide (kind input = prim_PackPadded)) then Ok (g, Some id) else
  packed0 ← Node_outputs_at input 0;
  if negb (bool_decide (packed0 = in0)) then Ok (g, Some id) else
  packed1 ← Node_outputs_at input 1;
  in1 ← Node_inputs_at n 1;
  if negb (bool_decide (packed1 = in1)) then Ok (g, Some id) else
  out0 ← Node_outputs_at n 0;
  padded ← Node_inputs_at input 0;
  let g := Value_replaceAllUsesWith g out0 padded in
  out1 ← Node_outputs_at n 1;
  input ← node_at g (unique input);
  lengths ← Node_inputs_at input 1;
  let g := Value_replaceAllUsesWith g out1 lengths in
  g ← removeAllInputs g id;
  destroyCurrent g id.

Definition removeNopPacking (g : Graph) : outcome Graph :=
  it ← it_next g None;
  for_nodes (S (length (nodes g))) removeNopPacking_body g it.

(** *** PeepholeOptimizeONNX *)

(** The eight passes in the order of the source; [registered] goes to
    [pushPackingPastRnn], the one pass that reads the order of a use list. *)
Definition PeepholeOptimizeONNX (registered : use_order) (g : Graph)
  : outcome Graph :=
  g ← pushPackingPastRnn registered g;
  g ← removeNopPacking g;
  g ← fixDefaultRnnHiddenState g;
  g ← fixDefaultLstmCellState g;
  g ← fuseBroadcast g;
  g ← fuseConsecutiveTransposes g;
  g ← eliminateNopTranspose g;
  fuseTransposeIntoGemm g.

(** *** Vocabulary for the statements about these passes *)

(** The kinds of node at which some pass of the pipeline does anything. *)
Definition rewritten_kinds : list NodeKind :=
  [ prim_PackPadded; prim_PadPacked; onnx_RNN; onnx_LSTM; onnx_GRU;
    onnx_Add; onnx_Div; onnx_Mul; onnx_Pow; onnx_Sub; onnx_Gemm;
    onnx_Transpose ].

(** The candidate of [fuseBroadcast] after the fusion: it reads the input
    of the expand, broadcasts, and carries the axis when there is one. *)
Definition broadcast_fused (w : Value) (axis : option Z) (n : Node) : Node :=
  let n := set_attr attr_broadcast (IntAttr 1)
             (set_inputs (<[(length (inputs n) - 1)%nat := w]> (inputs n)) n) in
  match axis with
  | Some a => set_attr attr_axis (IntAttr a) n
  | None => n
  end.

(** The value [n->hasAttribute(trans) ? !n->i(trans) : 1] written to the
    flag, from what the attribute held: 1 when it was absent or 0, 0 when it
    was another integer; an attribute of another type has none. *)
Definition flipped (old : option AttributeValue) : option Z :=
  match old with
  | None => Some 1
  | Some (IntAttr b) => Some (if b =? 0 then 1 else 0)
  | Some _ => None
  end.

(** The Gemm node after a transpose is fused into its input [i]. *)
Definition gemm_fused (i : nat) (w : Value) (flag : Z) (n : Node) : Node :=
  set_attr (trans_attr i) (IntAttr flag) (set_inputs (<[i := w]> (inputs n)) n).

(** The state a recurrent node reads at [input_index] is given by the
    graph: its producer is not a Constant, and not a Slice of a Constant. *)
Definition provided_state (g : Graph) (n : Node) (input_index : nat) : Prop :=
  exists (s : Value) (p : Node),
    inputs n !! input_index = Some s
    /\ node_at g (producer s) = Ok p
    /\ kind p <> onnx_Constant
    /\ (kind p = onnx_Slice ->
        exists (v : Value) (q : Node),
          inputs p !! 0%nat = Some v /\ node_at g (producer v) = Ok q
          /\ kind q <> onnx_Constant).

(** A value that some node of [avail] has among its outputs. *)
Definition value_ok (avail : list Node) (v : Value) : Prop :=
  Exists (fun p => unique p = producer v
                   /\ (offset v < length (output_types p))%nat) avail.

#[global] Instance value_ok_dec (avail : list Node) (v : Value) :
  Decision (value_ok avail v).
Proof. unfold value_ok. apply _. Defined.

(** Definition before use: every node of [l] reads outputs of [avail] or of
    nodes that stand before it in [l]. *)
Fixpoint defined_before (avail l : list Node) : Prop :=
  match l with
  | [] => True
  | m :: l' =>
      Forall (value_ok avail) (inputs m) /\ defined_before (avail ++ [m]) l'
  end.

Definition topo_ok (g : Graph) : Prop := defined_before [] (all_nodes g).

(** Every transpose carries a permutation, and a transpose by the identity
    has one input, one output, and an input produced by a node with a
    single output. *)
Definition nop_transposes_ok (g : Graph) : Prop :=
  forall m, m ∈ nodes g -> kind m = onnx_Transpose ->
    exists perm, attrs m !! attr_perm = Some (IntsAttr perm)
      /\ (isNopTranspose perm = true ->
          exists (v : Value) (tn : option (list Z)),
            inputs m = [v] /\ output_types m = [tn]
            /\ forall p, p ∈ all_nodes g -> unique p = producer v ->
                 length (output_types p) = 1%nat).

(** [g] without its transposes by the identity. *)
Definition without_nops (g : Graph) : Graph :=
  set_nodes (filter (fun m => is_nop_transpose m = false) (nodes g)) g.

(** *** Example graphs for these passes *)

(** One node of a kind no pass looks at. *)
Definition relu_graph : Graph :=
  {| input_ := mkNode 0 prim_Param [] [Some [2; 3]] ∅;
     nodes := [ mkNode 1 (other_kind "Relu") [mkValue 0 0] [Some [2; 3]] ∅ ];
     output_ := mkNode 2 prim_Return [mkValue 1 0] [] ∅;
     next_unique := 3 |}.

(** An addition that carries an axis and no broadcast flag. *)
Definition add_with_axis : Graph :=
  {| input_ := mkNode 0 prim_Param [] [Some [2; 3]; Some [3]] ∅;
     nodes :=
       [ mkNode 1 onnx_Add [mkValue 0 0; mkValue 0 1] [None]
           {[ attr_axis := IntAttr 1 ]} ];
     output_ := mkNode 2 prim_Return [mkValue 1 0] [] ∅;
     next_unique := 3 |}.

(** A Gemm whose first input is the transpose by [1,0] of a graph input. *)
Definition gemm_of_transpose : Graph :=
  {| input_ := mkNode 0 prim_Param [] [Some [3; 2]; Some [3; 4]; Some [4]] ∅;
     nodes :=
       [ mkNode 1 onnx_Transpose [mkValue 0 0] [None]
           {[ attr_perm := IntsAttr [1; 0] ]};
         mkNode 2 onnx_Gemm [mkValue 1 0; mkValue 0 1; mkValue 0 2] [None] ∅ ];
     output_ := mkNode 3 prim_Return [mkValue 2 0] [] ∅;
     next_unique := 4 |}.

(** A packing node read by an unpacking node, whose outputs are read by a
    node of another kind and by the graph's return. *)
Definition pack_then_unpack : Graph :=
  {| input_ := mkNode 0 prim_Param [] [Some [5; 2; 3]; Some [2]] ∅;
     nodes :=
       [ mkNode 1 prim_PackPadded [mkValue 0 0; mkValue 0 1] [None; None] ∅;
         mkNode 2 prim_PadPacked [mkValue 1 0; mkValue 1 1] [None; None] ∅;
         mkNode 3 (other_kind "Relu") [mkValue 2 0] [None] ∅ ];
     output_ := mkNode 4 prim_Return [mkValue 3 0; mkValue 2 1] [] ∅;
     next_unique := 5 |}.

(** A recurrent node whose hidden state is a graph input. *)
Definition rnn_with_state : Graph :=
  {| input_ := mkNode 0 prim_Param []
                 [Some [5; 2; 3]; None; None; None; None; Some [1; 2; 4]] ∅;
     nodes :=
       [ mkNode 1 onnx_GRU
           [mkValue 0 0; mkValue 0 1; mkValue 0 2; mkValue 0 3; mkValue 0 4;
            mkValue 0 5] [None; None]
           {[ attr_hidden_size := IntAttr 4 ]} ];
     output_ := mkNode 2 prim_Return [mkValue 1 0] [] ∅;
     next_unique := 3 |}.

(** Two chained transposes whose permutations have different lengths. *)
Definition transposes_of_two_ranks : Graph :=
  {| input_ := mkNode 0 prim_Param [] [Some [2; 3; 4]] ∅;
     nodes :=
       [ mkNode 1 onnx_Transpose [mkValue 0 0] [None]
           {[ attr_perm := IntsAttr [1; 0; 2] ]};
         mkNode 2 onnx_Transpose [mkValue 1 0] [None]
           {[ attr_perm := IntsAttr [1; 0] ]} ];
     output_ := mkNode 3 prim_Return [mkValue 2 0] [] ∅;
     next_unique := 4 |}.
(** ** Facts about sizes and indexing *)

Lemma size_app {A} (a b : list A) : size (a ++ b) = size a + size b.
Proof. unfold size. rewrite length_app. lia. Qed.

Lemma size_cons {A} (x : A) (l : list A) : size (x :: l) = 1 + size l.
Proof. unfold size. simpl. lia. Qed.

Lemma size_nil {A} : size (@nil A) = 0.
Proof. reflexivity. Qed.

Lemma size_nonneg {A} (l : list A) : 0 <= size l.
Proof. unfold size. lia. Qed.

Lemma size_reverse {A} (l : list A) : size (reverse l) = size l.
Proof. unfold size. by rewrite length_reverse. Qed.

Ltac sizes :=
  rewrite ?size_app, ?size_cons in *; change (size (@nil Z)) with 0 in *.

Lemma idx_middle {A} (p q : list A) (x : A) (i : Z) :
  i = size p -> idx (p ++ x :: q) i = Ok x.
Proof.
  intros ->. unfold idx, size.
  destruct (Z.leb_spec 0 (Z.of_nat (length p))); [|lia].
  rewrite Nat2Z.id. by rewrite list_lookup_middle.
Qed.

(** Read [v[i]] where [v] is known to be [p ++ x :: q] up to
    re-association and [i] is the size of [p]. *)
Ltac relist l l' :=
  replace l with l' by (rewrite <- ?app_assoc; reflexivity).

Ltac idx_at p x q :=
  match goal with
  | |- context [idx ?l _] =>
      relist l (p ++ x :: q); rewrite (idx_middle p q x) by (sizes; lia)
  end.

(** ** The loops of [fusibleExpandTo] *)

Lemma drop_ones_split (l : list Z) :
  exists ones, l = ones ++ drop_ones l /\ Forall (fun d => d = 1) ones.
Proof.
  induction l as [|d l IH]; simpl.
  - exists []. by split.
  - destruct (Z.eqb_spec d 1) as [->|Hd].
    + destruct IH as (ones & Heq & Hall). exists (1 :: ones). split.
      * simpl. by rewrite <- Heq.
      * by constructor.
    + exists []. by split.
Qed.

Lemma drop_ones_head (l : list Z) :
  drop_ones l = [] \/ exists d r, drop_ones l = d :: r /\ d <> 1.
Proof.
  induction l as [|d l IH]; simpl; [by left|].
  destruct (Z.eqb_spec d 1); [done|]. right. by exists d, l.
Qed.

Lemma skip_leading_ones_spec (l pre : list Z) (fuel : nat) :
  (length l < fuel)%nat ->
  skip_leading_ones fuel (pre ++ l) (size pre)
  = Ok (size pre + size l - size (drop_ones l)).
Proof.
  revert pre fuel. induction l as [|d l IH]; intros pre fuel Hfuel;
    (destruct fuel as [|fuel]; [simpl in Hfuel; lia|]); simpl.
  - rewrite app_nil_r, Z.ltb_irrefl. f_equal. sizes. lia.
  - destruct (Z.ltb_spec (size pre) (size (pre ++ d :: l))) as [_|Hge].
    2:{ sizes. pose proof (size_nonneg l). lia. }
    rewrite idx_middle by done. simpl.
    destruct (Z.eqb_spec d 1) as [->|Hd].
    + replace (pre ++ 1 :: l) with ((pre ++ [1]) ++ l) by by rewrite <- app_assoc.
      replace (size pre + 1) with (size (pre ++ [1])) by (sizes; lia).
      rewrite IH by (simpl in Hfuel; lia). f_equal. sizes. lia.
    + f_equal. sizes. lia.
Qed.

Lemma skip_trailing_ones_spec (tail lead core rest : list Z) (fuel : nat) :
  Forall (fun d => d = 1) tail ->
  (core = [] -> tail = []) ->
  (core = [] \/ exists c x, core = c ++ [x] /\ x <> 1) ->
  (length tail < fuel)%nat ->
  skip_trailing_ones fuel (lead ++ core ++ tail ++ rest) (size lead)
    (size lead + size core + size tail - 1)
  = Ok (size lead + size core - 1).
Proof.
  revert fuel rest. induction tail as [|d tail IH] using rev_ind;
    intros fuel rest Hones Hnil Hcore Hfuel;
    (destruct fuel as [|fuel]; [simpl in Hfuel; lia|]); simpl.
  - sizes.
    destruct (Z.ltb_spec (size lead) (size lead + size core + 0 - 1)) as [Hlt|Hge];
      [|f_equal; lia].
    destruct Hcore as [->|(c & x & -> & Hx)]; [sizes; lia|].
    idx_at (lead ++ c) x rest. simpl.
    destruct (Z.eqb_spec x 1); [done|]. f_equal. lia.
  - apply Forall_app in Hones as [Hones Hd].
    apply Forall_inv in Hd. simpl in Hd. subst d.
    rewrite length_app in Hfuel. simpl in Hfuel.
    assert (Hne : 0 < size core).
    { destruct Hcore as [->|(c & x & -> & _)].
      - specialize (Hnil eq_refl). by destruct tail.
      - sizes. pose proof (size_nonneg c). lia. }
    sizes. pose proof (size_nonneg tail).
    destruct (Z.ltb_spec (size lead)
                (size lead + size core + (size tail + (1 + 0)) - 1)); [|lia].
    idx_at ((lead ++ core) ++ tail) 1 rest. simpl.
    relist (((lead ++ core) ++ tail) ++ 1 :: rest) (lead ++ core ++ tail ++ 1 :: rest).
    replace (size lead + size core + (size tail + (1 + 0)) - 1 - 1)
      with (size lead + size core + size tail - 1) by lia.
    apply (IH fuel (1 :: rest)); auto; [|lia].
    intros Hc. subst core. sizes. lia.
Qed.

Lemma core_of_split (r : list Z) :
  exists tail, r = reverse (drop_ones (reverse r)) ++ tail
    /\ Forall (fun d => d = 1) tail
    /\ (reverse (drop_ones (reverse r)) = []
        \/ exists c x, reverse (drop_ones (reverse r)) = c ++ [x] /\ x <> 1).
Proof.
  destruct (drop_ones_split (reverse r)) as (ones & Heq & Hall).
  exists (reverse ones). split; [|split].
  - rewrite <- reverse_app, <- Heq. by rewrite reverse_involutive.
  - by apply Forall_reverse.
  - destruct (drop_ones_head (reverse r)) as [->|(d & q & -> & Hd)]; [by left|].
    right. exists (reverse q), d. by rewrite reverse_cons.
Qed.

Lemma trailing_scan_spec (c : list Z) :
  forall (lead rest u w : list Z) (fuel : nat),
  (length c < fuel)%nat -> (length c <= length u)%nat ->
  exists f',
    trailing_scan fuel (lead ++ c ++ rest) (u ++ w) (size lead)
      (size lead + size c - 1) (size u - 1)
    = Ok (walk_matches (reverse c) (reverse u), f')
    /\ (walk_matches (reverse c) (reverse u) = true -> f' = size lead - 1).
Proof.
  induction c as [|x c IH] using rev_ind; intros lead rest u w fuel Hfuel Hlen;
    (destruct fuel as [|fuel]; [simpl in Hfuel; lia|]); simpl.
  - sizes. destruct (Z.leb_spec (size lead) (size lead + 0 - 1)); [lia|]. simpl.
    eexists. split; [reflexivity|]. intros _. lia.
  - rewrite length_app in Hfuel, Hlen. simpl in Hfuel, Hlen.
    destruct u as [|y u _] using rev_ind; [simpl in Hlen; lia|].
    rewrite length_app in Hlen. simpl in Hlen.
    sizes. pose proof (size_nonneg c). pose proof (size_nonneg u).
    destruct (Z.leb_spec (size lead) (size lead + (size c + (1 + 0)) - 1)); [|lia].
    destruct (Z.leb_spec 0 (size u + (1 + 0) - 1)); [|lia]. simpl.
    idx_at (lead ++ c) x rest. simpl.
    idx_at u y w. simpl.
    rewrite !reverse_app. simpl.
    destruct (Z.eqb_spec x y) as [->|Hxy]; simpl.
    + relist ((lead ++ c) ++ y :: rest) (lead ++ c ++ y :: rest).
      replace (size lead + (size c + (1 + 0)) - 1 - 1)
        with (size lead + size c - 1) by lia.
      replace (size u + (1 + 0) - 1 - 1) with (size u - 1) by lia.
      apply (IH lead (y :: rest) u (y :: w) fuel); lia.
    + eexists. split; [reflexivity|]. done.
Qed.

Lemma leading_scan_spec (c : list Z) :
  forall (p rest u w : list Z) (fuel : nat),
  (length c < fuel)%nat -> (length c <= length w)%nat ->
  exists f',
    leading_scan fuel (p ++ c ++ rest) (u ++ w) (size p + size c - 1)
      (size p) (size u)
    = Ok (walk_matches c w, f')
    /\ (walk_matches c w = true -> f' = size p + size c).
Proof.
  induction c as [|x c IH]; intros p rest u w fuel Hfuel Hlen;
    (destruct fuel as [|fuel]; [simpl in Hfuel; lia|]); simpl.
  - sizes. destruct (Z.leb_spec (size p) (size p + 0 - 1)); [lia|]. simpl.
    eexists. split; [reflexivity|]. intros _. lia.
  - simpl in Hfuel, Hlen. destruct w as [|y w]; [simpl in Hlen; lia|].
    simpl in Hlen.
    sizes. pose proof (size_nonneg c). pose proof (size_nonneg w).
    destruct (Z.leb_spec (size p) (size p + (1 + size c) - 1)); [|lia].
    destruct (Z.ltb_spec (size u) (size u + (1 + size w))); [|lia]. simpl.
    rewrite (idx_middle p (c ++ rest) x) by lia. simpl.
    rewrite (idx_middle u w y) by lia. simpl.
    destruct (Z.eqb_spec x y) as [->|Hxy]; simpl.
    + replace (p ++ y :: c ++ rest) with ((p ++ [y]) ++ c ++ rest)
        by by rewrite <- app_assoc.
      replace (u ++ y :: w) with ((u ++ [y]) ++ w) by by rewrite <- app_assoc.
      destruct (IH (p ++ [y]) rest (u ++ [y]) w fuel) as (f' & Hrun & Hf');
        [lia..|].
      revert Hrun Hf'. sizes. intros Hrun Hf'.
      replace (size p + (1 + size c) - 1) with (size p + (1 + 0) + size c - 1) by lia.
      exists f'. split; [exact Hrun|]. intros Hm. specialize (Hf' Hm). lia.
    + eexists. split; [reflexivity|]. done.
Qed.

(** Where the two trimming loops stop: the core of [from] sits between the
    leading ones and the trailing ones. *)
Lemma from_split (from : list Z) :
  exists lead tail,
    from = lead ++ core_of from ++ tail
    /\ size lead = size from - size (drop_ones from)
    /\ Forall (fun d => d = 1) tail
    /\ (core_of from = [] -> tail = [])
    /\ (core_of from = [] \/ exists c x, core_of from = c ++ [x] /\ x <> 1).
Proof.
  destruct (drop_ones_split from) as (lead & Hfrom & _).
  destruct (core_of_split (drop_ones from)) as (tail & Hr & Hones & Hcore).
  fold (core_of from) in Hr, Hcore.
  exists lead, tail. split; [by rewrite <- Hr|].
  split.
  { assert (size from = size lead + size (drop_ones from)) as ->
      by (rewrite Hfrom at 1; apply size_app).
    lia. }
  split; [done|]. split; [|done].
  intros Hnil. rewrite Hnil in Hr. simpl in Hr.
  destruct (drop_ones_head from) as [Hd|(d & q & Hd & Hne)].
  - rewrite Hd in Hr. done.
  - rewrite Hd in Hr. subst tail. by inversion Hones.
Qed.

Lemma length_core_of (from : list Z) : (length (core_of from) <= length from)%nat.
Proof.
  destruct (from_split from) as (lead & tail & Hfrom & _).
  rewrite Hfrom at 2. rewrite !length_app. lia.
Qed.

(** C3.  For [from] no longer than [to], the check returns what the
    trim-then-align description gives: fusable without an axis when the
    core of [from] agrees with [to] walking from the trailing ends,
    fusable with axis 0 when it agrees walking from the leading ends,
    and not fusable otherwise.  In particular [5] into [3,4,5] and
    [1,1,768] into [5,1,768] are fusable without an axis. *)
Theorem fusibleExpandTo_refines (from to : list Z) :
  (length from <= length to)%nat ->
  fusibleExpandTo from to = Ok (fusible_by_alignment from to)
  /\ fusibleExpandTo [5] [3; 4; 5] = Ok (true, None)
  /\ fusibleExpandTo [1; 1; 768] [5; 1; 768] = Ok (true, None).
Proof.
  intros Hlen. split; [|by split].
  unfold fusibleExpandTo, fusible_by_alignment, trailing_aligned, leading_aligned.
  destruct (Z.ltb_spec (size to) (size from)) as [Hlt|_];
    [unfold size in Hlt; lia|].
  pose proof (length_core_of from) as Hcore_len.
  destruct (from_split from) as (lead & tail & Hfrom & Hlead & Hones & Hnil & Hcore).
  set (core := core_of from) in *. clearbody core.
  (* from_dim_start *)
  pose proof (skip_leading_ones_spec from [] (S (length from))) as Hstart.
  change ([] ++ from) with from in Hstart.
  change (size (@nil Z)) with 0 in Hstart.
  rewrite Hstart, Z.add_0_l, <- Hlead by lia. clear Hstart.
  cbn [mbind outcome_bind].
  (* from_dim_end *)
  assert (Hsz : size from - 1 = size lead + size core + size tail - 1).
  { rewrite Hfrom. sizes. lia. }
  rewrite Hsz, Hfrom.
  replace (lead ++ core ++ tail) with (lead ++ core ++ tail ++ [])
    by by rewrite app_nil_r.
  rewrite skip_trailing_ones_spec; [|done..|].
  2:{ rewrite !length_app. lia. }
  cbn [mbind outcome_bind].
  (* the walk from the trailing ends *)
  destruct (trailing_scan_spec core lead (tail ++ []) to []
              (S (length (lead ++ core ++ tail ++ [])))) as (f1 & Hrun1 & Hf1).
  { rewrite !length_app. lia. }
  { lia. }
  rewrite (app_nil_r to) in Hrun1. rewrite Hrun1. cbn [mbind outcome_bind].
  destruct (walk_matches (reverse core) (reverse to)) eqn:Htrail;
    cbn [andb].
  { rewrite (Hf1 eq_refl).
    destruct (Z.leb_spec (size lead - 1) (size lead)); [done|lia]. }
  (* the walk from the leading ends *)
  destruct (leading_scan_spec core lead (tail ++ []) [] to
              (S (length (lead ++ core ++ tail ++ [])))) as (f2 & Hrun2 & Hf2).
  { rewrite !length_app. lia. }
  { lia. }
  change ([] ++ to) with to in Hrun2. change (size (@nil Z)) with 0 in Hrun2.
  rewrite Hrun2. cbn [mbind outcome_bind].
  destruct (walk_matches core to) eqn:Hlead'; cbn [andb]; [|done].
  rewrite (Hf2 eq_refl).
  destruct (Z.leb_spec (size lead + size core - 1) (size lead + size core));
    [done|lia].
Qed.

Lemma fusibleExpandTo_refines_witness :
  (length [1; 3] <= length [3; 4])%nat
  /\ (fusibleExpandTo [1; 3] [3; 4] = Ok (fusible_by_alignment [1; 3] [3; 4])
      /\ fusibleExpandTo [5] [3; 4; 5] = Ok (true, None)
      /\ fusibleExpandTo [1; 1; 768] [5; 1; 768] = Ok (true, None)).
Proof.
  split; [simpl; lia|].
  apply (fusibleExpandTo_refines [1; 3] [3; 4]). simpl; lia.
Defined.

(** C10.  When [from] has more dimensions than [to] the check answers
    "not fusable, no axis" whatever the sizes are: the answer is the same
    for any other pair of shapes of the same two ranks. *)
Theorem fusibleExpandTo_longer_from (from to : list Z) :
  (length to < length from)%nat ->
  fusibleExpandTo from to = Ok (false, None)
  /\ forall from' to' : list Z,
       length from' = length from -> length to' = length to ->
       fusibleExpandTo from' to' = fusibleExpandTo from to.
Proof.
  intros Hlen.
  assert (Hguard : forall a b : list Z,
    (length b < length a)%nat -> fusibleExpandTo a b = Ok (false, None)).
  { intros a b Hab. unfold fusibleExpandTo.
    destruct (Z.ltb_spec (size b) (size a)) as [_|Hge]; [done|].
    unfold size in Hge. lia. }
  split; [by apply Hguard|].
  intros from' to' Hf Ht. rewrite !Hguard; [done|lia..].
Qed.

Lemma fusibleExpandTo_longer_from_witness :
  (length [4] < length [3; 4])%nat
  /\ fusibleExpandTo [3; 4] [4] = Ok (false, None).
Proof.
  split; [simpl; lia|].
  refine (proj1 (fusibleExpandTo_longer_from [3; 4] [4] _)). simpl; lia.
Defined.

(** C1 (as the code has it).  [3] into [3,4] does not align at the trailing
    end (3 against 4) but aligns at the leading end, so the check answers
    fusable with axis 0. *)
Theorem fusibleExpandTo_3_into_3_4 :
  fusibleExpandTo [3] [3; 4] = Ok (true, Some 0)
  /\ trailing_aligned (core_of [3]) [3; 4] = false
  /\ leading_aligned (core_of [3]) [3; 4] = true.
Proof. by repeat split. Qed.

(** C1 (as stated) fails: the answer for [3] into [3,4] is not
    "not fusable". *)
Lemma fusibleExpandTo_3_into_3_4_fusable :
  match fusibleExpandTo [3] [3; 4] with
  | Ok (fusable, axis) => fusable = true /\ axis = Some 0
  | Err _ => False
  end.
Proof. simpl. by split. Qed.

(** ** Composition of permutations *)

Lemma identity_perm_lookup (n i : nat) :
  (i < n)%nat -> identity_perm n !! i = Some (Z.of_nat i).
Proof.
  intros Hi. unfold identity_perm.
  rewrite list_lookup_fmap, lookup_seq_lt by done. done.
Qed.

Lemma length_identity_perm (n : nat) : length (identity_perm n) = n.
Proof. unfold identity_perm. by rewrite length_fmap, length_seq. Qed.

Lemma identity_perm_in_range (n : nat) : in_range (Z.of_nat n) (identity_perm n).
Proof.
  unfold in_range, identity_perm. apply Forall_fmap, Forall_forall.
  intros i Hi. apply elem_of_seq in Hi. simpl. lia.
Qed.

Lemma is_permutation_in_range (p : list Z) :
  is_permutation p -> in_range (size p) p.
Proof.
  unfold is_permutation, size. intros Hp.
  pose proof (identity_perm_in_range (length p)) as Hid.
  unfold in_range in *. by rewrite <- Hp in Hid.
Qed.

Lemma in_range_lookup (n : Z) (p : list Z) (i : nat) (a : Z) :
  in_range n p -> p !! i = Some a -> 0 <= a < n.
Proof. intros Hp Hi. by apply (Forall_lookup_1 _ _ _ _ Hp Hi). Qed.

Lemma compose_pointwise_lookup (p1 p2 : list Z) (i : nat) (a : Z) :
  in_range (size p2) p1 -> p1 !! i = Some a ->
  compose_pointwise p1 p2 !! i = p2 !! Z.to_nat a.
Proof.
  intros Hr Hi. unfold compose_pointwise.
  rewrite list_lookup_fmap, Hi. simpl.
  pose proof (in_range_lookup _ _ _ _ Hr Hi) as Ha.
  destruct (lookup_lt_is_Some_2 p2 (Z.to_nat a)) as [b Hb].
  { unfold size in Ha. lia. }
  by rewrite Hb.
Qed.

Lemma compose_pointwise_in_range (p1 p2 : list Z) (n : Z) :
  in_range (size p2) p1 -> in_range n p2 -> in_range n (compose_pointwise p1 p2).
Proof.
  intros H1 H2. unfold in_range. apply Forall_lookup_2. intros i b Hb.
  destruct (p1 !! i) as [a|] eqn:Ha.
  - rewrite (compose_pointwise_lookup _ _ _ _ H1 Ha) in Hb.
    by apply (in_range_lookup _ _ _ _ H2 Hb).
  - unfold compose_pointwise in Hb. by rewrite list_lookup_fmap, Ha in Hb.
Qed.

Lemma length_compose_pointwise (p1 p2 : list Z) :
  length (compose_pointwise p1 p2) = length p1.
Proof. unfold compose_pointwise. by rewrite length_fmap. Qed.

Lemma composeTransposes_loop_spec (todo t2 ret : list Z) :
  in_range (size t2) todo -> in_range (size t2) t2 ->
  composeTransposes_loop todo t2 ret = Ok (ret ++ compose_pointwise todo t2).
Proof.
  intros Htodo Ht2. revert ret.
  induction Htodo as [|a todo Ha Htodo IH]; intros ret; simpl.
  - by rewrite app_nil_r.
  - destruct (Z.ltb_spec a (size t2)); [|lia]. simpl.
    unfold idx. destruct (Z.leb_spec 0 a); [|lia].
    destruct (lookup_lt_is_Some_2 t2 (Z.to_nat a)) as [b Hb].
    { unfold size in *. lia. }
    rewrite Hb. simpl.
    pose proof (in_range_lookup _ _ _ _ Ht2 Hb) as Hbr.
    destruct (Z.ltb_spec b (size t2)); [|lia]. simpl.
    rewrite IH. by rewrite <- app_assoc.
Qed.

Lemma composeTransposes_pointwise (t1 t2 : list Z) :
  length t1 = length t2 ->
  in_range (size t2) t1 -> in_range (size t2) t2 ->
  composeTransposes t1 t2 = Ok (compose_pointwise t1 t2).
Proof.
  intros Hlen H1 H2. unfold composeTransposes.
  destruct (Z.eqb_spec (size t1) (size t2)) as [_|Hne];
    [|unfold size in Hne; lia].
  simpl. by rewrite composeTransposes_loop_spec.
Qed.

Lemma compose_pointwise_identity_r (p : list Z) (n : nat) :
  in_range (Z.of_nat n) p -> compose_pointwise p (identity_perm n) = p.
Proof.
  intros Hp. apply list_eq. intros i. unfold compose_pointwise.
  rewrite list_lookup_fmap. destruct (p !! i) as [a|] eqn:Ha; simpl; [|done].
  pose proof (in_range_lookup _ _ _ _ Hp Ha).
  rewrite identity_perm_lookup by lia. simpl. f_equal. lia.
Qed.

Lemma compose_pointwise_identity_l (p : list Z) :
  compose_pointwise (identity_perm (length p)) p = p.
Proof.
  apply list_eq. intros i. unfold compose_pointwise.
  rewrite list_lookup_fmap.
  destruct (decide (i < length p)%nat) as [Hi|Hi].
  - rewrite identity_perm_lookup by done. simpl. rewrite Nat2Z.id.
    destruct (lookup_lt_is_Some_2 p i Hi) as [b Hb]. by rewrite Hb.
  - rewrite (lookup_ge_None_2 p) by lia.
    rewrite lookup_ge_None_2; [done|]. rewrite length_identity_perm. lia.
Qed.

Lemma compose_pointwise_assoc (p1 p2 p3 : list Z) :
  in_range (size p2) p1 -> in_range (size p3) p2 ->
  compose_pointwise (compose_pointwise p1 p2) p3
  = compose_pointwise p1 (compose_pointwise p2 p3).
Proof.
  intros H1 H2. apply list_eq. intros i.
  unfold compose_pointwise at 1 3. rewrite !list_lookup_fmap.
  destruct (p1 !! i) as [a|] eqn:Ha.
  2:{ unfold compose_pointwise. by rewrite list_lookup_fmap, Ha. }
  rewrite (compose_pointwise_lookup _ _ _ _ H1 Ha). simpl.
  pose proof (in_range_lookup _ _ _ _ H1 Ha) as Har.
  destruct (lookup_lt_is_Some_2 p2 (Z.to_nat a)) as [b Hb].
  { unfold size in Har. lia. }
  rewrite Hb. simpl.
  by rewrite (compose_pointwise_lookup _ _ _ _ H2 Hb).
Qed.

(** C8.  On valid permutations of one length, [composeTransposes p1 p2]
    returns the list whose i-th entry is [p2[p1[i]]]; composing is
    associative, and composing with the identity permutation on either
    side gives the permutation back.  (Every length, so lengths 1 to 8.) *)
Theorem composeTransposes_laws (p1 p2 p3 : list Z) :
  is_permutation p1 -> is_permutation p2 -> is_permutation p3 ->
  length p1 = length p2 -> length p2 = length p3 ->
  (exists r, composeTransposes p1 p2 = Ok r
     /\ length r = length p1
     /\ forall (i : nat) (a : Z), p1 !! i = Some a -> r !! i = p2 !! Z.to_nat a)
  /\ (exists r, (composeTransposes p1 p2 ≫= fun p12 => composeTransposes p12 p3) = Ok r
        /\ (composeTransposes p2 p3 ≫= fun p23 => composeTransposes p1 p23) = Ok r)
  /\ composeTransposes p1 (identity_perm (length p1)) = Ok p1
  /\ composeTransposes (identity_perm (length p1)) p1 = Ok p1.
Proof.
  intros Hp1 Hp2 Hp3 H12 H23.
  apply is_permutation_in_range in Hp1, Hp2, Hp3.
  assert (Hs12 : size p1 = size p2) by (unfold size; lia).
  assert (Hs23 : size p2 = size p3) by (unfold size; lia).
  assert (Hc12 : composeTransposes p1 p2 = Ok (compose_pointwise p1 p2)).
  { apply composeTransposes_pointwise; [done| |done]. by rewrite <- Hs12. }
  assert (Hc23 : composeTransposes p2 p3 = Ok (compose_pointwise p2 p3)).
  { apply composeTransposes_pointwise; [done| |done]. by rewrite <- Hs23. }
  split; [|split; [|split]].
  - exists (compose_pointwise p1 p2). split; [done|].
    split; [apply length_compose_pointwise|].
    intros i a Ha. apply compose_pointwise_lookup; [|done]. by rewrite <- Hs12.
  - exists (compose_pointwise (compose_pointwise p1 p2) p3).
    rewrite Hc12, Hc23. simpl. split.
    + apply composeTransposes_pointwise; [|  |done].
      * rewrite length_compose_pointwise. lia.
      * apply compose_pointwise_in_range; [by rewrite <- Hs12|by rewrite <- Hs23].
    + rewrite compose_pointwise_assoc by (by rewrite <- ?Hs12, <- ?Hs23).
      assert (Hs : size (compose_pointwise p2 p3) = size p2).
      { unfold size. by rewrite length_compose_pointwise. }
      apply composeTransposes_pointwise.
      * rewrite length_compose_pointwise. lia.
      * by rewrite Hs, <- Hs12.
      * rewrite Hs, Hs23. apply compose_pointwise_in_range; [|done].
        by rewrite <- Hs23.
  - assert (Hs : size (identity_perm (length p1)) = size p1).
    { unfold size. by rewrite length_identity_perm. }
    rewrite composeTransposes_pointwise.
    + f_equal. by apply compose_pointwise_identity_r.
    + by rewrite length_identity_perm.
    + by rewrite Hs.
    + rewrite Hs. apply identity_perm_in_range.
  - rewrite composeTransposes_pointwise.
    + f_equal. apply compose_pointwise_identity_l.
    + by rewrite length_identity_perm.
    + apply identity_perm_in_range.
    + done.
Qed.

(** ** Facts about the graph IR *)

Lemma find_has_unique (l : list Node) (n : Node) :
  NoDup (unique <$> l) -> n ∈ l -> find (has_unique (unique n)) l = Some n.
Proof.
  induction l as [|m l IH]; intros Hnd Hin; [by apply elem_of_nil in Hin|].
  rewrite fmap_cons in Hnd. apply NoDup_cons in Hnd as [Hm Hnd].
  simpl. unfold has_unique at 1. case_bool_decide as Heq.
  - apply elem_of_cons in Hin as [->|Hin]; [done|].
    exfalso. apply Hm. rewrite Heq. by apply list_elem_of_fmap_2.
  - apply elem_of_cons in Hin as [->|Hin]; [done|]. by apply IH.
Qed.

Lemma find_has_unique_Some (l : list Node) (id : nat) (n : Node) :
  find (has_unique id) l = Some n -> n ∈ l /\ unique n = id.
Proof.
  intros H. apply find_some in H as [Hin Hid].
  split; [by apply list_elem_of_In|].
  unfold has_unique in Hid. by apply bool_decide_eq_true in Hid.
Qed.

Lemma node_at_elem (g : Graph) (n : Node) :
  graph_ok g -> n ∈ all_nodes g -> node_at g (unique n) = Ok n.
Proof. intros Hok Hin. unfold node_at. by rewrite find_has_unique. Qed.

Lemma node_at_Ok (g : Graph) (id : nat) (n : Node) :
  node_at g id = Ok n -> n ∈ all_nodes g /\ unique n = id.
Proof.
  unfold node_at. destruct (find _ _) as [m|] eqn:Hf; [|done].
  intros [= ->]. by apply find_has_unique_Some.
Qed.

Lemma elem_of_all_nodes (g : Graph) (n : Node) :
  n ∈ nodes g -> n ∈ all_nodes g.
Proof. intros H. unfold all_nodes. set_solver. Qed.

Lemma input_in_all_nodes (g : Graph) : input_ g ∈ all_nodes g.
Proof. unfold all_nodes. apply elem_of_cons. by left. Qed.

Lemma output_in_all_nodes (g : Graph) : output_ g ∈ all_nodes g.
Proof.
  unfold all_nodes. apply elem_of_cons. right. apply elem_of_app. right.
  apply elem_of_cons. by left.
Qed.

Lemma elem_of_middle {A} (a b : list A) (x : A) : x ∈ a ++ x :: b.
Proof. apply elem_of_app. right. apply elem_of_cons. by left. Qed.

Lemma elem_of_before {A} (a b : list A) (x y : A) : y ∈ a -> y ∈ a ++ x :: b.
Proof. intros H. apply elem_of_app. by left. Qed.

Lemma elem_of_after {A} (a b : list A) (x y : A) : y ∈ b -> y ∈ a ++ x :: b.
Proof. intros H. apply elem_of_app. right. apply elem_of_cons. by right. Qed.

Lemma graph_ok_nodes (g : Graph) : graph_ok g -> NoDup (unique <$> nodes g).
Proof.
  unfold graph_ok, all_nodes. rewrite fmap_cons, fmap_app.
  intros H. apply NoDup_cons in H as [_ H]. by apply NoDup_app in H as [H _].
Qed.

(** *** Walking the node list *)

Lemma succ_in_middle (done rest : list Node) (n : Node) :
  NoDup (unique <$> (done ++ n :: rest)) ->
  succ_in (done ++ n :: rest) (unique n) = Ok (unique <$> head rest).
Proof.
  induction done as [|m done IH]; intros Hnd; simpl.
  - unfold has_unique. by rewrite bool_decide_eq_true_2.
  - rewrite <- app_comm_cons, fmap_cons in Hnd. apply NoDup_cons in Hnd as [Hm Hnd].
    unfold has_unique at 1. rewrite bool_decide_eq_false_2; [by apply IH|].
    intros Heq. apply Hm. rewrite Heq. apply list_elem_of_fmap_2. set_solver.
Qed.

Lemma pred_in_middle (done rest : list Node) (n : Node) (before : iterator) :
  NoDup (unique <$> (done ++ n :: rest)) ->
  pred_in (done ++ n :: rest) (unique n) before
  = Ok (from_option Some before (unique <$> last done)).
Proof.
  revert before. induction done as [|m done IH]; intros before Hnd; simpl.
  - unfold has_unique. by rewrite bool_decide_eq_true_2.
  - rewrite <- app_comm_cons, fmap_cons in Hnd. apply NoDup_cons in Hnd as [Hm Hnd].
    unfold has_unique at 1. rewrite bool_decide_eq_false_2.
    2:{ intros Heq. apply Hm. rewrite Heq. apply list_elem_of_fmap_2. set_solver. }
    rewrite IH by done. f_equal. destruct done as [|m' done]; [done|].
    rewrite last_cons_cons. destruct (last (m' :: done)) eqn:Hl; [done|].
    by apply last_None in Hl.
Qed.

(** After the node under the iterator is gone, [++it] from the node before
    it reaches the node that followed it. *)
Lemma it_next_after_removal (g : Graph) (done rest : list Node) :
  nodes g = done ++ rest -> NoDup (unique <$> nodes g) ->
  it_next g (unique <$> last done) = Ok (unique <$> head rest).
Proof.
  intros Hn Hnd. rewrite Hn in Hnd. unfold it_next. rewrite Hn.
  destruct done as [|m done _] using rev_ind; [done|].
  rewrite last_snoc. simpl. rewrite <- app_assoc. simpl.
  apply succ_in_middle. by rewrite <- app_assoc in Hnd.
Qed.

(** *** Renaming inputs *)

Lemma rewire_id (n : Node) : rewire id n = n.
Proof. destruct n. unfold rewire, set_inputs. simpl. by rewrite list_fmap_id. Qed.

Lemma rewire_compose (r1 r2 : Value -> Value) (n : Node) :
  rewire r2 (rewire r1 n) = rewire (r2 ∘ r1) n.
Proof. unfold rewire, set_inputs. simpl. by rewrite <- list_fmap_compose. Qed.

Lemma map_nodes_rewire_id (g : Graph) : map_nodes (rewire id) g = g.
Proof.
  destruct g. unfold map_nodes. simpl. rewrite !rewire_id. f_equal.
  rewrite <- (list_fmap_id nodes0) at 2. apply list_fmap_ext.
  intros _ n _. apply rewire_id.
Qed.

Lemma map_nodes_rewire_compose (r1 r2 : Value -> Value) (g : Graph) :
  map_nodes (rewire r2) (map_nodes (rewire r1) g) = map_nodes (rewire (r2 ∘ r1)) g.
Proof.
  unfold map_nodes. simpl. rewrite !rewire_compose. f_equal.
  rewrite <- list_fmap_compose. apply list_fmap_ext.
  intros _ n _. apply rewire_compose.
Qed.

Lemma Value_replaceAllUsesWith_rewire (g : Graph) (old new : Value) :
  Value_replaceAllUsesWith g old new = map_nodes (rewire (rename_value old new)) g.
Proof. reflexivity. Qed.

Lemma foldl_replaceAllUsesWith_rewire (a b : nat -> Value) (l : list nat) (g : Graph) :
  exists r, foldl (fun g i => Value_replaceAllUsesWith g (a i) (b i)) g l
            = map_nodes (rewire r) g.
Proof.
  revert g. induction l as [|i l IH]; intros g; simpl.
  - exists id. by rewrite map_nodes_rewire_id.
  - destruct (IH (Value_replaceAllUsesWith g (a i) (b i))) as [r Hr].
    exists (r ∘ rename_value (a i) (b i)).
    by rewrite Hr, Value_replaceAllUsesWith_rewire, map_nodes_rewire_compose.
Qed.

Lemma Node_replaceAllUsesWith_rewire (g g' : Graph) (n m : Node) :
  Node_replaceAllUsesWith g n m = Ok g' ->
  exists r, g' = map_nodes (rewire r) g.
Proof.
  unfold Node_replaceAllUsesWith. destruct (JIT_ASSERT _); [|done]. simpl.
  intros [= <-].
  apply (foldl_replaceAllUsesWith_rewire
           (fun i => mkValue (unique n) i) (fun i => mkValue (unique m) i)).
Qed.

Lemma passed_over_rewire (r : Value -> Value) (n : Node) :
  passed_over (rewire r n) <-> passed_over n.
Proof. done. Qed.

Lemma all_nodes_map_nodes (f : Node -> Node) (g : Graph) :
  all_nodes (map_nodes f g) = f <$> all_nodes g.
Proof. unfold all_nodes, map_nodes. simpl. by rewrite fmap_app. Qed.

Lemma unique_rewire_fmap (r : Value -> Value) (l : list Node) :
  unique <$> (rewire r <$> l) = unique <$> l.
Proof. rewrite <- list_fmap_compose. by apply list_fmap_ext. Qed.

Lemma graph_ok_rewire (r : Value -> Value) (g : Graph) :
  graph_ok g -> graph_ok (map_nodes (rewire r) g).
Proof. unfold graph_ok. by rewrite all_nodes_map_nodes, unique_rewire_fmap. Qed.

(** *** Removing a node *)

Lemma filter_all {A} (P : A -> Prop) `{!forall x, Decision (P x)} (l : list A) :
  Forall P l -> filter P l = l.
Proof.
  induction 1 as [|x l Hx _ IH]; [done|].
  by rewrite filter_cons_True, IH.
Qed.

Lemma filter_out_middle (done rest : list Node) (n : Node) :
  NoDup (unique <$> (done ++ n :: rest)) ->
  filter (fun m => unique m <> unique n) (done ++ n :: rest) = done ++ rest.
Proof.
  intros Hnd. rewrite fmap_app, fmap_cons in Hnd.
  apply NoDup_app in Hnd as (_ & Hdone & Hrest).
  apply NoDup_cons in Hrest as [Hn _].
  rewrite filter_app, filter_cons_False by (intros H; by apply H).
  rewrite !filter_all; [done| |].
  - apply Forall_forall. intros m Hm Heq. apply Hn. rewrite <- Heq.
    by apply list_elem_of_fmap_2.
  - apply Forall_forall. intros m Hm Heq. apply (Hdone (unique n)).
    + rewrite <- Heq. by apply list_elem_of_fmap_2.
    + set_solver.
Qed.

Lemma destroy_Ok (g g' : Graph) (id : nat) :
  destroy g id = Ok g' ->
  g' = set_nodes (filter (fun m => unique m <> id) (nodes g)) g.
Proof.
  unfold destroy. destruct (node_at g id); [|done]. simpl.
  destruct (JIT_ASSERT _); [|done]. simpl. by intros [= <-].
Qed.

Lemma graph_ok_remove (g : Graph) (done rest : list Node) (n : Node) :
  nodes g = done ++ n :: rest -> graph_ok g ->
  graph_ok (set_nodes (done ++ rest) g).
Proof.
  unfold graph_ok, all_nodes, set_nodes. cbn [nodes input_ output_]. intros ->.
  rewrite !fmap_cons, !fmap_app, !fmap_cons.
  intros Hnd. apply NoDup_cons in Hnd as [Hin Hnd]. apply NoDup_cons. split.
  - intros H. apply Hin. set_solver.
  - rewrite <- app_assoc in Hnd. apply NoDup_app in Hnd as (Hd & Hdr & Hr).
    rewrite <- app_assoc. apply NoDup_app. split; [done|]. split.
    + intros x Hx Hx'. apply (Hdr x Hx). set_solver.
    + by apply NoDup_cons in Hr as [_ Hr].
Qed.

(** *** What [eliminateNopTranspose] does at one node *)

Lemma eliminateNopTranspose_body_passed (g : Graph) (n : Node) :
  node_at g (unique n) = Ok n -> passed_over n ->
  eliminateNopTranspose_body g (unique n) = Ok (g, Some (unique n)).
Proof.
  intros Hat Hp. unfold eliminateNopTranspose_body. rewrite Hat. simpl.
  case_bool_decide as Hk; simpl; [|done].
  destruct Hp as [Hp|(perm & Hperm & Hnop)]; [done|].
  unfold Node_is. rewrite Hperm. simpl. by rewrite Hnop.
Qed.

Lemma eliminateNopTranspose_body_Ok (g g' : Graph) (n : Node) (it' : iterator) :
  node_at g (unique n) = Ok n ->
  eliminateNopTranspose_body g (unique n) = Ok (g', it') ->
  (passed_over n /\ g' = g /\ it' = Some (unique n))
  \/ (is_nop_transpose n = true /\ exists r,
        g' = set_nodes (filter (fun m => unique m <> unique n) (rewire r <$> nodes g))
               (map_nodes (rewire r) g)
        /\ pred_in (rewire r <$> nodes g) (unique n) None = Ok it').
Proof.
  intros Hat. unfold eliminateNopTranspose_body. rewrite Hat. simpl.
  unfold passed_over, is_nop_transpose.
  case_bool_decide as Hk; simpl; [|intros [= <- <-]; by left; auto].
  unfold Node_is. destruct (attrs n !! attr_perm) as [[ | perm | | ]|]; try done.
  simpl. destruct (isNopTranspose perm) eqn:Hnop; simpl.
  2:{ intros [= <- <-]. left. split; [|done]. right. by exists perm. }
  destruct (Node_input n) as [v|]; [|done]. simpl.
  destruct (Value_node g v) as [m|]; [|done]. simpl.
  destruct (Node_replaceAllUsesWith g n m) as [g1|] eqn:Hrep; [|done]. simpl.
  apply Node_replaceAllUsesWith_rewire in Hrep as [r ->].
  unfold destroyCurrent.
  destruct (pred_in _ _ _) as [it1|] eqn:Hpred; [|done]. simpl.
  destruct (destroy _ _) as [g2|] eqn:Hd; [|done]. simpl.
  intros [= <- <-]. right. split; [done|]. exists r. split; [|done].
  by apply destroy_Ok in Hd.
Qed.

(** *** The run of [eliminateNopTranspose] *)

Lemma eliminateNopTranspose_run (fuel : nat) :
  forall (g g' : Graph) (done todo : list Node),
  nodes g = done ++ todo -> graph_ok g -> Forall passed_over done ->
  for_nodes fuel eliminateNopTranspose_body g (unique <$> head todo) = Ok g' ->
  graph_ok g' /\ Forall passed_over (nodes g').
Proof.
  induction fuel as [|fuel IH]; intros g g' done todo Hn Hok Hdone Hrun.
  - destruct todo as [|n rest]; simpl in Hrun; [|done].
    injection Hrun as <-. rewrite Hn, app_nil_r. done.
  - destruct todo as [|n rest]; simpl in Hrun.
    { injection Hrun as <-. rewrite Hn, app_nil_r. done. }
    assert (Hat : node_at g (unique n) = Ok n).
    { apply node_at_elem; [done|]. apply elem_of_all_nodes. rewrite Hn. set_solver. }
    destruct (eliminateNopTranspose_body g (unique n)) as [[g1 it1]|] eqn:Hbody;
      [|done].
    simpl in Hrun.
    pose proof (graph_ok_nodes _ Hok) as Hnd. rewrite Hn in Hnd.
    apply eliminateNopTranspose_body_Ok in Hbody
      as [(Hp & -> & ->)|(_ & r & -> & Hpred)]; [| |done].
    + simpl in Hrun. rewrite Hn, succ_in_middle in Hrun by done. simpl in Hrun.
      apply (IH g g' (done ++ [n]) rest); [|done| |done].
      * by rewrite <- app_assoc.
      * apply Forall_app. split; [done|]. by apply Forall_singleton.
    + rewrite Hn in Hpred, Hrun.
      rewrite fmap_app, fmap_cons in Hpred, Hrun.
      assert (Hnd' : NoDup (unique <$> (rewire r <$> done) ++ rewire r n
                                        :: (rewire r <$> rest))).
      { rewrite <- fmap_cons, <- fmap_app. by rewrite unique_rewire_fmap. }
      change (unique n) with (unique (rewire r n)) in Hpred, Hrun.
      rewrite pred_in_middle in Hpred by done. injection Hpred as <-.
      replace (from_option Some None (unique <$> last (rewire r <$> done)))
        with (unique <$> last (rewire r <$> done)) in Hrun
        by by destruct (last (rewire r <$> done)).
      rewrite filter_out_middle in Hrun by done. simpl in Hrun.
      set (g1 := set_nodes ((rewire r <$> done) ++ (rewire r <$> rest))
                   (map_nodes (rewire r) g)) in *.
      assert (Hok1 : graph_ok g1).
      { apply (graph_ok_remove (map_nodes (rewire r) g) _ _ (rewire r n)).
        - simpl. by rewrite Hn, fmap_app, fmap_cons.
        - by apply graph_ok_rewire. }
      rewrite (it_next_after_removal g1 (rewire r <$> done) (rewire r <$> rest))
        in Hrun; [|done|by apply graph_ok_nodes].
      simpl in Hrun.
      apply (IH g1 g' (rewire r <$> done) (rewire r <$> rest)); [done|done| |done].
      apply Forall_fmap. eapply Forall_impl; [exact Hdone|].
      intros m Hm. by apply passed_over_rewire.
Qed.

Lemma eliminateNopTranspose_quiet (todo : list Node) :
  forall (g : Graph) (done : list Node) (fuel : nat),
  nodes g = done ++ todo -> graph_ok g -> Forall passed_over todo ->
  (length todo <= fuel)%nat ->
  for_nodes fuel eliminateNopTranspose_body g (unique <$> head todo) = Ok g.
Proof.
  induction todo as [|n rest IH]; intros g done fuel Hn Hok Hq Hfuel.
  - by destruct fuel.
  - destruct fuel as [|fuel]; [simpl in Hfuel; lia|]. simpl.
    apply Forall_cons in Hq as [Hp Hq].
    rewrite eliminateNopTranspose_body_passed; [|  |done].
    2:{ apply node_at_elem; [done|]. apply elem_of_all_nodes. rewrite Hn. set_solver. }
    simpl. pose proof (graph_ok_nodes _ Hok) as Hnd. rewrite Hn in Hnd.
    rewrite Hn, succ_in_middle by done. simpl.
    apply (IH g (done ++ [n]) fuel); [|done|done|simpl in Hfuel; lia].
    by rewrite <- app_assoc.
Qed.

(** C9.  No-op transpose elimination is idempotent: on the graph a first
    run returns, a second run returns that same graph (nothing more is
    deleted, nothing is rewired). *)
Theorem eliminateNopTranspose_idempotent (g g' : Graph) :
  graph_ok g ->
  eliminateNopTranspose g = Ok g' ->
  eliminateNopTranspose g' = Ok g'.
Proof.
  intros Hok Hrun.
  unfold eliminateNopTranspose, it_next in *. cbn [mbind outcome_bind] in *.
  apply (eliminateNopTranspose_run _ g g' [] (nodes g)) in Hrun as [Hok' Hq];
    [|done..].
  apply (eliminateNopTranspose_quiet (nodes g') g' []); [done..|lia].
Qed.

(** *** Updating one node *)

Lemma all_nodes_update_node (id : nat) (f : Node -> Node) (g : Graph) :
  all_nodes (update_node id f g) = only_at id f <$> all_nodes g.
Proof. apply all_nodes_map_nodes. Qed.

Lemma unique_only_at (id : nat) (f : Node -> Node) (n : Node) :
  (forall n, unique (f n) = unique n) -> unique (only_at id f n) = unique n.
Proof. intros Hf. unfold only_at. by destruct (has_unique id n). Qed.

Lemma graph_ok_update_node (id : nat) (f : Node -> Node) (g : Graph) :
  (forall n, unique (f n) = unique n) ->
  graph_ok g -> graph_ok (update_node id f g).
Proof.
  intros Hf. unfold graph_ok. rewrite all_nodes_update_node.
  rewrite <- list_fmap_compose.
  assert (Heq : (unique ∘ only_at id f <$> all_nodes g) = unique <$> all_nodes g);
    [|by rewrite Heq].
  apply list_fmap_ext. intros _ n _. simpl. by apply unique_only_at.
Qed.

Lemma node_at_update_node (id id' : nat) (f : Node -> Node) (g : Graph) (n : Node) :
  (forall n, unique (f n) = unique n) ->
  graph_ok g -> node_at g id = Ok n ->
  node_at (update_node id' f g) id = Ok (only_at id' f n).
Proof.
  intros Hf Hok Hat. apply node_at_Ok in Hat as [Hin <-].
  rewrite <- (unique_only_at id' f n Hf). apply node_at_elem.
  - by apply graph_ok_update_node.
  - rewrite all_nodes_update_node. by apply list_elem_of_fmap_2.
Qed.

Lemma update_node_compose (id : nat) (f1 f2 : Node -> Node) (g : Graph) :
  (forall n, unique (f1 n) = unique n) ->
  update_node id f2 (update_node id f1 g) = update_node id (f2 ∘ f1) g.
Proof.
  intros Hf. unfold update_node, map_nodes. simpl.
  assert (Hh : forall n, only_at id f2 (only_at id f1 n) = only_at id (f2 ∘ f1) n).
  { intros n. unfold only_at. destruct (has_unique id n) eqn:Hn; [|by rewrite Hn].
    unfold has_unique in *. by rewrite Hf, Hn. }
  rewrite !Hh. f_equal. rewrite <- list_fmap_compose.
  apply list_fmap_ext. intros _ n _. apply Hh.
Qed.

Lemma setAttribute_Ok (g : Graph) (n : Node) (name : string) (a : AttributeValue) :
  node_at g (unique n) = Ok n ->
  setAttribute g (unique n) name a = Ok (update_node (unique n) (set_attr name a) g).
Proof. intros Hat. unfold setAttribute. by rewrite Hat. Qed.

Lemma replaceInput_Ok (g : Graph) (n : Node) (i : nat) (new : Value) :
  node_at g (unique n) = Ok n -> (i < length (inputs n))%nat ->
  replaceInput g (unique n) i new
  = Ok (update_node (unique n) (fun n => set_inputs (<[i := new]> (inputs n)) n) g).
Proof.
  intros Hat Hi. unfold replaceInput. rewrite Hat. simpl.
  by rewrite bool_decide_eq_true_2.
Qed.

Lemma destroy_unused (g : Graph) (n : Node) :
  node_at g (unique n) = Ok n -> Node_hasUses g n = false ->
  destroy g (unique n)
  = Ok (set_nodes (filter (fun m => unique m <> unique n) (nodes g)) g).
Proof. intros Hat Hu. unfold destroy. rewrite Hat. simpl. by rewrite Hu. Qed.

(** *** What [fuseConsecutiveTransposes] does at one node *)


(** *** What [fuseConsecutiveTransposes] does at one node *)

Lemma in_nodes_node_at (g : Graph) (n : Node) :
  graph_ok g -> n ∈ nodes g -> node_at g (unique n) = Ok n.
Proof. intros Hok Hin. apply node_at_elem; [done|]. by apply elem_of_all_nodes. Qed.

Lemma only_at_other (id : nat) (f : Node -> Node) (n : Node) :
  unique n <> id -> only_at id f n = n.
Proof. intros H. unfold only_at, has_unique. by rewrite bool_decide_eq_false_2. Qed.

Lemma only_at_same (f : Node -> Node) (n : Node) :
  only_at (unique n) f n = f n.
Proof. unfold only_at, has_unique. by rewrite bool_decide_eq_true_2. Qed.

Lemma Node_hasUses_single (g : Graph) (n : Node) (ty : option (list Z)) :
  output_types n = [ty] ->
  Node_hasUses g n = negb (bool_decide (uses g (mkValue (unique n) 0) = [])).
Proof.
  intros Hty. unfold Node_hasUses, Value_hasUses. rewrite Hty. simpl.
  by rewrite orb_false_r.
Qed.

(** C5.  At a transpose whose input is produced by another transpose, the
    fusion gives the outer transpose the permutation [i |-> outer[inner[i]]]
    and the inner transpose's input, and deletes the inner transpose when,
    and only when, its output is then left without uses.  The chained
    permutations [1,0,2] and [0,2,1] collapse to the single [2,0,1]. *)
Theorem fuseConsecutiveTransposes_fuses
    (g : Graph) (n inner : Node) (w : Value) (ty : option (list Z))
    (inner_perm outer_perm : list Z) :
  graph_ok g ->
  n ∈ nodes g -> inner ∈ nodes g -> unique inner <> unique n ->
  kind n = onnx_Transpose -> kind inner = onnx_Transpose ->
  inputs n = [mkValue (unique inner) 0] ->
  output_types inner = [ty] -> inputs inner = [w] ->
  attrs inner !! attr_perm = Some (IntsAttr inner_perm) ->
  attrs n !! attr_perm = Some (IntsAttr outer_perm) ->
  is_permutation inner_perm -> is_permutation outer_perm ->
  length inner_perm = length outer_perm ->
  let fused :=
    update_node (unique n)
      (fused_transpose (compose_pointwise inner_perm outer_perm) w) g in
  fuseConsecutiveTransposes_body g (unique n)
  = Ok (if decide (uses fused (mkValue (unique inner) 0) = [])
        then without_node (unique inner) fused
        else fused)
  /\ fuseConsecutiveTransposes two_transposes = Ok two_transposes_fused.
Proof.
  intros Hok Hn Hinner Hne Hkn Hki Hin Hty Hiin Hpi Hpn Hp1 Hp2 Hlen fused.
  split; [|by vm_compute].
  pose proof (in_nodes_node_at _ _ Hok Hn) as Hat.
  pose proof (in_nodes_node_at _ _ Hok Hinner) as Hati.
  unfold fuseConsecutiveTransposes_body. rewrite Hat. cbn [mbind outcome_bind].
  rewrite Hkn, bool_decide_eq_true_2 by done. cbn [negb].
  assert (Hni : Node_input n = Ok (mkValue (unique inner) 0))
    by (unfold Node_input; by rewrite Hin).
  assert (Hnii : Node_input inner = Ok w)
    by (unfold Node_input; by rewrite Hiin).
  rewrite Hni. cbn [mbind outcome_bind].
  unfold Value_node. cbn [producer]. rewrite Hati. cbn [mbind outcome_bind].
  rewrite Hki, bool_decide_eq_true_2 by done. cbn [negb].
  unfold Node_is. rewrite Hpi, Hpn. cbn [mbind outcome_bind].
  apply is_permutation_in_range in Hp1, Hp2.
  rewrite composeTransposes_pointwise; [|done| |done].
  2:{ replace (size outer_perm) with (size inner_perm); [done|].
      unfold size. by rewrite Hlen. }
  cbn [mbind outcome_bind].
  rewrite setAttribute_Ok by done. cbn [mbind outcome_bind].
  rewrite Hnii. cbn [mbind outcome_bind].
  set (perm := compose_pointwise inner_perm outer_perm) in *.
  assert (Hu : forall m, unique (set_attr attr_perm (IntsAttr perm) m) = unique m)
    by done.
  pose proof (node_at_update_node _ (unique n) _ g n Hu Hok Hat) as Hat1.
  rewrite only_at_same in Hat1.
  change (unique n) with (unique (set_attr attr_perm (IntsAttr perm) n)) at 2.
  rewrite replaceInput_Ok; [|exact Hat1|simpl; rewrite Hin; simpl; lia].
  cbn [mbind outcome_bind unique set_attr].
  rewrite update_node_compose by done.
  assert (Hfused : update_node (unique n)
             ((fun n0 => set_inputs (<[0%nat := w]> (inputs n0)) n0)
                ∘ set_attr attr_perm (IntsAttr perm)) g = fused).
  { unfold fused, update_node, map_nodes.
    assert (Hh : forall m, m ∈ all_nodes g ->
      only_at (unique n) ((fun n0 => set_inputs (<[0%nat := w]> (inputs n0)) n0)
                            ∘ set_attr attr_perm (IntsAttr perm)) m
      = only_at (unique n) (fused_transpose perm w) m).
    { intros m Hm. unfold only_at, has_unique. case_bool_decide as Hid; [|done].
      assert (m = n) as ->.
      { pose proof (node_at_elem g m Hok Hm) as Hm'. rewrite Hid, Hat in Hm'.
        by injection Hm'. }
      unfold fused_transpose. simpl. by rewrite Hin. }
    f_equal.
    - apply Hh. unfold all_nodes. set_solver.
    - apply list_fmap_ext. intros i m Hm. apply Hh. apply elem_of_all_nodes.
      by eapply list_elem_of_lookup_2.
    - apply Hh. unfold all_nodes. set_solver. }
  rewrite Hfused.
  assert (Hok1 : graph_ok fused).
  { apply graph_ok_update_node; [done|exact Hok]. }
  assert (Hati1 : node_at fused (unique inner) = Ok inner).
  { unfold fused. erewrite node_at_update_node; [|done|exact Hok|exact Hati].
    by rewrite only_at_other. }
  destruct (decide (uses fused (mkValue (unique inner) 0) = [])) as [He|He].
  - rewrite He. simpl. rewrite destroy_unused; [done|done|].
    by rewrite (Node_hasUses_single _ _ ty), He.
  - rewrite bool_decide_eq_false_2; [done|].
    intros Hl. apply He. by apply nil_length_inv.
Qed.

(** *** [fuseBroadcast] and absent tensor types *)

(** C2 (as the code has it).  At a fusion candidate whose last input is
    produced by an expand, when the expand's input carries no tensor type
    the pass leaves the candidate and the graph as they are, and signals
    nothing. *)
Theorem fuseBroadcast_skips_untyped_input
    (g : Graph) (n expanded_rhs : Node) (rhs unexpanded_rhs : Value) :
  graph_ok g -> n ∈ nodes g -> fusion_candidate n ->
  last (inputs n) = Some rhs ->
  Value_node g rhs = Ok expanded_rhs -> kind expanded_rhs = aten_expand ->
  Node_input expanded_rhs = Ok unexpanded_rhs ->
  Value_type g unexpanded_rhs = Ok None ->
  fuseBroadcast_body g (unique n) = Ok g.
Proof.
  intros Hok Hn (Hb & Hal & Hax) Hlast Hprod Hkind Hinp Hty.
  unfold fuseBroadcast_body.
  rewrite (in_nodes_node_at _ _ Hok Hn). cbn [mbind outcome_bind].
  rewrite Hb, Hal. cbn [negb mbind outcome_bind].
  rewrite Hax. cbn [negb JIT_ASSERT mbind outcome_bind].
  assert (Hrhs : Node_inputs_at n (length (inputs n) - 1) = Ok rhs).
  { unfold Node_inputs_at. rewrite last_lookup in Hlast.
    replace (length (inputs n) - 1)%nat with (pred (length (inputs n))) by lia.
    by rewrite Hlast. }
  rewrite Hrhs. cbn [mbind outcome_bind].
  rewrite Hprod. cbn [mbind outcome_bind].
  rewrite Hkind, bool_decide_eq_true_2 by done. cbn [negb].
  rewrite Hinp. cbn [mbind outcome_bind].
  unfold Value_isTensor. rewrite Hty. cbn [mbind outcome_bind].
  rewrite bool_decide_eq_false_2; [done|]. by intros [? ?].
Qed.

Lemma expand_then_add_ok (a b : option (list Z)) : graph_ok (expand_then_add a b).
Proof.
  unfold graph_ok. simpl. repeat (apply NoDup_cons; split; [set_solver|]).
  apply NoDup_nil_2.
Qed.

Lemma fuseBroadcast_skips_untyped_input_witness :
  fuseBroadcast_body (expand_then_add None (Some [2; 3])) 2
  = Ok (expand_then_add None (Some [2; 3])).
Proof.
  apply (fuseBroadcast_skips_untyped_input
           (expand_then_add None (Some [2; 3]))
           (mkNode 2 onnx_Add [mkValue 0 0; mkValue 1 0] [None] ∅)
           (mkNode 1 aten_expand [mkValue 0 1] [Some [2; 3]] ∅)
           (mkValue 1 0) (mkValue 0 1)).
  - apply expand_then_add_ok.
  - simpl. set_solver.
  - by repeat split.
  - reflexivity.
  - reflexivity.
  - reflexivity.
  - reflexivity.
  - reflexivity.
Defined.

(** C2 (as stated) fails: when the expand's input is typed and its output
    is not, the pass does not skip the candidate; the output's type is
    read by the checked cast, and the run ends on that check. *)
Lemma fuseBroadcast_untyped_output_fails :
  fusion_candidate (mkNode 2 onnx_Add [mkValue 0 0; mkValue 1 0] [None] ∅)
  /\ Value_type (expand_then_add (Some [3]) None) (mkValue 1 0) = Ok None
  /\ fuseBroadcast_body (expand_then_add (Some [3]) None) 2 = Err AssertFailed
  /\ fuseBroadcast (expand_then_add (Some [3]) None) = Err AssertFailed.
Proof. by repeat split. Qed.

(** With both types known the same graph is fused. *)
Example fuseBroadcast_typed :
  (g ← fuseBroadcast (expand_then_add (Some [3]) (Some [2; 3]));
   Ok (inputs <$> nodes g, (fun n => attrs n !! attr_broadcast) <$> nodes g))
  = Ok ([[mkValue 0 0; mkValue 0 1]], [Some (IntAttr 1)]).
Proof. by vm_compute. Qed.

(** *** [eliminateNopTranspose] on examples *)

(** C7.  A no-op transpose of a value whose producer has several outputs
    is not eliminated: replacing the transpose (one output) by the
    producer (two outputs) trips the check on the number of outputs, and
    the pass ends there. *)
Lemma eliminateNopTranspose_second_input_fails :
  is_nop_transpose
    (mkNode 1 onnx_Transpose [mkValue 0 1] [None] {[ attr_perm := IntsAttr [0; 1; 2] ]})
  = true
  /\ eliminateNopTranspose nop_transpose_of_second_input = Err AssertFailed.
Proof. by split. Qed.

(** Two no-op transposes in a row are both removed in one run. *)
Example eliminateNopTranspose_in_a_row :
  eliminateNopTranspose nop_transposes_in_a_row = Ok nop_transposes_eliminated.
Proof. by vm_compute. Qed.

(** *** Editing a node at a known place of the list *)

Lemma only_at_fmap_other (id : nat) (f : Node -> Node) (l : list Node) :
  id ∉ unique <$> l -> only_at id f <$> l = l.
Proof.
  intros Hid. rewrite <- (list_fmap_id l) at 2. apply list_fmap_ext.
  intros i m Hm. simpl. apply only_at_other. intros Heq. apply Hid.
  rewrite <- Heq. apply list_elem_of_fmap_2. by eapply list_elem_of_lookup_2.
Qed.

Lemma only_at_fmap_middle (a b : list Node) (m : Node) (f : Node -> Node) :
  NoDup (unique <$> (a ++ m :: b)) ->
  only_at (unique m) f <$> (a ++ m :: b) = a ++ f m :: b.
Proof.
  intros Hnd. rewrite fmap_app, fmap_cons in Hnd.
  apply NoDup_app in Hnd as (_ & Hab & Hb). apply NoDup_cons in Hb as [Hm _].
  rewrite fmap_app, fmap_cons, only_at_same.
  rewrite !only_at_fmap_other; [done|done|].
  intros Hin. apply (Hab _ Hin). set_solver.
Qed.

Lemma update_node_middle (g : Graph) (a b : list Node) (m : Node) (f : Node -> Node) :
  graph_ok g -> nodes g = a ++ m :: b ->
  update_node (unique m) f g = set_nodes (a ++ f m :: b) g.
Proof.
  intros Hok Hn. unfold graph_ok, all_nodes in Hok. rewrite Hn in Hok.
  rewrite fmap_cons, fmap_app in Hok.
  apply NoDup_cons in Hok as [Hin Hok].
  apply NoDup_app in Hok as (Hl & Hlo & _).
  unfold update_node, map_nodes, set_nodes. rewrite Hn. f_equal.
  - apply only_at_other. intros Heq. apply Hin. rewrite Heq.
    apply elem_of_app. left. apply list_elem_of_fmap_2. set_solver.
  - by apply only_at_fmap_middle.
  - apply only_at_other. intros Heq. apply (Hlo (unique m)).
    + apply list_elem_of_fmap_2. set_solver.
    + rewrite <- Heq. set_solver.
Qed.

Lemma insert_before_middle (a b : list Node) (n new : Node) :
  unique n ∉ unique <$> a ->
  insert_before new (unique n) (a ++ n :: b) = Some (a ++ new :: n :: b).
Proof.
  induction a as [|m a IH]; intros Hn; simpl.
  - unfold has_unique. by rewrite bool_decide_eq_true_2.
  - rewrite fmap_cons in Hn. apply not_elem_of_cons in Hn as [Hne Hn].
    unfold has_unique at 1. rewrite bool_decide_eq_false_2 by done.
    by rewrite IH.
Qed.

Lemma insert_after_middle (a b : list Node) (n new : Node) :
  unique n ∉ unique <$> a ->
  insert_after new (unique n) (a ++ n :: b) = Some (a ++ n :: new :: b).
Proof.
  induction a as [|m a IH]; intros Hn; simpl.
  - unfold has_unique. by rewrite bool_decide_eq_true_2.
  - rewrite fmap_cons in Hn. apply not_elem_of_cons in Hn as [Hne Hn].
    unfold has_unique at 1. rewrite bool_decide_eq_false_2 by done.
    by rewrite IH.
Qed.

Lemma NoDup_middle_not_in (a b : list Node) (n : Node) :
  NoDup (unique <$> (a ++ n :: b)) -> unique n ∉ unique <$> a.
Proof.
  rewrite fmap_app, fmap_cons. intros Hnd Hin.
  apply NoDup_app in Hnd as (_ & Hab & _). apply (Hab _ Hin). set_solver.
Qed.

(** *** Fresh ids *)

Lemma fresh_ok_insert (g : Graph) (a b : list Node) (k : NodeKind) (no : nat) :
  fresh_ok g -> nodes g = a ++ b ->
  fresh_ok {| input_ := input_ g;
              nodes := a ++ fresh_node (next_unique g) k no :: b;
              output_ := output_ g;
              next_unique := S (next_unique g) |}.
Proof.
  intros [Hok Hlt] Hn. unfold fresh_ok, graph_ok, all_nodes in *.
  cbn [input_ nodes output_ next_unique]. rewrite Hn in Hok, Hlt.
  assert (Hperm : input_ g :: (a ++ fresh_node (next_unique g) k no :: b) ++ [output_ g]
                  ≡ₚ fresh_node (next_unique g) k no
                       :: input_ g :: (a ++ b) ++ [output_ g]).
  { rewrite <- !app_assoc. simpl. rewrite <- Permutation_middle.
    apply perm_swap. }
  split.
  - rewrite Hperm, fmap_cons. apply NoDup_cons. split; [|done].
    intros Hin. apply list_elem_of_fmap in Hin as (m & Hm & Hin).
    rewrite Forall_forall in Hlt. specialize (Hlt m Hin). simpl in Hm. lia.
  - rewrite Hperm. apply Forall_cons. split; [simpl; lia|].
    eapply Forall_impl; [exact Hlt|]. intros m Hm. simpl in Hm. lia.
Qed.

Lemma fresh_ok_edit (g : Graph) (a b : list Node) (m m' : Node) :
  fresh_ok g -> nodes g = a ++ m :: b -> unique m' = unique m ->
  fresh_ok (set_nodes (a ++ m' :: b) g).
Proof.
  intros [Hok Hlt] Hn Hu. unfold fresh_ok, graph_ok, all_nodes, set_nodes in *.
  cbn [input_ nodes output_ next_unique]. rewrite Hn in Hok, Hlt. split.
  - revert Hok. rewrite !fmap_cons, !fmap_app, !fmap_cons. by rewrite Hu.
  - revert Hlt. rewrite !Forall_cons, !Forall_app, !Forall_cons. by rewrite Hu.
Qed.

(** *** The edits of [fixDefaultRNNState], one by one *)

Lemma create_before_focus (g : Graph) (l post : list Node) (n : Node)
    (k : NodeKind) (no : nat) :
  fresh_ok g -> nodes g = l ++ n :: post ->
  create_before g k no (unique n)
  = Ok ({| input_ := input_ g;
           nodes := (l ++ [fresh_node (next_unique g) k no]) ++ n :: post;
           output_ := output_ g;
           next_unique := S (next_unique g) |},
        fresh_node (next_unique g) k no).
Proof.
  intros [Hok _] Hn. unfold create_before, create, insertBefore.
  cbn [nodes]. rewrite Hn.
  rewrite insert_before_middle.
  2:{ apply (NoDup_middle_not_in _ post). rewrite <- Hn. by apply graph_ok_nodes. }
  cbn [mbind outcome_bind set_nodes input_ output_ next_unique].
  by rewrite <- app_assoc.
Qed.

Lemma fresh_ok_create (g : Graph) (l post : list Node) (n : Node)
    (k : NodeKind) (no : nat) :
  fresh_ok g -> nodes g = l ++ n :: post ->
  fresh_ok {| input_ := input_ g;
              nodes := (l ++ [fresh_node (next_unique g) k no]) ++ n :: post;
              output_ := output_ g;
              next_unique := S (next_unique g) |}.
Proof.
  intros Hf Hn. rewrite <- app_assoc. by apply fresh_ok_insert.
Qed.

Lemma node_at_last (g : Graph) (l post : list Node) (m n : Node) :
  graph_ok g -> nodes g = (l ++ [m]) ++ n :: post -> node_at g (unique m) = Ok m.
Proof.
  intros Hok Hn. apply in_nodes_node_at; [done|]. rewrite Hn. set_solver.
Qed.

Lemma addInput_last (g : Graph) (l post : list Node) (m n : Node) (id : nat) (v : Value) :
  fresh_ok g -> nodes g = (l ++ [m]) ++ n :: post -> unique m = id ->
  addInput g id v
  = Ok (set_nodes ((l ++ [set_inputs (inputs m ++ [v]) m]) ++ n :: post) g).
Proof.
  intros [Hok _] Hn <-. unfold addInput.
  rewrite (node_at_last _ _ _ _ _ Hok Hn). cbn [mbind outcome_bind].
  rewrite <- app_assoc in Hn.
  rewrite (update_node_middle g l (n :: post) m) by done.
  by rewrite <- app_assoc.
Qed.

Lemma setAttribute_last (g : Graph) (l post : list Node) (m n : Node) (id : nat)
    (name : string) (a : AttributeValue) :
  fresh_ok g -> nodes g = (l ++ [m]) ++ n :: post -> unique m = id ->
  setAttribute g id name a
  = Ok (set_nodes ((l ++ [set_attr name a m]) ++ n :: post) g).
Proof.
  intros [Hok _] Hn <-. unfold setAttribute.
  rewrite (node_at_last _ _ _ _ _ Hok Hn). cbn [mbind outcome_bind].
  rewrite <- app_assoc in Hn.
  rewrite (update_node_middle g l (n :: post) m) by done.
  by rewrite <- app_assoc.
Qed.

Lemma fresh_ok_edit_last (g : Graph) (l post : list Node) (m m' n : Node) :
  fresh_ok g -> nodes g = (l ++ [m]) ++ n :: post -> unique m' = unique m ->
  fresh_ok (set_nodes ((l ++ [m']) ++ n :: post) g).
Proof.
  intros Hf Hn Hu. rewrite <- app_assoc in *. by eapply fresh_ok_edit.
Qed.

Lemma replaceInput_focus (g : Graph) (l post : list Node) (n : Node) (i : nat)
    (new : Value) :
  fresh_ok g -> nodes g = l ++ n :: post -> (i < length (inputs n))%nat ->
  replaceInput g (unique n) i new
  = Ok (set_nodes (l ++ set_inputs (<[i := new]> (inputs n)) n :: post) g).
Proof.
  intros [Hok _] Hn Hi.
  rewrite replaceInput_Ok; [|  |done].
  - by rewrite (update_node_middle g l post n).
  - apply in_nodes_node_at; [done|]. rewrite Hn. set_solver.
Qed.

(** *** [fixDefaultRNNState] *)

Ltac edit_create :=
  match goal with
  | Hf : fresh_ok ?g |- context [create_before ?g ?k ?no _] =>
      let H := fresh "Hf" in
      pose proof (fresh_ok_create g _ _ _ k no Hf eq_refl) as H;
      rewrite (create_before_focus g _ _ _ k no Hf eq_refl);
      clear Hf;
      cbn [mbind outcome_bind input_ output_ next_unique nodes] in *
  end.

Ltac edit_last lem :=
  match goal with
  | Hf : fresh_ok ?g |- _ =>
      erewrite (lem g); [|exact Hf|reflexivity|reflexivity];
      cbn [mbind outcome_bind];
      match goal with
      | |- context [set_nodes ?l g] =>
          let H := fresh "Hf" in
          assert (H : fresh_ok (set_nodes l g))
            by (eapply fresh_ok_edit_last; [exact Hf|reflexivity|reflexivity]);
          clear Hf;
          cbn [set_nodes input_ output_ next_unique nodes] in *
      end
  end.

Lemma fixDefaultRNNState_edits
    (g : Graph) (pre post : list Node) (n state_node : Node) (x s : Value)
    (h : Z) (bidirectional : bool) (input_index : nat) :
  fresh_ok g ->
  nodes g = pre ++ n :: post ->
  inputs n !! 0%nat = Some x ->
  inputs n !! input_index = Some s ->
  Value_node g s = Ok state_node ->
  needsFixing g state_node = Ok true ->
  Node_i n attr_hidden_size = Ok h ->
  is_bidirectional n = Ok bidirectional ->
  let filled := with_zero_fill g pre post n input_index x h bidirectional in
  fixDefaultRNNState g (unique n) input_index
  = (if bool_decide (length (uses filled s) = 0%nat)
     then destroy filled (unique state_node)
     else Ok filled)
  /\ fresh_ok filled.
Proof.
  intros Hf Hn Hx Hs Hprod Hfix Hh Hbi filled.
  unfold fixDefaultRNNState.
  rewrite (in_nodes_node_at g n); [|by destruct Hf|rewrite Hn; set_solver].
  cbn [mbind outcome_bind].
  unfold Node_inputs_at. rewrite Hs, Hx. cbn [mbind outcome_bind].
  rewrite Hprod. cbn [mbind outcome_bind].
  rewrite Hfix. cbn [mbind outcome_bind negb].
  rewrite Hh, Hbi.
  destruct g as [pin ns pout K]. cbn [nodes] in Hn. subst ns.
  subst filled. unfold with_zero_fill, zero_fill_subgraph, zero_fill_output.
  cbn [input_ output_ next_unique nodes].
  edit_create. edit_last addInput_last.
  edit_create. edit_last setAttribute_last.
  edit_create. edit_last addInput_last. edit_last addInput_last.
  edit_create. edit_last addInput_last. edit_last setAttribute_last.
  edit_create. edit_last setAttribute_last.
  edit_create. edit_last setAttribute_last.
  edit_create. edit_last addInput_last. edit_last setAttribute_last.
  edit_create. edit_last setAttribute_last.
  edit_last addInput_last. edit_last addInput_last. edit_last addInput_last.
  edit_create. edit_last setAttribute_last. edit_last addInput_last.
  match goal with
  | Hf : fresh_ok ?g |- _ =>
      rewrite (replaceInput_focus g _ _ _ input_index _ Hf eq_refl)
        by (by eapply lookup_lt_Some);
      pose proof (fresh_ok_edit g _ _ n
                    (set_inputs (<[input_index := mkValue (8 + K) 0]> (inputs n)) n)
                    Hf eq_refl eq_refl) as Hfilled
  end.
  cbn [mbind outcome_bind set_nodes input_ output_ next_unique nodes
       fresh_node set_inputs set_attr unique kind inputs output_types attrs
       replicate app] in *.
  rewrite <- !app_assoc in *. by split.
Qed.

(** *** Uses, read off the input slots *)

Lemma elem_of_slots_holding (v : Value) (id k : nat) (l : list Value) (u : Use) :
  u ∈ slots_holding v id k l
  <-> user u = id /\ exists i, use_offset u = (k + i)%nat /\ l !! i = Some v.
Proof.
  revert k. induction l as [|w l IH]; intros k; simpl.
  - split; [by intros H%elem_of_nil|]. by intros (_ & i & _ & ?).
  - rewrite elem_of_app, IH. split.
    + intros [Hu|(Hu & i & Ho & Hi)].
      * destruct (decide (w = v)) as [->|]; [|by apply elem_of_nil in Hu].
        apply list_elem_of_singleton in Hu as ->. simpl. split; [done|].
        exists 0%nat. split; [lia|done].
      * split; [done|]. exists (S i). split; [lia|done].
    + intros (Hu & [|i] & Ho & Hi); simpl in Hi.
      * left. injection Hi as ->. rewrite decide_True by done.
        apply list_elem_of_singleton. destruct u. simpl in *.
        f_equal; [done|lia].
      * right. split; [done|]. exists i. split; [lia|done].
Qed.

Lemma elem_of_uses_in (v : Value) (n : Node) (u : Use) :
  u ∈ uses_in v n <-> user u = unique n /\ inputs n !! use_offset u = Some v.
Proof.
  unfold uses_in. rewrite elem_of_slots_holding. split.
  - intros (Hu & i & Ho & Hi). simpl in Ho. by rewrite Ho.
  - intros [Hu Hi]. split; [done|]. by exists (use_offset u).
Qed.

Lemma elem_of_uses (g : Graph) (v : Value) (u : Use) :
  u ∈ uses g v
  <-> exists n, n ∈ all_nodes g /\ user u = unique n
                /\ inputs n !! use_offset u = Some v.
Proof.
  unfold uses. rewrite list_elem_of_bind. split.
  - intros (n & Hu & Hn). apply elem_of_uses_in in Hu. by exists n.
  - intros (n & Hn & Hu). exists n. split; [|done]. by apply elem_of_uses_in.
Qed.

Lemma uses_nil (g : Graph) (v : Value) :
  uses g v = [] <-> forall n, n ∈ all_nodes g -> v ∉ inputs n.
Proof.
  split.
  - intros He n Hn Hv. apply list_elem_of_lookup in Hv as [i Hi].
    assert (Hu : mkUse (unique n) i ∈ uses g v).
    { apply elem_of_uses. by exists n. }
    rewrite He in Hu. by apply elem_of_nil in Hu.
  - intros Hno. destruct (uses g v) as [|u l] eqn:He; [done|]. exfalso.
    assert (Hu : u ∈ uses g v) by (rewrite He; set_solver).
    apply elem_of_uses in Hu as (n & Hn & _ & Hi).
    apply (Hno n Hn). by eapply list_elem_of_lookup_2.
Qed.

Lemma needsFixing_default_state (g : Graph) (state_node : Node) :
  default_state g state_node -> needsFixing g state_node = Ok true.
Proof.
  unfold needsFixing. intros [Hk|(Hk & c & cn & Hc & Hcn & Hck)].
  - by rewrite bool_decide_eq_true_2.
  - rewrite Hk. rewrite bool_decide_eq_false_2 by done.
    rewrite bool_decide_eq_true_2 by done.
    unfold Node_inputs_at. rewrite Hc. cbn [mbind outcome_bind].
    rewrite Hcn. cbn [mbind outcome_bind]. by rewrite bool_decide_eq_true_2.
Qed.

Lemma elem_of_without_node (id : nat) (g : Graph) (m : Node) :
  m ∈ nodes (without_node id g) <-> m ∈ nodes g /\ unique m <> id.
Proof. unfold without_node, set_nodes. simpl. rewrite list_elem_of_filter. tauto. Qed.

Lemma same_unique_same_node (g : Graph) (m n : Node) :
  graph_ok g -> m ∈ all_nodes g -> n ∈ all_nodes g -> unique m = unique n -> m = n.
Proof.
  intros Hok Hm Hn Hu. pose proof (node_at_elem g m Hok Hm) as H1.
  pose proof (node_at_elem g n Hok Hn) as H2. rewrite Hu, H2 in H1.
  by injection H1.
Qed.

(** One run of [fixDefaultRNNState] at a node whose state input comes
    from a default state. *)
Lemma fixDefaultRNNState_run
    (g : Graph) (pre post : list Node) (n state_node : Node) (x : Value)
    (ty : option (list Z)) (h : Z) (bidirectional : bool) (input_index : nat) :
  let s := mkValue (unique state_node) 0 in
  fresh_ok g ->
  nodes g = pre ++ n :: post ->
  inputs n !! 0%nat = Some x ->
  inputs n !! input_index = Some s ->
  input_index <> 0%nat ->
  state_node ∈ nodes g -> unique state_node <> unique n ->
  output_types state_node = [ty] ->
  default_state g state_node ->
  Node_i n attr_hidden_size = Ok h ->
  is_bidirectional n = Ok bidirectional ->
  let filled := with_zero_fill g pre post n input_index x h bidirectional in
  let rewritten :=
    if decide (uses filled s = []) then without_node (unique state_node) filled
    else filled in
  fixDefaultRNNState g (unique n) input_index = Ok rewritten
  /\ set_inputs (<[input_index := zero_fill_output (next_unique g)]> (inputs n)) n
       ∈ nodes rewritten
  /\ zero_fill_output (next_unique g) <> s
  /\ (uses g s = [mkUse (unique n) input_index] ->
      uses filled s = [] /\ state_node ∉ nodes rewritten)
  /\ (isRNN n = true -> (6 <= length (inputs n))%nat ->
      fixDefaultRnnHiddenState_body g (unique n) = fixDefaultRNNState g (unique n) 5)
  /\ (kind n = onnx_LSTM -> (7 <= length (inputs n))%nat ->
      fixDefaultLstmCellState_body g (unique n) = fixDefaultRNNState g (unique n) 6).
Proof.
  intros s Hf Hn Hx Hs Hidx Hst Hne Hty Hdef Hh Hbi filled rewritten.
  pose proof Hf as [Hok Hlt].
  assert (Hnin : n ∈ nodes g) by (rewrite Hn; apply elem_of_middle).
  pose proof (in_nodes_node_at g n Hok Hnin) as Hat.
  assert (Hprod : Value_node g s = Ok state_node).
  { unfold Value_node. simpl. by apply in_nodes_node_at. }
  destruct (fixDefaultRNNState_edits g pre post n state_node x s h bidirectional
              input_index Hf Hn Hx Hs Hprod (needsFixing_default_state _ _ Hdef)
              Hh Hbi) as [Hrun Hfilled].
  fold filled in Hrun, Hfilled. pose proof Hfilled as [Hokf _].
  assert (Hfresh : zero_fill_output (next_unique g) <> s).
  { unfold zero_fill_output, s. intros [= Heq].
    rewrite Forall_forall in Hlt.
    specialize (Hlt state_node (elem_of_all_nodes _ _ Hst)). lia. }
  assert (Hstf : state_node ∈ nodes filled).
  { unfold filled, with_zero_fill. cbn [nodes]. rewrite Hn in Hst.
    apply elem_of_app in Hst as [Hst|Hst]; [by apply elem_of_app; left|].
    apply elem_of_cons in Hst as [->|Hst]; [done|].
    apply elem_of_app. right. by apply elem_of_after. }
  assert (Hnf : set_inputs (<[input_index := zero_fill_output (next_unique g)]>
                              (inputs n)) n ∈ nodes filled).
  { unfold filled, with_zero_fill. cbn [nodes].
    apply elem_of_app. right. apply elem_of_middle. }
  split; [|split; [|split; [done|split; [|split]]]].
  - rewrite Hrun. unfold rewritten.
    destruct (decide (uses filled s = [])) as [He|He].
    + rewrite He. simpl. rewrite destroy_unused; [done| |].
      * by apply in_nodes_node_at.
      * rewrite (Node_hasUses_single _ _ ty) by done. fold s. by rewrite He.
    + rewrite bool_decide_eq_false_2; [done|].
      intros Hl. apply He. by apply nil_length_inv.
  - unfold rewritten. destruct (decide _); [|done].
    apply elem_of_without_node. split; [done|]. simpl. intros Heq. by apply Hne.
  - intros Huses.
    assert (Hslot : forall m i, m ∈ all_nodes g -> inputs m !! i = Some s ->
                                m = n /\ i = input_index).
    { intros m i Hm Hi.
      assert (Hu : mkUse (unique m) i ∈ uses g s).
      { apply elem_of_uses. by exists m. }
      rewrite Huses in Hu. apply list_elem_of_singleton in Hu.
      injection Hu as Hu ->. split; [|done].
      apply (same_unique_same_node g); [done|done| |done].
      by apply elem_of_all_nodes. }
    assert (Hxs : x <> s).
    { intros ->. destruct (Hslot n 0%nat) as [_ H0]; [|done|done].
      by apply elem_of_all_nodes. }
    assert (Hold : forall m, m ∈ all_nodes g -> m <> n -> s ∉ inputs m).
    { intros m Hm Hmn Hin. apply list_elem_of_lookup in Hin as [i Hi].
      by destruct (Hslot m i Hm Hi). }
    assert (He : uses filled s = []).
    { apply uses_nil. intros m Hm.
      assert (Hbelow : (unique state_node < next_unique g)%nat).
      { rewrite Forall_forall in Hlt. apply Hlt. by apply elem_of_all_nodes. }
      assert (Hnew : forall j, mkValue (j + next_unique g) 0 <> s).
      { intros j [= Heq]. lia. }
      unfold filled, with_zero_fill, all_nodes in Hm. cbn [input_ nodes output_] in Hm.
      apply elem_of_cons in Hm as [->|Hm].
      { apply Hold; [apply input_in_all_nodes|].
        intros Hpn. unfold graph_ok, all_nodes in Hok. rewrite Hpn, Hn in Hok.
        rewrite fmap_cons in Hok. apply NoDup_cons in Hok as [Hok _].
        apply Hok. apply list_elem_of_fmap_2. apply elem_of_app. left.
        apply elem_of_middle. }
      apply elem_of_app in Hm as [Hm|Hm].
      2:{ apply list_elem_of_singleton in Hm as ->.
          apply Hold; [apply output_in_all_nodes|].
          intros Hpn. unfold graph_ok, all_nodes in Hok. rewrite Hpn, Hn in Hok.
          rewrite fmap_cons, fmap_app in Hok. apply NoDup_cons in Hok as [_ Hok].
          apply NoDup_app in Hok as (_ & Hok & _). apply (Hok (unique n)).
          - apply list_elem_of_fmap_2. apply elem_of_middle.
          - apply list_elem_of_fmap_2. apply elem_of_cons. by left. }
      apply elem_of_app in Hm as [Hm|Hm].
      { assert (Hmg : m ∈ nodes g) by (rewrite Hn; by apply elem_of_before).
        apply Hold; [by apply elem_of_all_nodes|]. intros ->.
        apply graph_ok_nodes in Hok. rewrite Hn in Hok.
        apply NoDup_middle_not_in in Hok. apply Hok. by apply list_elem_of_fmap_2. }
      apply elem_of_app in Hm as [Hm|Hm].
      { unfold zero_fill_subgraph in Hm.
        repeat (apply elem_of_cons in Hm as [->|Hm]);
          [..|by apply elem_of_nil in Hm]; cbn [inputs];
          rewrite ?elem_of_cons, ?elem_of_nil;
          pose proof (Hnew 0%nat); pose proof (Hnew 1%nat); pose proof (Hnew 2%nat);
          pose proof (Hnew 3%nat); pose proof (Hnew 4%nat); pose proof (Hnew 5%nat);
          pose proof (Hnew 6%nat); pose proof (Hnew 7%nat);
          cbn [Nat.add] in *; naive_solver. }
      apply elem_of_cons in Hm as [->|Hm].
      { cbn [inputs set_inputs]. intros Hin.
        apply list_elem_of_lookup in Hin as [i Hi].
        destruct (decide (i = input_index)) as [->|Hi'].
        - rewrite list_lookup_insert_eq in Hi by (by eapply lookup_lt_Some).
          apply Hfresh. congruence.
        - rewrite list_lookup_insert_ne in Hi by done.
          destruct (Hslot n i) as [_ ?]; [by apply elem_of_all_nodes|done|done]. }
      assert (Hmg : m ∈ nodes g) by (rewrite Hn; by apply elem_of_after).
      apply Hold; [by apply elem_of_all_nodes|]. intros ->.
      apply graph_ok_nodes in Hok. rewrite Hn, fmap_app, fmap_cons in Hok.
      apply NoDup_app in Hok as (_ & _ & Hok). apply NoDup_cons in Hok as [Hok _].
      apply Hok. by apply list_elem_of_fmap_2. }
    split; [done|]. unfold rewritten. rewrite decide_True by done.
    intros Hin. apply elem_of_without_node in Hin as [_ Hin]. done.
  - intros Hrnn Hlen. unfold fixDefaultRnnHiddenState_body.
    rewrite Hat. cbn [mbind outcome_bind]. rewrite Hrnn. cbn [negb].
    by rewrite bool_decide_eq_false_2 by lia.
  - intros Hk Hlen. unfold fixDefaultLstmCellState_body.
    rewrite Hat. cbn [mbind outcome_bind].
    rewrite bool_decide_eq_true_2 by done. cbn [negb].
    by rewrite bool_decide_eq_false_2 by lia.
Qed.

(** *** Uses under edits of the input slots *)

Lemma slots_holding_ext (v v' : Value) (id : nat) (l l' : list Value) :
  forall k,
  Forall2 (fun w w' => w = v <-> w' = v') l l' ->
  slots_holding v id k l = slots_holding v' id k l'.
Proof.
  intros k H. revert k. induction H as [|w w' l l' Hw _ IH]; intros k; [done|].
  simpl. rewrite IH. f_equal.
  destruct (decide (w = v)) as [Hv|Hv], (decide (w' = v')) as [Hv'|Hv'];
    naive_solver.
Qed.

Lemma uses_in_rewire (r : Value -> Value) (v v' : Value) (m : Node) :
  (forall w, w ∈ inputs m -> (w = v <-> r w = v')) ->
  uses_in v' (rewire r m) = uses_in v m.
Proof.
  intros H. unfold uses_in. cbn [rewire set_inputs unique inputs].
  symmetry. apply slots_holding_ext. apply Forall2_fmap_r, Forall_Forall2_diag.
  by apply Forall_forall.
Qed.

Lemma slots_holding_none (v : Value) (id k : nat) (l : list Value) :
  v ∉ l -> slots_holding v id k l = [].
Proof.
  revert k. induction l as [|w l IH]; intros k Hv; [done|]. simpl.
  apply not_elem_of_cons in Hv as [Hw Hv].
  rewrite decide_False by done. by rewrite IH.
Qed.

Lemma uses_in_none (v : Value) (m : Node) : v ∉ inputs m -> uses_in v m = [].
Proof. apply slots_holding_none. Qed.

Lemma uses_unfold (g : Graph) (v : Value) :
  uses g v
  = uses_in v (input_ g) ++ (nodes g ≫= uses_in v) ++ uses_in v (output_ g).
Proof.
  unfold uses, all_nodes. rewrite bind_cons, bind_app, bind_singleton. done.
Qed.

Lemma bind_uses_in_rewire (r : Value -> Value) (v v' : Value) (l : list Node) :
  (forall m w, m ∈ l -> w ∈ inputs m -> (w = v <-> r w = v')) ->
  (rewire r <$> l) ≫= uses_in v' = l ≫= uses_in v.
Proof.
  intros H. induction l as [|m l IH]; [done|].
  rewrite fmap_cons, !bind_cons, IH.
  - f_equal. apply uses_in_rewire. intros w Hw. apply (H m); [set_solver|done].
  - intros m' w Hm'. apply H. set_solver.
Qed.

Lemma bind_uses_in_nil (v : Value) (l : list Node) :
  l ≫= uses_in v = [] <-> forall m, m ∈ l -> uses_in v m = [].
Proof.
  induction l as [|m l IH]; [by split; [intros _ ? ?%elem_of_nil|]|].
  rewrite bind_cons. split.
  - intros [Hm Hl]%app_eq_nil m' [->|Hm']%elem_of_cons; [done|]. by apply IH.
  - intros H. rewrite (H m) by set_solver. simpl. apply IH.
    intros m' Hm'. apply H. set_solver.
Qed.


(** *** [pushPackingPastRnn] at one packing node *)

Lemma fresh_ok_rewire (r : Value -> Value) (g : Graph) :
  fresh_ok g -> fresh_ok (map_nodes (rewire r) g).
Proof.
  intros [Hok Hlt]. split; [by apply graph_ok_rewire|].
  rewrite all_nodes_map_nodes. apply Forall_fmap.
  eapply Forall_impl; [exact Hlt|]. done.
Qed.

Lemma uses_rewire (r : Value -> Value) (v v' : Value) (g : Graph) :
  (forall m w, m ∈ all_nodes g -> w ∈ inputs m -> (w = v <-> r w = v')) ->
  uses (map_nodes (rewire r) g) v' = uses g v.
Proof.
  intros H. unfold uses. rewrite all_nodes_map_nodes.
  by apply bind_uses_in_rewire.
Qed.

Lemma update_node_at (g : Graph) (a b : list Node) (m : Node) (id : nat)
    (f : Node -> Node) :
  graph_ok g -> nodes g = a ++ m :: b -> unique m = id ->
  update_node id f g = set_nodes (a ++ f m :: b) g.
Proof. intros Hok Hn <-. by apply update_node_middle. Qed.

Lemma insertAfter_at (g : Graph) (a b : list Node) (m new : Node) (id : nat) :
  graph_ok g -> nodes g = a ++ m :: b -> unique m = id ->
  insertAfter g new id = Ok (set_nodes (a ++ m :: new :: b) g).
Proof.
  intros Hok Hn <-. unfold insertAfter. rewrite Hn, insert_after_middle; [done|].
  apply (NoDup_middle_not_in _ b). rewrite <- Hn. by apply graph_ok_nodes.
Qed.

Lemma node_at_in (g : Graph) (a b : list Node) (m : Node) (id : nat) :
  graph_ok g -> nodes g = a ++ m :: b -> unique m = id -> node_at g id = Ok m.
Proof.
  intros Hok Hn <-. apply in_nodes_node_at; [done|]. rewrite Hn. set_solver.
Qed.

Lemma values_below_elem (g : Graph) (m : Node) (w : Value) :
  values_below g -> m ∈ all_nodes g -> w ∈ inputs m ->
  (producer w < next_unique g)%nat.
Proof.
  unfold values_below. rewrite Forall_forall. intros H Hm Hw.
  specialize (H m Hm). rewrite Forall_forall in H. by apply H.
Qed.

Lemma elem_of_insert_inv {A} (l : list A) (i : nat) (x y : A) :
  x ∈ <[i := y]> l -> x = y \/ x ∈ l.
Proof.
  intros Hx. apply list_elem_of_lookup in Hx as [j Hj].
  destruct (decide (i = j)) as [->|Hij].
  - destruct (decide (j < length l)%nat).
    + rewrite list_lookup_insert_eq in Hj by done. left. by injection Hj.
    + rewrite list_insert_ge in Hj by lia. right. by eapply list_elem_of_lookup_2.
  - rewrite list_lookup_insert_ne in Hj by done. right.
    by eapply list_elem_of_lookup_2.
Qed.

Lemma uses_in_rewire_avoids (r : Value -> Value) (v : Value) (m : Node) :
  (forall w, w ∈ inputs m -> r w <> v) -> uses_in v (rewire r m) = [].
Proof.
  intros H. apply uses_in_none. cbn [rewire set_inputs inputs].
  intros Hin. apply list_elem_of_fmap in Hin as (w & -> & Hw). by apply (H w).
Qed.

Lemma bind_uses_in_rewire_avoids (r : Value -> Value) (v : Value) (l : list Node) :
  (forall w, r w <> v) -> (rewire r <$> l) ≫= uses_in v = [].
Proof.
  intros H. apply bind_uses_in_nil. intros m Hm.
  apply list_elem_of_fmap in Hm as (m0 & -> & _).
  apply uses_in_rewire_avoids. auto.
Qed.

Lemma addInput_at (g : Graph) (a b : list Node) (m : Node) (id : nat) (v : Value) :
  graph_ok g -> nodes g = a ++ m :: b -> unique m = id ->
  addInput g id v = Ok (set_nodes (a ++ set_inputs (inputs m ++ [v]) m :: b) g).
Proof.
  intros Hok Hn Hid. unfold addInput.
  rewrite (node_at_in g a b m id) by done. cbn [mbind outcome_bind].
  by rewrite (update_node_at g a b m id).
Qed.

Lemma pushPackingPastRnn_body_run (registered : use_order)
    (g : Graph) (pre mid post : list Node) (n rnn : Node) (in0 in1 : Value)
    (t0 t1 : option (list Z)) (j0 j1 : nat) (rest1 : list Use) :
  fresh_ok g -> values_below g ->
  nodes g = pre ++ n :: mid ++ rnn :: post ->
  kind n = prim_PackPadded -> inputs n = [in0; in1] -> output_types n = [t0; t1] ->
  producer in0 <> unique n -> producer in1 <> unique n ->
  producer in0 <> unique rnn -> producer in1 <> unique rnn ->
  isRNN rnn = true -> output_types rnn <> [] ->
  uses g (mkValue (unique n) 0) = [mkUse (unique rnn) j0] ->
  registered (Value_replaceAllUsesWith g (mkValue (unique n) 0) in0)
    (mkValue (unique n) 1) = mkUse (unique rnn) j1 :: rest1 ->
  pushPackingPastRnn_body registered g (unique n)
  = Ok (packing_pushed g pre mid post n rnn in0 in1 j1, unique <$> last pre).
Proof.
  intros Hf Hvals Hn Hk Hin Hout Hp0n Hp1n Hp0r Hp1r Hrnn Hro Hu0 Hu1.
  pose proof Hf as [Hok Hlt].
  set (out0 := mkValue (unique n) 0) in *.
  set (out1 := mkValue (unique n) 1) in *.
  set (rnn0 := mkValue (unique rnn) 0).
  set (K := next_unique g).
  set (r1 := unpack_input n in0).
  assert (Hnin : n ∈ nodes g) by (rewrite Hn; set_solver).
  assert (Hrin : rnn ∈ nodes g) by (rewrite Hn; set_solver).
  assert (Ho0 : Node_outputs_at n 0 = Ok out0).
  { unfold Node_outputs_at. by rewrite Hout, decide_True by (simpl; lia). }
  assert (Ho1 : Node_outputs_at n 1 = Ok out1).
  { unfold Node_outputs_at. by rewrite Hout, decide_True by (simpl; lia). }
  assert (Hi0 : Node_inputs_at n 0 = Ok in0).
  { unfold Node_inputs_at. by rewrite Hin. }
  assert (Hi1 : Node_inputs_at n 1 = Ok in1).
  { unfold Node_inputs_at. by rewrite Hin. }
  assert (Hr0 : Node_outputs_at rnn 0 = Ok rnn0).
  { unfold Node_outputs_at. rewrite decide_True; [done|].
    destruct (output_types rnn); [done|simpl; lia]. }
  unfold pushPackingPastRnn_body.
  rewrite (in_nodes_node_at g n Hok Hnin). cbn [mbind outcome_bind].
  rewrite Hk, bool_decide_eq_true_2 by done. cbn [negb].
  rewrite Ho0, Ho1, Hi0, Hi1. cbn [mbind outcome_bind]. rewrite Hu0.
  rewrite bool_decide_eq_true_2 by done. cbn [negb mbind outcome_bind user].
  rewrite (in_nodes_node_at g rnn Hok Hrin). cbn [mbind outcome_bind].
  rewrite Hrnn, Hr0. cbn [negb mbind outcome_bind].
  (* the packed data is replaced by the padded input *)
  set (g1 := Value_replaceAllUsesWith g out0 in0) in *.
  assert (Hf1 : fresh_ok g1) by (by apply fresh_ok_rewire).
  assert (Hn1 : nodes g1 = (rewire r1 <$> pre ++ n :: mid) ++ rewire r1 rnn
                             :: (rewire r1 <$> post)).
  { unfold g1, Value_replaceAllUsesWith, map_nodes. cbn [nodes].
    rewrite Hn. change (n :: mid ++ rnn :: post) with ((n :: mid) ++ rnn :: post).
    by rewrite app_assoc, fmap_app, fmap_cons. }
  unfold Value_replaceFirstUseWith. rewrite Hu1. cbn [user use_offset mbind outcome_bind].
  erewrite (update_node_at g1); [|apply Hf1|exact Hn1|reflexivity].
  set (rnn2 := set_inputs (<[j1 := in1]> (inputs (rewire r1 rnn))) (rewire r1 rnn)).
  set (front1 := rewire r1 <$> pre ++ n :: mid) in *.
  set (post1 := rewire r1 <$> post) in *.
  set (g2 := set_nodes (front1 ++ rnn2 :: post1) g1).
  assert (Hf2 : fresh_ok g2) by (by eapply fresh_ok_edit).
  (* the new packing node *)
  unfold create. cbn [nodes set_nodes input_ output_ next_unique].
  change (next_unique g2) with K.
  set (new := fresh_node K prim_PackPadded 2).
  set (g3 := {| input_ := input_ g1; nodes := front1 ++ rnn2 :: post1;
                output_ := output_ g1; next_unique := S K |}).
  erewrite (insertAfter_at g3 front1 post1 rnn2 new);
    [|exact (proj1 Hf2)|reflexivity|reflexivity].
  cbn [mbind outcome_bind].
  set (g4 := set_nodes (front1 ++ rnn2 :: new :: post1) g3).
  assert (Hf4 : fresh_ok g4).
  { pose proof (fresh_ok_insert g2 (front1 ++ [rnn2]) post1 prim_PackPadded 2 Hf2)
      as H.
    rewrite <- app_assoc in H. specialize (H eq_refl).
    rewrite <- app_assoc in H. exact H. }
  change (Node_outputs_at new 0) with (Ok (A:=Value) (mkValue K 0)).
  change (Node_outputs_at new 1) with (Ok (A:=Value) (mkValue K 1)).
  cbn [mbind outcome_bind].
  (* consumers read the new packing node *)
  rewrite !Value_replaceAllUsesWith_rewire, map_nodes_rewire_compose.
  change (rename_value out1 (mkValue K 1) ∘ rename_value rnn0 (mkValue K 0))
    with (repack_outputs n rnn K).
  set (r2 := repack_outputs n rnn K).
  set (g6 := map_nodes (rewire r2) g4).
  assert (Hf6 : fresh_ok g6) by (by apply fresh_ok_rewire).
  set (front6 := rewire r2 <$> front1).
  set (post6 := rewire r2 <$> post1).
  assert (Hn6 : nodes g6 = (front6 ++ [rewire r2 rnn2]) ++ rewire r2 new :: post6).
  { unfold g6, g4, map_nodes, set_nodes. cbn [nodes].
    by rewrite fmap_app, !fmap_cons, <- app_assoc. }
  (* the inputs of the new packing node *)
  erewrite (addInput_at g6); [|apply Hf6|exact Hn6|reflexivity].
  cbn [mbind outcome_bind].
  set (new7 := set_inputs (inputs (rewire r2 new) ++ [rnn0]) (rewire r2 new)).
  set (g7 := set_nodes ((front6 ++ [rewire r2 rnn2]) ++ new7 :: post6) g6).
  assert (Hf7 : fresh_ok g7) by (by eapply fresh_ok_edit).
  erewrite (addInput_at g7); [|apply Hf7|reflexivity|reflexivity].
  cbn [mbind outcome_bind].
  set (new8 := set_inputs (inputs new7 ++ [in1]) new7).
  set (g8 := set_nodes ((front6 ++ [rewire r2 rnn2]) ++ new8 :: post6) g7).
  assert (Hf8 : fresh_ok g8) by (by eapply fresh_ok_edit).
  (* the old packing node goes *)
  set (r := r2 ∘ r1).
  assert (Hn8 : nodes g8 = (rewire r <$> pre) ++ rewire r n
                  :: (rewire r <$> mid) ++ rewire r2 rnn2 :: new8
                  :: (rewire r <$> post)).
  { unfold g8, set_nodes. cbn [nodes]. unfold front6, front1, post6, post1.
    rewrite <- !list_fmap_compose, fmap_app, fmap_cons, <- !app_assoc.
    cbn [app]. unfold r.
    assert (Hc : forall l : list Node,
      (rewire r2 ∘ rewire r1) <$> l = rewire (r2 ∘ r1) <$> l).
    { intros l. apply list_fmap_ext. intros _ m _. apply rewire_compose. }
    rewrite !Hc. simpl. by rewrite rewire_compose. }
  assert (HnK : (unique n < K)%nat).
  { rewrite Forall_forall in Hlt. apply Hlt. by apply elem_of_all_nodes. }
  assert (HrK : (unique rnn < K)%nat).
  { rewrite Forall_forall in Hlt. apply Hlt. by apply elem_of_all_nodes. }
  assert (Hnr : unique n <> unique rnn).
  { apply graph_ok_nodes in Hok. rewrite Hn in Hok.
    change (n :: mid ++ rnn :: post) with ((n :: mid) ++ rnn :: post) in Hok.
    rewrite app_assoc in Hok. apply NoDup_middle_not_in in Hok.
    intros Heq. apply Hok. rewrite <- Heq. apply list_elem_of_fmap_2. set_solver. }
  assert (Hr2 : forall x, r2 x <> out1 /\ (x <> out0 -> r2 x <> out0)).
  { intros x. unfold r2, repack_outputs, rename_value, out0, out1, rnn0, K in *.
    cbn [compose].
    repeat case_decide; subst; (split; [|intros Hx0]);
      first [done | intros [=]; lia]. }
  assert (Hr1 : forall w, r1 w <> out0).
  { intros w. unfold r1, unpack_input, rename_value. fold out0.
    destruct (decide (w = out0)); [|done]. intros ->. done. }
  assert (Hr : forall w, r w <> out0 /\ r w <> out1).
  { intros w. unfold r. simpl. destruct (Hr2 (r1 w)) as [H1 H0].
    split; [by apply H0|done]. }
  assert (Havoid : forall v, v = out0 \/ v = out1 -> uses g8 v = []).
  { intros v Hv. rewrite uses_unfold, Hn8.
    assert (Hrv : forall w, r w <> v).
    { intros w. destruct (Hr w). by destruct Hv as [->| ->]. }
    assert (Hr2v : forall x, x <> out0 -> r2 x <> v).
    { intros x Hx. destruct (Hr2 x) as [H1 H0]. destruct Hv as [->| ->]; auto. }
    repeat (rewrite bind_app || rewrite bind_cons).
    rewrite !bind_uses_in_rewire_avoids by done.
    change (input_ g8) with (rewire r2 (rewire r1 (input_ g))).
    change (output_ g8) with (rewire r2 (rewire r1 (output_ g))).
    rewrite !rewire_compose. fold r.
    rewrite !(uses_in_rewire_avoids r) by auto.
    rewrite (uses_in_rewire_avoids r2).
    2:{ intros w Hw. apply Hr2v. unfold rnn2 in Hw. cbn [set_inputs inputs] in Hw.
        apply elem_of_insert_inv in Hw as [->|Hw].
        - intros ->. done.
        - cbn [rewire set_inputs inputs] in Hw.
          apply list_elem_of_fmap in Hw as (w0 & -> & _). apply Hr1. }
    rewrite (uses_in_none v new8); [done|].
    unfold new8, new7, new. cbn. rewrite !elem_of_cons, elem_of_nil.
    intros [->|[->|[]]]; destruct Hv as [Hv|Hv];
      try (injection Hv; unfold K in *; lia); subst in1; simpl in *; lia. }
  unfold destroyCurrent. rewrite Hn8.
  pose proof (graph_ok_nodes _ (proj1 Hf8)) as Hnd8. rewrite Hn8 in Hnd8.
  change (unique n) with (unique (rewire r n)).
  rewrite pred_in_middle by done. cbn [mbind outcome_bind].
  rewrite destroy_unused.
  2:{ eapply node_at_in; [apply Hf8|exact Hn8|done]. }
  2:{ unfold Node_hasUses, Value_hasUses. cbn [rewire set_inputs output_types unique].
      rewrite Hout. cbn [length seq existsb]. fold out0 out1.
      by rewrite !Havoid by auto. }
  cbn [mbind outcome_bind]. f_equal. f_equal.
  - rewrite Hn8, filter_out_middle by done.
    unfold packing_pushed, set_nodes. cbn [input_ output_ next_unique].
    fold K r1 r2 r. f_equal.
    + change (input_ g8) with (rewire r2 (rewire r1 (input_ g))).
      apply rewire_compose.
    + change (output_ g8) with (rewire r2 (rewire r1 (output_ g))).
      apply rewire_compose.
  - rewrite fmap_last. by destruct (last pre).
Qed.

Lemma uses_in_insert_other (v y : Value) (m : Node) (j : nat) :
  y <> v -> inputs m !! j <> Some v ->
  uses_in v (set_inputs (<[j := y]> (inputs m)) m) = uses_in v m.
Proof.
  intros Hy Hj. unfold uses_in. cbn [set_inputs unique inputs].
  apply slots_holding_ext. apply Forall2_same_length_lookup. split.
  - by rewrite length_insert.
  - intros i w w' Hw Hw'. destruct (decide (i = j)) as [->|Hij].
    + rewrite list_lookup_insert_eq in Hw by (by eapply lookup_lt_Some).
      injection Hw as <-. split; [done|]. intros ->. done.
    + rewrite list_lookup_insert_ne in Hw by done. rewrite Hw in Hw'.
      by injection Hw' as ->.
Qed.

Lemma pushPackingPastRnn_body_skips (registered : use_order) (g : Graph)
    (n : Node) :
  graph_ok g -> n ∈ nodes g -> kind n = prim_PackPadded ->
  output_types n <> [] ->
  length (uses g (mkValue (unique n) 0)) <> 1%nat ->
  pushPackingPastRnn_body registered g (unique n) = Ok (g, Some (unique n)).
Proof.
  intros Hok Hn Hk Hout Hu. unfold pushPackingPastRnn_body.
  rewrite (in_nodes_node_at g n Hok Hn). cbn [mbind outcome_bind].
  rewrite Hk, bool_decide_eq_true_2 by done. cbn [negb].
  assert (Ho0 : Node_outputs_at n 0 = Ok (mkValue (unique n) 0)).
  { unfold Node_outputs_at. rewrite decide_True; [done|].
    destruct (output_types n) eqn:E; [done|simpl; lia]. }
  rewrite Ho0. cbn [mbind outcome_bind]. by rewrite bool_decide_eq_false_2.
Qed.

Lemma slots_holding_insert_perm (v y : Value) (id : nat) (l : list Value) :
  forall (k j : nat),
  l !! j = Some v -> y <> v ->
  slots_holding v id k l ≡ₚ mkUse id (k + j) :: slots_holding v id k (<[j := y]> l).
Proof.
  induction l as [|w l IH]; intros k j Hj Hy; [done|]. destruct j as [|j].
  - injection Hj as ->. simpl. rewrite decide_True by done.
    rewrite decide_False by done. by rewrite Nat.add_0_r.
  - simpl in Hj. simpl. rewrite (IH (S k) j Hj Hy).
    replace (k + S j)%nat with (S k + j)%nat by lia.
    symmetry. apply Permutation_middle.
Qed.

Lemma Permutation_into_fourth {A} (a : A) (l1 l2 l3 l4 : list A) :
  a :: l1 ++ l2 ++ l3 ++ l4 ≡ₚ l1 ++ l2 ++ l3 ++ a :: l4.
Proof. rewrite !app_assoc. apply Permutation_middle. Qed.

Lemma uses_in_insert_perm (v y : Value) (m : Node) (j : nat) :
  inputs m !! j = Some v -> y <> v ->
  uses_in v m
  ≡ₚ mkUse (unique m) j :: uses_in v (set_inputs (<[j := y]> (inputs m)) m).
Proof.
  intros Hj Hy. unfold uses_in. cbn [set_inputs unique inputs].
  apply (slots_holding_insert_perm v y (unique m) (inputs m) 0 j Hj Hy).
Qed.

(** X21.  What one step of [pushPackingPastRnn] does when the use lists are as
    the comment at the rewrite expects them.  At a packing node [n] whose
    primary output has the recurrent node [rnn] as its one consumer, and
    whose lengths output has a slot of [rnn] as its first use on record
    (read where the code reads it, once the packed data has been replaced),
    the step returns the graph in which [rnn] reads the inputs of [n], a new
    packing node stands right behind [rnn], and [n] is gone.  What read the
    output of [rnn] now reads the primary output of the new packing node;
    the other uses on record of the old lengths output, [rest1], are the
    uses of the new lengths output.  A packing node whose primary output
    has several consumers is left alone. *)
Theorem pushPackingPastRnn_body_pushes (registered : use_order)
    (g : Graph) (pre mid post : list Node) (n rnn : Node) (in0 in1 : Value)
    (t0 t1 : option (list Z)) (j0 j1 : nat) (rest1 : list Use) :
  use_order_ok registered ->
  fresh_ok g -> values_below g ->
  nodes g = pre ++ n :: mid ++ rnn :: post ->
  kind n = prim_PackPadded -> inputs n = [in0; in1] -> output_types n = [t0; t1] ->
  producer in0 <> unique n -> producer in1 <> unique n ->
  producer in0 <> unique rnn -> producer in1 <> unique rnn ->
  isRNN rnn = true -> output_types rnn <> [] ->
  uses g (mkValue (unique n) 0) = [mkUse (unique rnn) j0] ->
  registered (Value_replaceAllUsesWith g (mkValue (unique n) 0) in0)
    (mkValue (unique n) 1) = mkUse (unique rnn) j1 :: rest1 ->
  let g' := packing_pushed g pre mid post n rnn in0 in1 j1 in
  pushPackingPastRnn_body registered g (unique n) = Ok (g', unique <$> last pre)
  /\ (unique n ∉ unique <$> nodes g')
  /\ uses g' (mkValue (next_unique g) 0) = uses g (mkValue (unique rnn) 0)
  /\ uses g (mkValue (unique n) 1) ≡ₚ mkUse (unique rnn) j1 :: rest1
  /\ uses g' (mkValue (next_unique g) 1) ≡ₚ rest1
  /\ (forall (g0 : Graph) (m : Node),
        graph_ok g0 -> m ∈ nodes g0 -> kind m = prim_PackPadded ->
        output_types m <> [] ->
        (1 < length (uses g0 (mkValue (unique m) 0)))%nat ->
        pushPackingPastRnn_body registered g0 (unique m)
        = Ok (g0, Some (unique m))).
Proof.
  intros Hreg Hf Hvals Hn Hk Hin Hout Hp0n Hp1n Hp0r Hp1r Hrnn Hro Hu0 Hu1 g'.
  split; [by eapply pushPackingPastRnn_body_run|].
  pose proof Hf as [Hok Hlt].
  set (out0 := mkValue (unique n) 0) in *.
  set (out1 := mkValue (unique n) 1) in *.
  assert (Hperm : uses g out1 ≡ₚ mkUse (unique rnn) j1 :: rest1).
  { rewrite <- Hu1, (Hreg _ out1).
    assert (uses (Value_replaceAllUsesWith g out0 in0) out1 = uses g out1) as ->;
      [|done].
    apply uses_rewire. intros m w Hm Hw.
    unfold rename_value. destruct (decide (w = out0)) as [->|]; [|done].
    split; [done|]. intros ->. done. }
  set (rnn0 := mkValue (unique rnn) 0).
  set (K := next_unique g).
  assert (Hnin : n ∈ nodes g) by (rewrite Hn; set_solver).
  assert (Hrin : rnn ∈ nodes g) by (rewrite Hn; set_solver).
  assert (HnK : (unique n < K)%nat).
  { rewrite Forall_forall in Hlt. apply Hlt. by apply elem_of_all_nodes. }
  assert (HrK : (unique rnn < K)%nat).
  { rewrite Forall_forall in Hlt. apply Hlt. by apply elem_of_all_nodes. }
  pose proof (graph_ok_nodes _ Hok) as Hnd. rewrite Hn in Hnd.
  assert (Hnr : unique n <> unique rnn).
  { change (n :: mid ++ rnn :: post) with ((n :: mid) ++ rnn :: post) in Hnd.
    rewrite app_assoc in Hnd. apply NoDup_middle_not_in in Hnd.
    intros Heq. apply Hnd. rewrite <- Heq. apply list_elem_of_fmap_2. set_solver. }
  assert (Hi0K : (producer in0 < K)%nat).
  { apply (values_below_elem g n); [done|by apply elem_of_all_nodes|rewrite Hin; set_solver]. }
  assert (Hi1K : (producer in1 < K)%nat).
  { apply (values_below_elem g n); [done|by apply elem_of_all_nodes|rewrite Hin; set_solver]. }
  set (r1 := unpack_input n in0).
  set (r2 := repack_outputs n rnn K).
  set (r := r2 ∘ r1).
  (* what the renamings send to the outputs of the new node *)
  assert (Hr2 : forall x, (producer x < K)%nat ->
    (x = rnn0 <-> r2 x = mkValue K 0) /\ (x = out1 <-> r2 x = mkValue K 1)).
  { intros x Hx. unfold r2, repack_outputs, rename_value, out1, rnn0, K in *.
    cbn [compose]. destruct x as [p o]. simpl in Hx.
    repeat case_decide; simplify_eq; (split; split); intros; simplify_eq;
      try done; lia. }
  assert (Hr1 : forall w, (producer w < K)%nat ->
    (producer (r1 w) < K)%nat /\ (w = rnn0 <-> r1 w = rnn0)
    /\ (w = out1 <-> r1 w = out1)).
  { intros w Hw. unfold r1, unpack_input, rename_value, out1, rnn0 in *.
    fold out0. destruct (decide (w = out0)) as [->|]; [|done].
    split; [done|]. unfold out0.
    split; split; intros; simplify_eq; destruct in0; simplify_eq; done. }
  assert (Hr : forall m w, m ∈ all_nodes g -> w ∈ inputs m ->
    (w = rnn0 <-> r w = mkValue K 0) /\ (w = out1 <-> r w = mkValue K 1)).
  { intros m w Hm Hw. pose proof (values_below_elem g m w Hvals Hm Hw) as HwK.
    destruct (Hr1 w HwK) as (H1K & H1a & H1b).
    destruct (Hr2 (r1 w) H1K) as [H2a H2b]. unfold r. simpl.
    rewrite H1a, H1b. done. }
  assert (HrA : forall m w, m ∈ all_nodes g -> w ∈ inputs m ->
    (w = rnn0 <-> r w = mkValue K 0)).
  { intros m w Hm Hw. by destruct (Hr m w Hm Hw). }
  assert (HrB : forall m w, m ∈ all_nodes g -> w ∈ inputs m ->
    (w = out1 <-> r w = mkValue K 1)).
  { intros m w Hm Hw. by destruct (Hr m w Hm Hw). }
  assert (Hnew8 : forall v, (producer v = K) ->
            uses_in v (new_packing rnn in1 K) = []).
  { intros v Hv. apply uses_in_none. unfold new_packing. cbn [inputs].
    rewrite !elem_of_cons, elem_of_nil. intros [->|[->|[]]]; simpl in Hv; lia. }
  assert (Hj1 : inputs rnn !! j1 = Some out1).
  { assert (Hu : mkUse (unique rnn) j1 ∈ uses g out1)
      by (rewrite Hperm; apply elem_of_cons; by left).
    apply elem_of_uses in Hu as (m & Hm & Hid & Hi). simpl in Hid, Hi.
    assert (m = rnn) as ->; [|done].
    apply (same_unique_same_node g); [done|done|by apply elem_of_all_nodes|done]. }
  assert (Hrnn8 : forall v v', (producer v' = K) ->
    (forall x, (producer x < K)%nat -> (x = v <-> r2 x = v')) ->
    uses_in v' (rnn_unpacked n rnn in0 in1 j1 K)
    = uses_in v (set_inputs (<[j1 := in1]> (inputs (rewire r1 rnn))) (rewire r1 rnn))).
  { intros v v' Hv' Hx. unfold rnn_unpacked. fold r1 r2.
    apply uses_in_rewire. intros w Hw. apply Hx.
    cbn [set_inputs inputs rewire] in Hw.
    apply elem_of_insert_inv in Hw as [->|Hw]; [done|].
    apply list_elem_of_fmap in Hw as (w0 & -> & Hw0).
    apply Hr1. apply (values_below_elem g rnn); [done|by apply elem_of_all_nodes|done]. }
  assert (Hsplit : forall v : Value,
    uses g v = uses_in v (input_ g) ++ (pre ≫= uses_in v) ++ uses_in v n
               ++ (mid ≫= uses_in v) ++ uses_in v rnn ++ (post ≫= uses_in v)
               ++ uses_in v (output_ g)).
  { intros v. rewrite uses_unfold, Hn.
    repeat (rewrite bind_app || rewrite bind_cons). by rewrite <- !app_assoc. }
  assert (Hsplit' : forall v : Value,
    uses g' v = uses_in v (rewire r (input_ g)) ++ ((rewire r <$> pre) ≫= uses_in v)
                ++ ((rewire r <$> mid) ≫= uses_in v)
                ++ uses_in v (rnn_unpacked n rnn in0 in1 j1 K)
                ++ uses_in v (new_packing rnn in1 K)
                ++ ((rewire r <$> post) ≫= uses_in v)
                ++ uses_in v (rewire r (output_ g))).
  { intros v. rewrite uses_unfold. unfold g', packing_pushed.
    cbn [input_ nodes output_]. fold K r1 r2 r.
    repeat (rewrite bind_app || rewrite bind_cons). by rewrite <- !app_assoc. }
  assert (Hin_pre : forall m, m ∈ pre -> m ∈ all_nodes g).
  { intros m Hm. apply elem_of_all_nodes. rewrite Hn. set_solver. }
  assert (Hin_mid : forall m, m ∈ mid -> m ∈ all_nodes g).
  { intros m Hm. apply elem_of_all_nodes. rewrite Hn. set_solver. }
  assert (Hin_post : forall m, m ∈ post -> m ∈ all_nodes g).
  { intros m Hm. apply elem_of_all_nodes. rewrite Hn. set_solver. }
  assert (Hin_i : input_ g ∈ all_nodes g) by (unfold all_nodes; set_solver).
  assert (Hin_o : output_ g ∈ all_nodes g) by (unfold all_nodes; set_solver).
  split; [|split; [|split; [done|split]]].
  - (* the old packing node is gone *)
    unfold g', packing_pushed. cbn [nodes]. fold K r1 r2 r.
    rewrite !fmap_app, !fmap_cons, !unique_rewire_fmap.
    cbn [unique rnn_unpacked rewire set_inputs new_packing].
    rewrite fmap_app, fmap_cons, fmap_app, fmap_cons in Hnd.
    apply NoDup_app in Hnd as (_ & Hpre & Hnd).
    apply NoDup_cons in Hnd as [Hrest _].
    rewrite !elem_of_app, !elem_of_cons. intros [Hp|[Hm|[Heq|[Heq|Hp]]]].
    + apply (Hpre _ Hp). set_solver.
    + apply Hrest. set_solver.
    + done.
    + lia.
    + apply Hrest. set_solver.
  - (* the consumers of the output of the recurrent node *)
    rewrite Hsplit', Hsplit. fold rnn0.
    rewrite (uses_in_none rnn0 n).
    2:{ rewrite Hin, !elem_of_cons, elem_of_nil. unfold rnn0.
        intros [<-|[<-|[]]]; simpl in *; done. }
    rewrite Hnew8 by done.
    rewrite (Hrnn8 rnn0) by (done || intros; by apply Hr2).
    rewrite uses_in_insert_other.
    2:{ unfold rnn0. intros ->. simpl in *. done. }
    2:{ cbn [rewire set_inputs inputs]. rewrite list_lookup_fmap, Hj1. simpl.
        destruct (Hr1 out1) as (_ & Ha & _); [simpl; lia|].
        intros [= Heq]. apply Ha in Heq. unfold out1, rnn0 in Heq.
        injection Heq. done. }
    rewrite (uses_in_rewire r1 rnn0 rnn0 rnn).
    2:{ intros w Hw. apply Hr1. apply (values_below_elem g rnn); [done|by apply elem_of_all_nodes|done]. }
    rewrite (bind_uses_in_rewire r rnn0 (mkValue K 0) pre)
      by (intros m0 w0 Hm0 Hw0; apply (HrA m0 w0); [by apply Hin_pre|done]).
    rewrite (bind_uses_in_rewire r rnn0 (mkValue K 0) mid)
      by (intros m0 w0 Hm0 Hw0; apply (HrA m0 w0); [by apply Hin_mid|done]).
    rewrite (bind_uses_in_rewire r rnn0 (mkValue K 0) post)
      by (intros m0 w0 Hm0 Hw0; apply (HrA m0 w0); [by apply Hin_post|done]).
    rewrite (uses_in_rewire r rnn0 (mkValue K 0) (input_ g))
      by (intros w0 Hw0; by apply (HrA (input_ g) w0)).
    rewrite (uses_in_rewire r rnn0 (mkValue K 0) (output_ g))
      by (intros w0 Hw0; by apply (HrA (output_ g) w0)).
    done.
  - (* the consumers of the lengths output *)
    apply (Permutation_cons_inv (a := mkUse (unique rnn) j1)).
    rewrite <- Hperm. rewrite Hsplit'.
    rewrite (bind_uses_in_rewire r out1 (mkValue K 1) pre)
      by (intros m0 w0 Hm0 Hw0; apply (HrB m0 w0); [by apply Hin_pre|done]).
    rewrite (bind_uses_in_rewire r out1 (mkValue K 1) mid)
      by (intros m0 w0 Hm0 Hw0; apply (HrB m0 w0); [by apply Hin_mid|done]).
    rewrite (bind_uses_in_rewire r out1 (mkValue K 1) post)
      by (intros m0 w0 Hm0 Hw0; apply (HrB m0 w0); [by apply Hin_post|done]).
    rewrite (uses_in_rewire r out1 (mkValue K 1) (input_ g))
      by (intros w0 Hw0; by apply (HrB (input_ g) w0)).
    rewrite (uses_in_rewire r out1 (mkValue K 1) (output_ g))
      by (intros w0 Hw0; by apply (HrB (output_ g) w0)).
    rewrite Hnew8 by done.
    rewrite (Hrnn8 out1) by (done || intros; by apply Hr2).
    rewrite Hsplit. fold out1.
    rewrite (uses_in_none out1 n).
    2:{ rewrite Hin, !elem_of_cons, elem_of_nil. unfold out1.
        intros [<-|[<-|[]]]; simpl in *; done. }
    assert (Hr1_uses : uses_in out1 (rewire r1 rnn) = uses_in out1 rnn).
    { apply uses_in_rewire. intros w Hw. apply Hr1.
      apply (values_below_elem g rnn); [done|by apply elem_of_all_nodes|done]. }
    assert (Hj1' : inputs (rewire r1 rnn) !! j1 = Some out1).
    { cbn [rewire set_inputs inputs]. rewrite list_lookup_fmap, Hj1. simpl.
      f_equal. destruct (Hr1 out1) as (_ & _ & Hb); [simpl; lia|]. by apply Hb. }
    assert (Hi1 : in1 <> out1).
    { unfold out1. intros ->. simpl in *. done. }
    rewrite <- Hr1_uses.
    rewrite (uses_in_insert_perm out1 in1 (rewire r1 rnn) j1 Hj1' Hi1).
    change (unique (rewire r1 rnn)) with (unique rnn).
    rewrite !app_nil_l, <- app_comm_cons. apply Permutation_into_fourth.
  - (* several consumers: nothing is done *)
    intros g0 m Hok0 Hm Hkm Hom Hum.
    apply pushPackingPastRnn_body_skips; [done..|lia].
Qed.

(** ** The first use on record *)

Lemma slot_order_ok : use_order_ok slot_order.
Proof. intros g v. reflexivity. Qed.

(** A list of at most one use has one order. *)
Lemma settled_eq (registered : use_order) (g : Graph) (v : Value) :
  use_order_ok registered -> registered g v = settled registered g v.
Proof.
  intros Hreg. unfold settled. specialize (Hreg g v).
  destruct (uses g v) as [|u [|u' l]]; simpl; [| |done].
  - by apply Permutation_nil_r.
  - by apply Permutation_singleton_r.
Qed.

Lemma Value_replaceFirstUseWith_ext (r r' : use_order) (g : Graph)
    (old new : Value) :
  r g old = r' g old ->
  Value_replaceFirstUseWith r g old new = Value_replaceFirstUseWith r' g old new.
Proof. intros H. unfold Value_replaceFirstUseWith. by rewrite H. Qed.

Lemma pushPackingPastRnn_body_ext (r r' : use_order) :
  (forall g v, r g v = r' g v) ->
  forall g id, pushPackingPastRnn_body r g id = pushPackingPastRnn_body r' g id.
Proof.
  intros H g id. unfold pushPackingPastRnn_body.
  repeat first
    [ reflexivity
    | rewrite (Value_replaceFirstUseWith_ext r r') by apply H
    | match goal with
      | |- mbind _ ?m = mbind _ ?m => destruct m; cbn [mbind outcome_bind]
      | |- (if ?b then _ else _) = (if ?b then _ else _) => destruct b
      end ].
Qed.

Lemma for_nodes_ext (body body' : Graph -> nat -> outcome (Graph * iterator)) :
  (forall g id, body g id = body' g id) ->
  forall fuel g it, for_nodes fuel body g it = for_nodes fuel body' g it.
Proof.
  intros H fuel. induction fuel as [|fuel IH]; intros g [id|]; try done.
  simpl. rewrite H. destruct (body' g id) as [[g' it']|]; [|done].
  cbn [mbind outcome_bind]. destruct (it_next g' it'); [|done].
  cbn [mbind outcome_bind]. apply IH.
Qed.

Lemma pushPackingPastRnn_ext (r r' : use_order) (g : Graph) :
  (forall g v, r g v = r' g v) ->
  pushPackingPastRnn r g = pushPackingPastRnn r' g.
Proof.
  intros H. unfold pushPackingPastRnn. destruct (it_next g None); [|done].
  cbn [mbind outcome_bind]. apply for_nodes_ext.
  by apply pushPackingPastRnn_body_ext.
Qed.

Lemma PeepholeOptimizeONNX_ext (r r' : use_order) (g : Graph) :
  (forall g v, r g v = r' g v) ->
  PeepholeOptimizeONNX r g = PeepholeOptimizeONNX r' g.
Proof.
  intros H. unfold PeepholeOptimizeONNX. by rewrite (pushPackingPastRnn_ext r r').
Qed.

(** C4.  The rewrite hands the original lengths to the first use on
    record of the lengths output without looking at whose use it is.  In
    [packed_rnn_without_lengths] the primary output of the packing node has
    one consumer, a recurrent node, and the lengths output has one use, in
    the unpacking node, so that the order of the record does not matter.
    The pass succeeds and leaves the unpacking node reading the primary
    output of the new packing node next to the lengths that went into the
    old one; the lengths output of the new packing node has no reader,
    where the old one had one.  [removeNopPacking] then finds no pair, and
    the pipeline returns the graph with both packing nodes in it.  When no
    node at all reads the lengths output, there is no first use to take and
    the pass stops. *)
Theorem pushPackingPastRnn_first_use_unchecked (registered : use_order) :
  use_order_ok registered ->
  uses packed_rnn_without_lengths (mkValue 1 0) = [mkUse 2 0]
  /\ uses packed_rnn_without_lengths (mkValue 1 1) = [mkUse 3 1]
  /\ pushPackingPastRnn registered packed_rnn_without_lengths
     = Ok packed_rnn_lengths_lost
  /\ uses packed_rnn_lengths_lost (mkValue 5 0) = [mkUse 3 0]
  /\ uses packed_rnn_lengths_lost (mkValue 5 1) = []
  /\ uses packed_rnn_lengths_lost (mkValue 0 1) ≡ₚ [mkUse 5 1; mkUse 3 1]
  /\ removeNopPacking packed_rnn_lengths_lost = Ok packed_rnn_lengths_lost
  /\ PeepholeOptimizeONNX registered packed_rnn_without_lengths
     = Ok packed_rnn_lengths_lost
  /\ pushPackingPastRnn registered packed_rnn_unread_lengths = Err OutOfRange.
Proof.
  intros Hreg.
  assert (He : forall g v, registered g v = settled registered g v)
    by (intros g v; by apply settled_eq).
  split; [by vm_compute|]. split; [by vm_compute|].
  split; [rewrite (pushPackingPastRnn_ext _ _ _ He); by vm_compute|].
  split; [by vm_compute|]. split; [by vm_compute|]. split; [by vm_compute|].
  split; [by vm_compute|].
  split; [rewrite (PeepholeOptimizeONNX_ext _ _ _ He); by vm_compute|].
  rewrite (pushPackingPastRnn_ext _ _ _ He). by vm_compute.
Qed.

(** *** [eliminateNopTranspose] at a transpose of a single-output producer *)

Lemma rename_value_avoids (old new w : Value) :
  new <> old -> rename_value old new w <> old.
Proof. intros Hne. unfold rename_value. by case_decide. Qed.

Lemma uses_replaced_nil (g : Graph) (old new : Value) :
  new <> old -> uses (Value_replaceAllUsesWith g old new) old = [].
Proof.
  intros Hne. apply uses_nil. intros k Hk Hin.
  rewrite Value_replaceAllUsesWith_rewire, all_nodes_map_nodes in Hk.
  apply list_elem_of_fmap in Hk as (k0 & -> & _).
  unfold rewire, set_inputs in Hin. cbn [inputs] in Hin.
  apply list_elem_of_fmap in Hin as (w & Hw & _).
  by apply (rename_value_avoids old new w).
Qed.

Lemma uses_without_node_nil (g : Graph) (id : nat) (v : Value) :
  uses g v = [] -> uses (without_node id g) v = [].
Proof.
  rewrite !uses_nil. intros H k Hk. apply H.
  unfold all_nodes in *. unfold without_node, set_nodes in Hk.
  cbn [input_ nodes output_] in Hk.
  apply elem_of_cons in Hk as [->|Hk]; [apply elem_of_cons; by left|].
  apply elem_of_cons. right.
  apply elem_of_app in Hk as [Hk|Hk]; apply elem_of_app; [left|by right].
  apply list_elem_of_filter in Hk. tauto.
Qed.

(** X1.  At a transpose by the identity whose input is the output of a node with
    one output, the loop body retargets every use of the transpose's output
    to that output, deletes the transpose (the list is one node shorter),
    and leaves the iterator on the node before it, so that the increment
    reaches the node that followed: none is skipped, none is seen twice. *)
Theorem eliminateNopTranspose_body_eliminates
    (g : Graph) (pre post : list Node) (n m : Node) (v : Value)
    (perm : list Z) (tn tm : option (list Z)) :
  graph_ok g ->
  nodes g = pre ++ n :: post ->
  kind n = onnx_Transpose ->
  attrs n !! attr_perm = Some (IntsAttr perm) ->
  isNopTranspose perm = true ->
  inputs n = [v] ->
  output_types n = [tn] ->
  node_at g (producer v) = Ok m ->
  output_types m = [tm] ->
  producer v <> unique n ->
  let g' := without_node (unique n)
              (Value_replaceAllUsesWith g (mkValue (unique n) 0)
                                          (mkValue (producer v) 0)) in
  eliminateNopTranspose_body g (unique n) = Ok (g', unique <$> last pre)
  /\ it_next g' (unique <$> last pre) = Ok (unique <$> head post)
  /\ uses g' (mkValue (unique n) 0) = []
  /\ unique <$> nodes g' = unique <$> (pre ++ post)
  /\ (length (nodes g') + 1 = length (nodes g))%nat.
Proof.
  intros Hok Hn Hk Hperm Hnop Hin Htn Hm Htm Hne g'.
  set (old := mkValue (unique n) 0). set (new := mkValue (producer v) 0).
  set (r := rename_value old new).
  assert (Hnew : new <> old) by (unfold new, old; intros [=]; done).
  pose proof (graph_ok_nodes _ Hok) as Hnd.
  assert (Hg1 : Value_replaceAllUsesWith g old new = map_nodes (rewire r) g)
    by reflexivity.
  assert (Hg' : g' = without_node (unique n) (map_nodes (rewire r) g))
    by reflexivity.
  clearbody g'. subst g'.
  assert (Hok1 : graph_ok (map_nodes (rewire r) g)) by by apply graph_ok_rewire.
  assert (Hnd1 : NoDup (unique <$> (rewire r <$> pre) ++ rewire r n
                                    :: (rewire r <$> post))).
  { rewrite <- fmap_cons, <- fmap_app, unique_rewire_fmap. by rewrite <- Hn. }
  assert (Hnodes' : nodes (without_node (unique n) (map_nodes (rewire r) g))
                    = (rewire r <$> pre) ++ (rewire r <$> post)).
  { unfold without_node, set_nodes, map_nodes. cbn [nodes].
    rewrite Hn, fmap_app, fmap_cons.
    change (unique n) with (unique (rewire r n)).
    by rewrite filter_out_middle. }
  assert (Hu1 : uses (map_nodes (rewire r) g) old = []).
  { rewrite <- Hg1. by apply uses_replaced_nil. }
  split; [|split; [|split; [|split]]].
  - unfold eliminateNopTranspose_body.
    rewrite (node_at_in g pre post n (unique n)) by done.
    cbn [mbind outcome_bind]. rewrite bool_decide_eq_true_2 by done.
    cbn [negb]. unfold Node_is. rewrite Hperm. cbn [mbind outcome_bind].
    rewrite Hnop. cbn [negb]. unfold Node_input. rewrite Hin.
    cbn [mbind outcome_bind]. unfold Value_node. rewrite Hm.
    cbn [mbind outcome_bind].
    apply node_at_Ok in Hm as [_ Hum].
    unfold Node_replaceAllUsesWith. rewrite Htn, Htm.
    cbn [length seq foldl]. rewrite bool_decide_eq_true_2 by done.
    rewrite Hum. fold old new. rewrite Hg1.
    cbn [JIT_ASSERT mbind outcome_bind].
    unfold destroyCurrent. cbn [map_nodes nodes].
    rewrite Hn, fmap_app, fmap_cons.
    change (unique n) with (unique (rewire r n)).
    rewrite pred_in_middle by done. cbn [mbind outcome_bind].
    unfold destroy.
    rewrite (node_at_in (map_nodes (rewire r) g) (rewire r <$> pre)
               (rewire r <$> post) (rewire r n) (unique (rewire r n)));
      [|done|by cbn [map_nodes nodes]; rewrite Hn, fmap_app, fmap_cons|done].
    cbn [mbind outcome_bind].
    rewrite (Node_hasUses_single _ _ tn) by done.
    change (mkValue (unique (rewire r n)) 0) with old. rewrite Hu1.
    rewrite bool_decide_eq_true_2 by done. cbn [negb JIT_ASSERT mbind outcome_bind].
    f_equal. f_equal.
    rewrite fmap_last. by destruct (last pre).
  - replace (unique <$> last pre) with (unique <$> last (rewire r <$> pre)).
    2:{ rewrite fmap_last. by destruct (last pre). }
    rewrite (it_next_after_removal _ (rewire r <$> pre) (rewire r <$> post));
      [|done|].
    + by destruct post.
    + rewrite Hnodes', fmap_app, !unique_rewire_fmap.
      rewrite Hn, fmap_app, fmap_cons in Hnd.
      apply NoDup_app in Hnd as (H1 & H2 & H3).
      apply NoDup_cons in H3 as [_ H3].
      apply NoDup_app. split; [done|]. split; [|done].
      intros x Hx Hx'. apply (H2 x Hx). apply elem_of_cons. by right.
  - by apply uses_without_node_nil.
  - by rewrite Hnodes', !fmap_app, !unique_rewire_fmap.
  - rewrite Hnodes', Hn, !length_app, !length_fmap. simpl. lia.
Qed.

(** ** More on the pure helpers *)

(** *** [isNopTranspose] *)

Lemma isNopTranspose_from_spec (perm : list Z) :
  forall i : nat,
  isNopTranspose_from (Z.of_nat i) perm = true
  <-> perm = Z.of_nat <$> seq i (length perm).
Proof.
  induction perm as [|p perm IH]; intros i; simpl; [done|].
  destruct (Z.eqb_spec p (Z.of_nat i)) as [->|Hne]; simpl.
  - replace (Z.of_nat i + 1) with (Z.of_nat (S i)) by lia.
    split.
    + intros Hp. apply IH in Hp. by f_equal.
    + intros Hp. apply IH. by injection Hp.
  - split; [done|]. intros Hp. by injection Hp.
Qed.

(** X2.  [isNopTranspose] answers true exactly on the lists
    [0, 1, ..., n-1], the empty list among them. *)
Theorem isNopTranspose_iff_identity (perm : list Z) :
  isNopTranspose perm = true <-> perm = identity_perm (length perm).
Proof. apply (isNopTranspose_from_spec perm 0). Qed.

(** *** [composeTransposes] outside valid permutations *)

Lemma composeTransposes_loop_Ok (todo t2 : list Z) :
  forall ret r : list Z,
  composeTransposes_loop todo t2 ret = Ok r ->
  in_range (size t2) todo
  /\ r = ret ++ compose_pointwise todo t2
  /\ Forall (fun b => b < size t2) (compose_pointwise todo t2).
Proof.
  induction todo as [|a todo IH]; intros ret r; simpl.
  - intros [= <-]. rewrite app_nil_r.
    split; [constructor|]. split; [done|constructor].
  - destruct (Z.ltb_spec a (size t2)) as [Hlt|]; [|done]. simpl.
    unfold idx. destruct (Z.leb_spec 0 a) as [Hge|]; [|done].
    destruct (t2 !! Z.to_nat a) as [b|] eqn:Hb; [|done]. simpl.
    destruct (Z.ltb_spec b (size t2)) as [Hb'|]; [|done]. simpl.
    intros Hrun. apply IH in Hrun as (Hr & -> & Hall).
    split; [by constructor|]. split.
    + by rewrite <- app_assoc.
    + by constructor.
Qed.

(** X3.  [composeTransposes] returns only on lists of one length whose
    first list indexes the second within bounds; what it returns has that
    length, holds [t2[t1[i]]] at [i], and every entry is below the length. *)
Theorem composeTransposes_Ok_inv (t1 t2 r : list Z) :
  composeTransposes t1 t2 = Ok r ->
  length t1 = length t2
  /\ in_range (size t2) t1
  /\ r = compose_pointwise t1 t2
  /\ length r = length t1
  /\ Forall (fun b => b < size t2) r.
Proof.
  unfold composeTransposes.
  destruct (Z.eqb_spec (size t1) (size t2)) as [Hs|]; [|done]. simpl.
  intros Hrun. apply composeTransposes_loop_Ok in Hrun as (Hr & -> & Hall).
  simpl. split; [unfold size in Hs; lia|]. split; [done|]. split; [done|].
  split; [apply length_compose_pointwise|done].
Qed.

Lemma composeTransposes_length_mismatch (t1 t2 : list Z) :
  length t1 <> length t2 -> composeTransposes t1 t2 = Err AssertFailed.
Proof.
  intros Hne. unfold composeTransposes.
  destruct (Z.eqb_spec (size t1) (size t2)) as [Hs|]; [|done].
  unfold size in Hs. lia.
Qed.

Lemma composeTransposes_loop_bad_entry (pre post t2 ret : list Z) (a : Z) :
  in_range (size t2) pre -> in_range (size t2) t2 ->
  composeTransposes_loop (pre ++ a :: post) t2 ret
  = (if a <? size t2 then
       if 0 <=? a then composeTransposes_loop (a :: post) t2 (ret ++ compose_pointwise pre t2)
       else Err OutOfRange
     else Err AssertFailed).
Proof.
  intros Hpre Ht2. revert ret.
  induction Hpre as [|b pre Hb Hpre IH]; intros ret.
  - cbn [app compose_pointwise fmap list_fmap]. rewrite app_nil_r.
    cbn [composeTransposes_loop].
    destruct (Z.ltb_spec a (size t2)); [|done].
    destruct (Z.leb_spec 0 a); [done|].
    cbn [JIT_ASSERT mbind outcome_bind]. unfold idx.
    destruct (Z.leb_spec 0 a); [lia|done].
  - cbn [app composeTransposes_loop].
    destruct (Z.ltb_spec b (size t2)); [|lia]. cbn [JIT_ASSERT mbind outcome_bind].
    unfold idx at 1. destruct (Z.leb_spec 0 b); [|lia].
    destruct (lookup_lt_is_Some_2 t2 (Z.to_nat b)) as [c Hc].
    { unfold size in *. lia. }
    rewrite Hc. cbn [mbind outcome_bind].
    pose proof (in_range_lookup _ _ _ _ Ht2 Hc) as Hcr.
    destruct (Z.ltb_spec c (size t2)); [|lia]. cbn [JIT_ASSERT mbind outcome_bind].
    rewrite IH. unfold compose_pointwise at 2. rewrite fmap_cons, Hc.
    cbn [default from_option]. by rewrite <- app_assoc.
Qed.

(** X4.  The assertions bound the entries from above only.  With the
    entries before it in range, an entry of the first list at or above the
    length stops the run on the assertion, and a negative entry passes the
    assertion and has the second list read outside its bounds. *)
Theorem composeTransposes_bad_entry (pre post t2 : list Z) (a : Z) :
  length (pre ++ a :: post) = length t2 ->
  in_range (size t2) pre -> in_range (size t2) t2 ->
  (size t2 <= a -> composeTransposes (pre ++ a :: post) t2 = Err AssertFailed)
  /\ (a < 0 -> composeTransposes (pre ++ a :: post) t2 = Err OutOfRange).
Proof.
  intros Hlen Hpre Ht2. unfold composeTransposes.
  destruct (Z.eqb_spec (size (pre ++ a :: post)) (size t2)) as [_|Hs];
    [|unfold size in Hs; lia].
  cbn [JIT_ASSERT mbind outcome_bind].
  rewrite composeTransposes_loop_bad_entry by done.
  pose proof (size_nonneg t2).
  split; intros Ha.
  - destruct (Z.ltb_spec a (size t2)); [lia|done].
  - destruct (Z.ltb_spec a (size t2)); [|lia].
    destruct (Z.leb_spec 0 a); [lia|done].
Qed.

(** *** Valid permutations are closed under composition *)

Lemma compose_pointwise_identity_perm (p : list Z) :
  (fun a => default 0 (p !! Z.to_nat a)) <$> identity_perm (length p) = p.
Proof. apply (compose_pointwise_identity_l p). Qed.

(** X5.  The composition of two valid permutations of one length is
    returned, and is a valid permutation of that length. *)
Theorem composeTransposes_is_permutation (p1 p2 : list Z) :
  is_permutation p1 -> is_permutation p2 -> length p1 = length p2 ->
  exists r, composeTransposes p1 p2 = Ok r
            /\ is_permutation r /\ length r = length p1.
Proof.
  intros Hp1 Hp2 Hlen. exists (compose_pointwise p1 p2).
  pose proof (is_permutation_in_range _ Hp1) as Hr1.
  pose proof (is_permutation_in_range _ Hp2) as Hr2.
  split; [|split; [|apply length_compose_pointwise]].
  - apply composeTransposes_pointwise; [done| |done].
    replace (size p2) with (size p1); [done|]. unfold size. by rewrite Hlen.
  - unfold is_permutation in *. rewrite length_compose_pointwise.
    unfold compose_pointwise. rewrite Hp1, Hlen.
    rewrite compose_pointwise_identity_perm, length_identity_perm. exact Hp2.
Qed.

(** ** More on [fusibleExpandTo] *)

(** The check as a function of the two shapes, for [from] no longer than
    [to]. *)
Lemma fusibleExpandTo_alignment (from to : list Z) :
  (length from <= length to)%nat ->
  fusibleExpandTo from to = Ok (fusible_by_alignment from to).
Proof.
  intros Hlen.
  unfold fusibleExpandTo, fusible_by_alignment, trailing_aligned, leading_aligned.
  destruct (Z.ltb_spec (size to) (size from)) as [Hlt|_];
    [unfold size in Hlt; lia|].
  pose proof (length_core_of from) as Hcore_len.
  destruct (from_split from) as (lead & tail & Hfrom & Hlead & Hones & Hnil & Hcore).
  set (core := core_of from) in *. clearbody core.
  (* from_dim_start *)
  pose proof (skip_leading_ones_spec from [] (S (length from))) as Hstart.
  change ([] ++ from) with from in Hstart.
  change (size (@nil Z)) with 0 in Hstart.
  rewrite Hstart, Z.add_0_l, <- Hlead by lia. clear Hstart.
  cbn [mbind outcome_bind].
  (* from_dim_end *)
  assert (Hsz : size from - 1 = size lead + size core + size tail - 1).
  { rewrite Hfrom. sizes. lia. }
  rewrite Hsz, Hfrom.
  replace (lead ++ core ++ tail) with (lead ++ core ++ tail ++ [])
    by by rewrite app_nil_r.
  rewrite skip_trailing_ones_spec; [|done..|].
  2:{ rewrite !length_app. lia. }
  cbn [mbind outcome_bind].
  (* the walk from the trailing ends *)
  destruct (trailing_scan_spec core lead (tail ++ []) to []
              (S (length (lead ++ core ++ tail ++ [])))) as (f1 & Hrun1 & Hf1).
  { rewrite !length_app. lia. }
  { lia. }
  rewrite (app_nil_r to) in Hrun1. rewrite Hrun1. cbn [mbind outcome_bind].
  destruct (walk_matches (reverse core) (reverse to)) eqn:Htrail;
    cbn [andb].
  { rewrite (Hf1 eq_refl).
    destruct (Z.leb_spec (size lead - 1) (size lead)); [done|lia]. }
  (* the walk from the leading ends *)
  destruct (leading_scan_spec core lead (tail ++ []) [] to
              (S (length (lead ++ core ++ tail ++ [])))) as (f2 & Hrun2 & Hf2).
  { rewrite !length_app. lia. }
  { lia. }
  change ([] ++ to) with to in Hrun2. change (size (@nil Z)) with 0 in Hrun2.
  rewrite Hrun2. cbn [mbind outcome_bind].
  destruct (walk_matches core to) eqn:Hlead'; cbn [andb]; [|done].
  rewrite (Hf2 eq_refl).
  destruct (Z.leb_spec (size lead + size core - 1) (size lead + size core));
    [done|lia].
Qed.

Lemma fusibleExpandTo_guard (from to : list Z) :
  (length to < length from)%nat -> fusibleExpandTo from to = Ok (false, None).
Proof.
  intros Hlen. unfold fusibleExpandTo.
  destruct (Z.ltb_spec (size to) (size from)) as [_|Hge]; [done|].
  unfold size in Hge. lia.
Qed.

(** X6.  The check returns on every pair of shapes: no loop reads outside
    a shape and none runs on.  The axis it returns is absent or 0, and it
    is absent when the answer is "not fusable". *)
Theorem fusibleExpandTo_total (from to : list Z) :
  exists (fusable : bool) (axis : option Z),
    fusibleExpandTo from to = Ok (fusable, axis)
    /\ (axis = None \/ (axis = Some 0 /\ fusable = true)).
Proof.
  destruct (decide (length from <= length to)%nat) as [Hle|Hgt].
  - rewrite fusibleExpandTo_alignment by done. unfold fusible_by_alignment.
    destruct (trailing_aligned _ _); [by eexists _, _; split; [|left]|].
    destruct (leading_aligned _ _).
    + eexists _, _. split; [done|]. by right.
    + eexists _, _. split; [done|]. by left.
  - rewrite fusibleExpandTo_guard by lia. eexists _, _. split; [done|]. by left.
Qed.

Lemma walk_matches_prefix (xs rest : list Z) : walk_matches xs (xs ++ rest) = true.
Proof.
  induction xs as [|x xs IH]; simpl; [done|]. by rewrite Z.eqb_refl, IH.
Qed.

Lemma drop_ones_all (l : list Z) : Forall (fun d => d = 1) l -> drop_ones l = [].
Proof. induction 1 as [|d l -> _ IH]; simpl; done. Qed.

Lemma drop_ones_keep (l : list Z) : head l <> Some 1 -> drop_ones l = l.
Proof.
  destruct l as [|d l]; simpl; [done|]. intros Hd.
  destruct (Z.eqb_spec d 1) as [->|]; done.
Qed.

(** X7.  A shape made of ones only, the empty shape of a scalar among
    them, is fusable without an axis into any shape of at least its rank. *)
Theorem fusibleExpandTo_ones (from to : list Z) :
  Forall (fun d => d = 1) from -> (length from <= length to)%nat ->
  fusibleExpandTo from to = Ok (true, None).
Proof.
  intros Hones Hlen. rewrite fusibleExpandTo_alignment by done.
  unfold fusible_by_alignment, trailing_aligned, core_of.
  by rewrite (drop_ones_all from Hones).
Qed.

(** X8.  Extending a shape on the left, as broadcasting does, is fusable
    without an axis whenever the shape does not end in a 1. *)
Theorem fusibleExpandTo_suffix (from pre : list Z) :
  last from <> Some 1 ->
  fusibleExpandTo from (pre ++ from) = Ok (true, None).
Proof.
  intros Hlast. rewrite fusibleExpandTo_alignment by (rewrite length_app; lia).
  unfold fusible_by_alignment, trailing_aligned, core_of.
  rewrite reverse_involutive.
  destruct (drop_ones_split from) as (ones & Hfrom & Hones).
  set (d := drop_ones from) in *.
  assert (Hd : drop_ones (reverse d) = reverse d).
  { apply drop_ones_keep. rewrite head_reverse.
    destruct d as [|x d'] eqn:Ed; [done|].
    intros Hl. apply Hlast. rewrite Hfrom.
    by rewrite last_app, Hl. }
  rewrite Hd. rewrite Hfrom at 1. rewrite !reverse_app, <- app_assoc.
  by rewrite walk_matches_prefix.
Qed.

(** X9.  Extending a shape on the right is fusable whenever the shape
    does not start with a 1: without an axis when the trailing ends agree
    as well, with axis 0 otherwise. *)
Theorem fusibleExpandTo_prefix (from post : list Z) :
  head from <> Some 1 ->
  fusibleExpandTo from (from ++ post)
  = Ok (true, if trailing_aligned (core_of from) (from ++ post) then None
              else Some 0).
Proof.
  intros Hhead. rewrite fusibleExpandTo_alignment by (rewrite length_app; lia).
  unfold fusible_by_alignment.
  destruct (trailing_aligned _ _); [done|].
  unfold leading_aligned, core_of. rewrite (drop_ones_keep from Hhead).
  destruct (core_of_split from) as (tail & Hfrom & _).
  rewrite Hfrom at 2. by rewrite <- app_assoc, walk_matches_prefix.
Qed.

(** *** Shapes without a 1 at either end *)

Lemma walk_matches_iff (xs : list Z) :
  forall ys : list Z, (length xs <= length ys)%nat ->
  walk_matches xs ys = true <-> xs `prefix_of` ys.
Proof.
  induction xs as [|x xs IH]; intros ys Hlen; simpl.
  - split; [intros _; apply prefix_nil|done].
  - destruct ys as [|y ys]; [simpl in Hlen; lia|]. simpl in Hlen.
    rewrite andb_true_iff, Z.eqb_eq, IH by lia. split.
    + intros [-> H]. by apply prefix_cons.
    + intros H. split; [by eapply prefix_cons_inv_1|by eapply prefix_cons_inv_2].
Qed.

Lemma core_of_plain (from : list Z) :
  head from <> Some 1 -> last from <> Some 1 -> core_of from = from.
Proof.
  intros Hh Hl. unfold core_of. rewrite (drop_ones_keep from Hh).
  rewrite drop_ones_keep by by rewrite head_reverse.
  apply reverse_involutive.
Qed.

(** X20.  For a shape that neither starts nor ends with a 1 and is no
    longer than the target, the check answers fusable without an axis
    exactly when the shape is a suffix of the target, fusable with axis 0
    exactly when it is a prefix and not a suffix, and not fusable in every
    other case. *)
Theorem fusibleExpandTo_plain (from to : list Z) :
  head from <> Some 1 -> last from <> Some 1 ->
  (length from <= length to)%nat ->
  (from `suffix_of` to -> fusibleExpandTo from to = Ok (true, None))
  /\ (~ from `suffix_of` to -> from `prefix_of` to ->
      fusibleExpandTo from to = Ok (true, Some 0))
  /\ (~ from `suffix_of` to -> ~ from `prefix_of` to ->
      fusibleExpandTo from to = Ok (false, None)).
Proof.
  intros Hh Hl Hlen. rewrite fusibleExpandTo_alignment by done.
  unfold fusible_by_alignment, trailing_aligned, leading_aligned.
  rewrite (core_of_plain from Hh Hl).
  pose proof (walk_matches_iff (reverse from) (reverse to)) as Ht.
  rewrite !length_reverse, <- suffix_prefix_reverse in Ht.
  specialize (Ht Hlen).
  pose proof (walk_matches_iff from to Hlen) as Hp.
  destruct (walk_matches (reverse from) (reverse to)).
  - assert (Hs : from `suffix_of` to) by by apply Ht.
    split; [done|]. split; intros Hns; by destruct Hns.
  - assert (Hns : ~ from `suffix_of` to).
    { intros Hs. apply Ht in Hs. done. }
    split; [done|]. destruct (walk_matches from to).
    + assert (Hpre : from `prefix_of` to) by by apply Hp.
      split; [done|]. intros _ Hnp. by destruct Hnp.
    + split; [|done]. intros _ Hpre. apply Hp in Hpre. done.
Qed.

(** ** Passes that find nothing to rewrite *)

(** A loop whose body changes nothing at any node left to visit returns
    the graph it was given. *)
Lemma for_nodes_quiet (body : Graph -> nat -> outcome (Graph * iterator))
    (g : Graph) (todo : list Node) :
  forall (done : list Node) (fuel : nat),
  graph_ok g -> nodes g = done ++ todo ->
  (forall n, n ∈ todo -> body g (unique n) = Ok (g, Some (unique n))) ->
  (length todo <= fuel)%nat ->
  for_nodes fuel body g (unique <$> head todo) = Ok g.
Proof.
  induction todo as [|n rest IH]; intros done fuel Hok Hn Hq Hfuel.
  - by destruct fuel.
  - destruct fuel as [|fuel]; [simpl in Hfuel; lia|]. simpl.
    rewrite Hq by (apply elem_of_cons; by left). cbn [mbind outcome_bind].
    pose proof (graph_ok_nodes _ Hok) as Hnd. rewrite Hn in Hnd.
    unfold it_next. rewrite Hn, succ_in_middle by done. cbn [mbind outcome_bind].
    apply (IH (done ++ [n]) fuel); [done| | |simpl in Hfuel; lia].
    + by rewrite <- app_assoc.
    + intros m Hm. apply Hq. apply elem_of_cons. by right.
Qed.

Lemma pass_quiet (body : Graph -> nat -> outcome (Graph * iterator))
    (g : Graph) (fuel : nat) :
  graph_ok g ->
  (forall n, n ∈ nodes g -> body g (unique n) = Ok (g, Some (unique n))) ->
  (length (nodes g) <= fuel)%nat ->
  (it ← it_next g None; for_nodes fuel body g it) = Ok g.
Proof.
  intros Hok Hq Hfuel. unfold it_next. cbn [mbind outcome_bind].
  by apply (for_nodes_quiet body g (nodes g) []).
Qed.

Lemma keeping_iterator_quiet (body : Graph -> nat -> outcome Graph)
    (g : Graph) (id : nat) :
  body g id = Ok g -> keeping_iterator body g id = Ok (g, Some id).
Proof. intros H. unfold keeping_iterator. by rewrite H. Qed.

(** *** Each pass at a node of another kind *)

Section other_kinds.
Context (g : Graph) (n : Node).
Hypothesis Hat : node_at g (unique n) = Ok n.

Lemma pushPackingPastRnn_body_other (registered : use_order) :
  kind n <> prim_PackPadded ->
  pushPackingPastRnn_body registered g (unique n) = Ok (g, Some (unique n)).
Proof.
  intros Hk. unfold pushPackingPastRnn_body. rewrite Hat.
  cbn [mbind outcome_bind]. by rewrite bool_decide_eq_false_2.
Qed.

Lemma removeNopPacking_body_other :
  kind n <> prim_PadPacked ->
  removeNopPacking_body g (unique n) = Ok (g, Some (unique n)).
Proof.
  intros Hk. unfold removeNopPacking_body. rewrite Hat.
  cbn [mbind outcome_bind]. by rewrite bool_decide_eq_false_2.
Qed.

Lemma fixDefaultRnnHiddenState_body_other :
  isRNN n = false -> fixDefaultRnnHiddenState_body g (unique n) = Ok g.
Proof.
  intros Hk. unfold fixDefaultRnnHiddenState_body. rewrite Hat.
  cbn [mbind outcome_bind]. by rewrite Hk.
Qed.

Lemma fixDefaultLstmCellState_body_other :
  kind n <> onnx_LSTM -> fixDefaultLstmCellState_body g (unique n) = Ok g.
Proof.
  intros Hk. unfold fixDefaultLstmCellState_body. rewrite Hat.
  cbn [mbind outcome_bind]. by rewrite bool_decide_eq_false_2.
Qed.

Lemma fuseBroadcast_body_other :
  isBroadcasting n = false -> fuseBroadcast_body g (unique n) = Ok g.
Proof.
  intros Hk. unfold fuseBroadcast_body. rewrite Hat.
  cbn [mbind outcome_bind]. by rewrite Hk.
Qed.

Lemma fuseConsecutiveTransposes_body_other :
  kind n <> onnx_Transpose -> fuseConsecutiveTransposes_body g (unique n) = Ok g.
Proof.
  intros Hk. unfold fuseConsecutiveTransposes_body. rewrite Hat.
  cbn [mbind outcome_bind]. by rewrite bool_decide_eq_false_2.
Qed.

Lemma eliminateNopTranspose_body_other :
  kind n <> onnx_Transpose ->
  eliminateNopTranspose_body g (unique n) = Ok (g, Some (unique n)).
Proof.
  intros Hk. unfold eliminateNopTranspose_body. rewrite Hat.
  cbn [mbind outcome_bind]. by rewrite bool_decide_eq_false_2.
Qed.

Lemma fuseTransposeIntoGemm_body_other :
  kind n <> onnx_Gemm -> fuseTransposeIntoGemm_body g (unique n) = Ok g.
Proof.
  intros Hk. unfold fuseTransposeIntoGemm_body. rewrite Hat.
  cbn [mbind outcome_bind]. by rewrite bool_decide_eq_false_2.
Qed.
End other_kinds.

Lemma not_rewritten_kind (n : Node) :
  kind n ∉ rewritten_kinds ->
  kind n <> prim_PackPadded /\ kind n <> prim_PadPacked /\ isRNN n = false
  /\ kind n <> onnx_LSTM /\ isBroadcasting n = false
  /\ kind n <> onnx_Transpose /\ kind n <> onnx_Gemm.
Proof.
  unfold rewritten_kinds, isRNN, isBroadcasting. intros Hk.
  repeat (apply not_elem_of_cons in Hk as [? Hk]).
  repeat split; try done.
  - by rewrite !bool_decide_eq_false_2.
  - apply bool_decide_eq_false_2. intros Hin.
    repeat (apply elem_of_cons in Hin as [?|Hin]; [done|]).
    by apply elem_of_nil in Hin.
Qed.

(** X10.  The pipeline rewrites at packing and unpacking nodes, recurrent
    nodes, the six broadcasting operators and transposes only: a graph
    with distinct nodes that holds none of these comes back as it was, from
    all eight passes, and no pass stops on an error. *)
Theorem PeepholeOptimizeONNX_other_kinds (registered : use_order) (g : Graph) :
  graph_ok g ->
  Forall (fun n => kind n ∉ rewritten_kinds) (nodes g) ->
  PeepholeOptimizeONNX registered g = Ok g.
Proof.
  intros Hok Hkinds. rewrite Forall_forall in Hkinds.
  assert (Hat : forall n, n ∈ nodes g -> node_at g (unique n) = Ok n)
    by (intros n Hn; by apply in_nodes_node_at).
  assert (Hk : forall n, n ∈ nodes g ->
    kind n <> prim_PackPadded /\ kind n <> prim_PadPacked /\ isRNN n = false
    /\ kind n <> onnx_LSTM /\ isBroadcasting n = false
    /\ kind n <> onnx_Transpose /\ kind n <> onnx_Gemm)
    by (intros n Hn; apply not_rewritten_kind; by apply Hkinds).
  unfold PeepholeOptimizeONNX.
  assert (H1 : pushPackingPastRnn registered g = Ok g).
  { unfold pushPackingPastRnn. apply pass_quiet; [done| |nia].
    intros n Hn. apply pushPackingPastRnn_body_other; [by apply Hat|].
    by apply Hk. }
  assert (H2 : removeNopPacking g = Ok g).
  { unfold removeNopPacking. apply pass_quiet; [done| |lia].
    intros n Hn. apply removeNopPacking_body_other; [by apply Hat|].
    by apply Hk. }
  assert (H3 : fixDefaultRnnHiddenState g = Ok g).
  { unfold fixDefaultRnnHiddenState. apply pass_quiet; [done| |lia].
    intros n Hn. apply keeping_iterator_quiet.
    apply fixDefaultRnnHiddenState_body_other; [by apply Hat|]. by apply Hk. }
  assert (H4 : fixDefaultLstmCellState g = Ok g).
  { unfold fixDefaultLstmCellState. apply pass_quiet; [done| |lia].
    intros n Hn. apply keeping_iterator_quiet.
    apply fixDefaultLstmCellState_body_other; [by apply Hat|]. by apply Hk. }
  assert (H5 : fuseBroadcast g = Ok g).
  { unfold fuseBroadcast. apply pass_quiet; [done| |lia].
    intros n Hn. apply keeping_iterator_quiet.
    apply fuseBroadcast_body_other; [by apply Hat|]. by apply Hk. }
  assert (H6 : fuseConsecutiveTransposes g = Ok g).
  { unfold fuseConsecutiveTransposes. apply pass_quiet; [done| |lia].
    intros n Hn. apply keeping_iterator_quiet.
    apply fuseConsecutiveTransposes_body_other; [by apply Hat|]. by apply Hk. }
  assert (H7 : eliminateNopTranspose g = Ok g).
  { unfold eliminateNopTranspose. apply pass_quiet; [done| |lia].
    intros n Hn. apply eliminateNopTranspose_body_other; [by apply Hat|].
    by apply Hk. }
  assert (H8 : fuseTransposeIntoGemm g = Ok g).
  { unfold fuseTransposeIntoGemm. apply pass_quiet; [done| |lia].
    intros n Hn. apply keeping_iterator_quiet.
    apply fuseTransposeIntoGemm_body_other; [by apply Hat|]. by apply Hk. }
  rewrite H1. cbn [mbind outcome_bind]. rewrite H2. cbn [mbind outcome_bind].
  rewrite H3. cbn [mbind outcome_bind]. rewrite H4. cbn [mbind outcome_bind].
  rewrite H5. cbn [mbind outcome_bind]. rewrite H6. cbn [mbind outcome_bind].
  rewrite H7. cbn [mbind outcome_bind]. exact H8.
Qed.

(** ** What [fuseBroadcast] does at a candidate *)

Lemma update_node_ext (g : Graph) (n : Node) (f f' : Node -> Node) :
  graph_ok g -> n ∈ all_nodes g -> f n = f' n ->
  update_node (unique n) f g = update_node (unique n) f' g.
Proof.
  intros Hok Hn Hf.
  assert (Hh : forall m, m ∈ all_nodes g ->
            only_at (unique n) f m = only_at (unique n) f' m).
  { intros m Hm. unfold only_at, has_unique. case_bool_decide as Hid; [|done].
    by rewrite (same_unique_same_node g m n Hok Hm Hn Hid). }
  unfold update_node, map_nodes. f_equal.
  - apply Hh, input_in_all_nodes.
  - apply list_fmap_ext. intros i m Hm. apply Hh, elem_of_all_nodes.
    by eapply list_elem_of_lookup_2.
  - apply Hh, output_in_all_nodes.
Qed.

Lemma node_at_update_other (g : Graph) (id : nat) (f : Node -> Node) (m : Node) :
  (forall k, unique (f k) = unique k) -> graph_ok g ->
  node_at g (unique m) = Ok m -> unique m <> id ->
  node_at (update_node id f g) (unique m) = Ok m.
Proof.
  intros Hf Hok Hat Hne.
  rewrite (node_at_update_node (unique m) id f g m Hf Hok Hat).
  by rewrite only_at_other.
Qed.

Lemma node_at_update_same (g : Graph) (f : Node -> Node) (n : Node) :
  (forall k, unique (f k) = unique k) -> graph_ok g ->
  node_at g (unique n) = Ok n ->
  node_at (update_node (unique n) f g) (unique n) = Ok (f n).
Proof.
  intros Hf Hok Hat.
  rewrite (node_at_update_node (unique n) (unique n) f g n Hf Hok Hat).
  by rewrite only_at_same.
Qed.

Lemma setAttribute_at (g : Graph) (id : nat) (n : Node) (name : string)
    (a : AttributeValue) :
  node_at g id = Ok n ->
  setAttribute g id name a = Ok (update_node id (set_attr name a) g).
Proof. intros Hat. unfold setAttribute. by rewrite Hat. Qed.

Lemma replaceInput_at (g : Graph) (id : nat) (n : Node) (i : nat) (new : Value) :
  node_at g id = Ok n -> (i < length (inputs n))%nat ->
  replaceInput g id i new
  = Ok (update_node id (fun n => set_inputs (<[i := new]> (inputs n)) n) g).
Proof.
  intros Hat Hi. unfold replaceInput. rewrite Hat. simpl.
  by rewrite bool_decide_eq_true_2.
Qed.

(** The end of a rewrite: the node [e] is destroyed when its one output is
    left without uses. *)
Lemma destroy_if_unused (g : Graph) (e : Node) (ty : option (list Z)) :
  node_at g (unique e) = Ok e -> output_types e = [ty] ->
  (if bool_decide (length (uses g (mkValue (unique e) 0)) = 0%nat)
   then destroy g (unique e) else Ok g)
  = Ok (if decide (uses g (mkValue (unique e) 0) = [])
        then without_node (unique e) g else g).
Proof.
  intros Hat Hty.
  destruct (decide (uses g (mkValue (unique e) 0) = [])) as [He|He].
  - rewrite He. simpl. rewrite destroy_unused; [done|done|].
    by rewrite (Node_hasUses_single _ _ ty), He.
  - rewrite bool_decide_eq_false_2; [done|].
    intros Hl. apply He. by apply nil_length_inv.
Qed.

(** X11.  At a candidate whose last input is the output of an expand with
    both shapes known, the pass follows the answer of the fusability check:
    on "not fusable" the graph is returned as it was; on "fusable" the
    candidate reads the input of the expand, gets [broadcast = 1] and the
    axis when one is given, and the expand is deleted when, and only when,
    its output is left without uses. *)
Theorem fuseBroadcast_fuses
    (g : Graph) (n e : Node) (w : Value) (from to : list Z)
    (fusable : bool) (axis : option Z) :
  graph_ok g ->
  n ∈ nodes g -> e ∈ nodes g -> unique e <> unique n ->
  fusion_candidate n ->
  last (inputs n) = Some (mkValue (unique e) 0) ->
  kind e = aten_expand -> inputs e = [w] -> output_types e = [Some to] ->
  Value_type g w = Ok (Some from) ->
  fusibleExpandTo from to = Ok (fusable, axis) ->
  let fused := update_node (unique n) (broadcast_fused w axis) g in
  fuseBroadcast_body g (unique n)
  = Ok (if fusable then
          if decide (uses fused (mkValue (unique e) 0) = [])
          then without_node (unique e) fused
          else fused
        else g).
Proof.
  intros Hok Hn He Hne (Hb & Hal & Hax) Hlast Hke Hie Hoe Hty Hfus fused.
  pose proof (in_nodes_node_at _ _ Hok Hn) as Hat.
  pose proof (in_nodes_node_at _ _ Hok He) as Hate.
  unfold fuseBroadcast_body. rewrite Hat. cbn [mbind outcome_bind].
  rewrite Hb, Hal. cbn [negb mbind outcome_bind].
  rewrite Hax. cbn [negb JIT_ASSERT mbind outcome_bind].
  set (i := (length (inputs n) - 1)%nat).
  assert (Hi : (i < length (inputs n))%nat).
  { unfold i. destruct (inputs n); [done|simpl; lia]. }
  assert (Hrhs : Node_inputs_at n i = Ok (mkValue (unique e) 0)).
  { unfold Node_inputs_at. rewrite last_lookup in Hlast.
    replace i with (pred (length (inputs n))) by (unfold i; lia).
    by rewrite Hlast. }
  rewrite Hrhs. cbn [mbind outcome_bind].
  unfold Value_node at 1. cbn [producer]. rewrite Hate. cbn [mbind outcome_bind].
  rewrite Hke, bool_decide_eq_true_2 by done. cbn [negb].
  unfold Node_input. rewrite Hie. cbn [mbind outcome_bind].
  unfold Value_isTensor, Value_expect_sizes. rewrite Hty. cbn [mbind outcome_bind].
  rewrite bool_decide_eq_true_2 by by eexists. cbn [negb].
  unfold Node_output. rewrite Hoe. cbn [mbind outcome_bind].
  unfold Value_type, Value_node. cbn [producer offset]. rewrite Hate.
  cbn [mbind outcome_bind]. rewrite Hoe. cbn [lookup list_lookup mbind outcome_bind].
  rewrite Hfus. cbn [mbind outcome_bind].
  destruct fusable; cbn [negb]; [|done].
  (* the three edits of the candidate *)
  set (f1 := fun k : Node => set_inputs (<[i := w]> (inputs k)) k).
  set (f2 := set_attr attr_broadcast (IntAttr 1)).
  assert (Hu1 : forall k, unique (f1 k) = unique k) by done.
  assert (Hu2 : forall k, unique (f2 k) = unique k) by done.
  rewrite replaceInput_Ok by done. cbn [mbind outcome_bind]. fold f1.
  pose proof (node_at_update_same g f1 n Hu1 Hok Hat) as Hat1.
  rewrite (setAttribute_at _ _ (f1 n)) by done.
  cbn [mbind outcome_bind]. fold f2.
  rewrite update_node_compose by done.
  assert (Hat2 : node_at (update_node (unique n) (f2 ∘ f1) g) (unique n)
                 = Ok (f2 (f1 n))).
  { by apply (node_at_update_same g (f2 ∘ f1) n). }
  assert (Hfused : fused
    = match axis with
      | Some a => update_node (unique n) (set_attr attr_axis (IntAttr a))
                    (update_node (unique n) (f2 ∘ f1) g)
      | None => update_node (unique n) (f2 ∘ f1) g
      end).
  { unfold fused. destruct axis as [a|].
    - rewrite update_node_compose by done.
      apply update_node_ext; [done|by apply elem_of_all_nodes|done].
    - apply update_node_ext; [done|by apply elem_of_all_nodes|done]. }
  assert (Hset : (match axis with
                  | Some a => setAttribute (update_node (unique n) (f2 ∘ f1) g)
                                (unique n) attr_axis (IntAttr a)
                  | None => Ok (update_node (unique n) (f2 ∘ f1) g)
                  end) = Ok fused).
  { rewrite Hfused. destruct axis as [a|]; [|done].
    by rewrite (setAttribute_at _ _ (f2 (f1 n))). }
  rewrite Hset. cbn [mbind outcome_bind].
  assert (Hate' : node_at fused (unique e) = Ok e).
  { unfold fused. apply node_at_update_other; try done.
    intros k. unfold broadcast_fused. by destruct axis. }
  rewrite Hate'. cbn [mbind outcome_bind].
  rewrite (Node_hasUses_single _ _ (Some to)) by done.
  rewrite negb_involutive.
  destruct (decide (uses fused (mkValue (unique e) 0) = [])) as [Hu|Hu].
  - rewrite bool_decide_eq_true_2 by done.
    rewrite destroy_unused; [done|done|].
    by rewrite (Node_hasUses_single _ _ (Some to)), Hu.
  - by rewrite bool_decide_eq_false_2.
Qed.

(** X12.  A broadcasting node that does not broadcast yet but carries an
    axis attribute stops the pass on the assertion, before its inputs are
    looked at. *)
Theorem fuseBroadcast_axis_without_broadcast (g : Graph) (n : Node) :
  graph_ok g -> n ∈ nodes g ->
  isBroadcasting n = true -> already_broadcasts n = Ok false ->
  hasAttribute n attr_axis = true ->
  fuseBroadcast_body g (unique n) = Err AssertFailed.
Proof.
  intros Hok Hn Hb Hal Hax. unfold fuseBroadcast_body.
  rewrite (in_nodes_node_at _ _ Hok Hn). cbn [mbind outcome_bind].
  rewrite Hb, Hal. cbn [negb mbind outcome_bind]. by rewrite Hax.
Qed.

(** ** What [fuseTransposeIntoGemm] does at a Gemm node *)

Lemma flipped_trans_spec (n : Node) (trans : string) (flag : Z) :
  flipped (attrs n !! trans) = Some flag -> flipped_trans n trans = Ok flag.
Proof.
  unfold flipped, flipped_trans, hasAttribute, Node_i.
  destruct (attrs n !! trans) as [[b| | | ]|] eqn:Ha; try done.
  - intros [= <-]. by rewrite bool_decide_eq_true_2 by by eexists.
  - intros [= <-]. rewrite bool_decide_eq_false_2; [done|]. by intros [? ?].
Qed.

(** One round of the inner loop where it finds a transpose by [1,0]. *)
Lemma fuseTransposeIntoGemm_at_fuses
    (g : Graph) (n t : Node) (w : Value) (i : nat) (ty : option (list Z))
    (flag : Z) :
  graph_ok g -> n ∈ all_nodes g -> t ∈ all_nodes g -> unique t <> unique n ->
  inputs n !! i = Some (mkValue (unique t) 0) ->
  kind t = onnx_Transpose -> attrs t !! attr_perm = Some (IntsAttr [1; 0]) ->
  inputs t = [w] -> output_types t = [ty] ->
  flipped (attrs n !! trans_attr i) = Some flag ->
  let fused := update_node (unique n) (gemm_fused i w flag) g in
  fuseTransposeIntoGemm_at g (unique n) i
  = Ok (if decide (uses fused (mkValue (unique t) 0) = [])
        then without_node (unique t) fused
        else fused).
Proof.
  intros Hok Hn Ht Hne Hin Hkt Hperm Hit Hot Hflag fused.
  pose proof (node_at_elem _ _ Hok Hn) as Hat.
  pose proof (node_at_elem _ _ Hok Ht) as Hatt.
  unfold fuseTransposeIntoGemm_at. rewrite Hat. cbn [mbind outcome_bind].
  unfold Node_inputs_at. rewrite Hin. cbn [mbind outcome_bind].
  unfold Value_node. cbn [producer]. rewrite Hatt. cbn [mbind outcome_bind].
  rewrite Hkt, bool_decide_eq_true_2 by done. cbn [negb].
  unfold Node_is. rewrite Hperm. cbn [mbind outcome_bind].
  rewrite bool_decide_eq_true_2 by done. cbn [negb].
  unfold Node_input. rewrite Hit. cbn [mbind outcome_bind].
  set (f1 := fun k : Node => set_inputs (<[i := w]> (inputs k)) k).
  assert (Hu1 : forall k, unique (f1 k) = unique k) by done.
  rewrite (replaceInput_at _ _ n) by (done || by eapply lookup_lt_Some).
  cbn [mbind outcome_bind]. fold f1.
  pose proof (node_at_update_same g f1 n Hu1 Hok Hat) as Hat1.
  rewrite Hat1. cbn [mbind outcome_bind].
  rewrite (flipped_trans_spec (f1 n) _ flag) by done. cbn [mbind outcome_bind].
  rewrite (setAttribute_at _ _ (f1 n)) by done. cbn [mbind outcome_bind].
  rewrite update_node_compose by done.
  change (update_node (unique n) (set_attr (trans_attr i) (IntAttr flag) ∘ f1) g)
    with fused.
  apply (destroy_if_unused fused t ty); [|done].
  unfold fused. by apply node_at_update_other.
Qed.

Lemma graph_ok_without_node (g : Graph) (id : nat) :
  graph_ok g -> graph_ok (without_node id g).
Proof.
  unfold graph_ok, all_nodes, without_node, set_nodes. cbn [input_ nodes output_].
  intros Hnd. eapply sublist_NoDup; [exact Hnd|].
  apply fmap_sublist, sublist_skip, sublist_app; [|done].
  apply sublist_filter.
Qed.

Lemma elem_of_all_nodes_without (g : Graph) (id : nat) (m : Node) :
  m ∈ all_nodes g -> unique m <> id -> m ∈ all_nodes (without_node id g).
Proof.
  unfold all_nodes, without_node, set_nodes. cbn [input_ nodes output_].
  intros Hm Hne. apply elem_of_cons in Hm as [->|Hm]; [apply elem_of_cons; by left|].
  apply elem_of_cons. right.
  apply elem_of_app in Hm as [Hm|Hm]; apply elem_of_app; [left|by right].
  by apply list_elem_of_filter.
Qed.

Lemma node_at_without_node (g : Graph) (id : nat) (m : Node) :
  graph_ok g -> m ∈ all_nodes g -> unique m <> id ->
  node_at (without_node id g) (unique m) = Ok m.
Proof.
  intros Hok Hm Hne. apply node_at_elem; [by apply graph_ok_without_node|].
  by apply elem_of_all_nodes_without.
Qed.

(** A round of the inner loop at an input that no transpose produces. *)
Lemma fuseTransposeIntoGemm_at_other
    (g : Graph) (n p : Node) (v : Value) (i : nat) :
  node_at g (unique n) = Ok n -> inputs n !! i = Some v ->
  node_at g (producer v) = Ok p -> kind p <> onnx_Transpose ->
  fuseTransposeIntoGemm_at g (unique n) i = Ok g.
Proof.
  intros Hat Hin Hp Hk. unfold fuseTransposeIntoGemm_at.
  rewrite Hat. cbn [mbind outcome_bind].
  unfold Node_inputs_at. rewrite Hin. cbn [mbind outcome_bind].
  unfold Value_node. rewrite Hp. cbn [mbind outcome_bind].
  by rewrite bool_decide_eq_false_2.
Qed.

(** X13.  At a Gemm node one of whose first two inputs is the output of a
    transpose by [1,0], the other being produced by no transpose, the pass
    has the Gemm read the input of the transpose and flips the flag of that
    input ([transA] for input 0, [transB] for input 1): 1 when the flag was
    absent or 0, 0 when it was set.  The transpose is deleted when, and
    only when, its output is left without uses. *)
Theorem fuseTransposeIntoGemm_fuses
    (g : Graph) (n t p : Node) (w other : Value) (i : nat)
    (ty : option (list Z)) (flag : Z) :
  graph_ok g -> n ∈ nodes g -> t ∈ all_nodes g -> p ∈ all_nodes g ->
  unique t <> unique n -> unique p <> unique n ->
  kind n = onnx_Gemm -> (i = 0 \/ i = 1)%nat ->
  inputs n !! i = Some (mkValue (unique t) 0) ->
  inputs n !! (1 - i)%nat = Some other ->
  producer other = unique p -> kind p <> onnx_Transpose ->
  kind t = onnx_Transpose -> attrs t !! attr_perm = Some (IntsAttr [1; 0]) ->
  inputs t = [w] -> output_types t = [ty] ->
  flipped (attrs n !! trans_attr i) = Some flag ->
  let fused := update_node (unique n) (gemm_fused i w flag) g in
  fuseTransposeIntoGemm_body g (unique n)
  = Ok (if decide (uses fused (mkValue (unique t) 0) = [])
        then without_node (unique t) fused
        else fused).
Proof.
  intros Hok Hn Ht Hp Hnet Hnep Hkn Hi Hin Hother Hprod Hkp Hkt Hperm Hit Hot
    Hflag fused.
  pose proof (in_nodes_node_at _ _ Hok Hn) as Hat.
  pose proof (node_at_elem _ _ Hok Hp) as Hatp.
  pose proof (fuseTransposeIntoGemm_at_fuses g n t w i ty flag Hok
                (elem_of_all_nodes _ _ Hn) Ht Hnet Hin Hkt Hperm Hit Hot Hflag)
    as Hfuse.
  fold fused in Hfuse.
  unfold fuseTransposeIntoGemm_body. rewrite Hat. cbn [mbind outcome_bind].
  rewrite Hkn, bool_decide_eq_true_2 by done. cbn [negb].
  destruct Hi as [-> | ->]; cbn [Nat.sub] in Hother.
  - (* the transpose feeds input 0; input 1 is looked at in the new graph *)
    rewrite Hfuse. cbn [mbind outcome_bind].
    set (g1 := if decide (uses fused (mkValue (unique t) 0) = [])
               then without_node (unique t) fused else fused).
    assert (Hu : forall k, unique (gemm_fused 0 w flag k) = unique k) by done.
    assert (Hokf : graph_ok fused) by by apply graph_ok_update_node.
    assert (Hnf : node_at fused (unique n) = Ok (gemm_fused 0 w flag n))
      by by apply node_at_update_same.
    assert (Hpf : node_at fused (unique p) = Ok p)
      by by apply node_at_update_other.
    assert (Hn1 : node_at g1 (unique n) = Ok (gemm_fused 0 w flag n)).
    { unfold g1. case_decide; [|done].
      apply node_at_Ok in Hnf as [Hnf _].
      apply (node_at_without_node fused (unique t) _ Hokf Hnf). simpl.
      intros Heq. by apply Hnet. }
    assert (Hp1 : node_at g1 (unique p) = Ok p).
    { unfold g1. case_decide; [|done].
      apply node_at_Ok in Hpf as [Hpf _].
      apply (node_at_without_node fused (unique t) _ Hokf Hpf).
      intros Heq. apply Hkp.
      rewrite (same_unique_same_node g p t Hok Hp Ht Heq). done. }
    apply (fuseTransposeIntoGemm_at_other g1 (gemm_fused 0 w flag n) p other 1);
      [exact Hn1| |by rewrite Hprod|done].
    unfold gemm_fused. cbn [inputs set_attr set_inputs].
    by rewrite list_lookup_insert_ne.
  - (* input 0 is left alone; the transpose feeds input 1 *)
    rewrite (fuseTransposeIntoGemm_at_other g n p other 0);
      [|done|done|by rewrite Hprod|done].
    cbn [mbind outcome_bind]. exact Hfuse.
Qed.

(** ** What [removeNopPacking] does at an unpacking node *)

Lemma destroyCurrent_middle (g : Graph) (a b : list Node) (m : Node) :
  graph_ok g -> nodes g = a ++ m :: b -> Node_hasUses g m = false ->
  destroyCurrent g (unique m) = Ok (set_nodes (a ++ b) g, unique <$> last a).
Proof.
  intros Hok Hn Hu. pose proof (graph_ok_nodes _ Hok) as Hnd. rewrite Hn in Hnd.
  unfold destroyCurrent. rewrite Hn, pred_in_middle by done.
  cbn [mbind outcome_bind].
  rewrite destroy_unused; [|by apply (node_at_in g a b)|done].
  cbn [mbind outcome_bind]. rewrite Hn, filter_out_middle by done.
  by destruct (last a).
Qed.

Lemma uses_nil_update_inputs (g : Graph) (id : nat) (v : Value) :
  uses g v = [] -> uses (update_node id (set_inputs []) g) v = [].
Proof.
  rewrite !uses_nil. intros H k Hk. rewrite all_nodes_update_node in Hk.
  apply list_elem_of_fmap in Hk as (k0 & -> & Hk0).
  unfold only_at. destruct (has_unique id k0); [|by apply H].
  cbn [set_inputs inputs]. apply not_elem_of_nil.
Qed.

Lemma uses_replaced_twice_nil (g : Graph) (a b a' b' v : Value) :
  a' <> v -> b' <> v -> (v = a \/ v = b) ->
  uses (Value_replaceAllUsesWith (Value_replaceAllUsesWith g a a') b b') v = [].
Proof.
  intros Ha Hb Hv. apply uses_nil. intros k Hk Hin.
  rewrite !Value_replaceAllUsesWith_rewire, !all_nodes_map_nodes in Hk.
  apply list_elem_of_fmap in Hk as (k1 & -> & Hk).
  apply list_elem_of_fmap in Hk as (k0 & -> & _).
  unfold rewire, set_inputs in Hin. cbn [inputs] in Hin.
  apply list_elem_of_fmap in Hin as (w1 & Hw1 & Hin).
  apply list_elem_of_fmap in Hin as (w0 & -> & _).
  unfold rename_value in Hw1. repeat case_decide; destruct Hv; congruence.
Qed.

Lemma without_node_set_nodes (g : Graph) (a b : list Node) (m : Node) :
  graph_ok g -> nodes g = a ++ m :: b ->
  without_node (unique m) g = set_nodes (a ++ b) g.
Proof.
  intros Hok Hn. pose proof (graph_ok_nodes _ Hok) as Hnd. rewrite Hn in Hnd.
  unfold without_node. by rewrite Hn, filter_out_middle.
Qed.

(** The step of the loop at an unpacking node that reads the two outputs
    of one packing node. *)
Lemma removeNopPacking_body_run
    (g : Graph) (pre post : list Node) (n pack : Node) (padded lengths : Value)
    (u0 u1 : option (list Z)) :
  graph_ok g -> nodes g = pre ++ n :: post -> pack ∈ all_nodes g ->
  kind n = prim_PadPacked -> kind pack = prim_PackPadded ->
  inputs n !! 0%nat = Some (mkValue (unique pack) 0) ->
  inputs n !! 1%nat = Some (mkValue (unique pack) 1) ->
  output_types n = [u0; u1] ->
  (2 <= length (output_types pack))%nat ->
  inputs pack !! 0%nat = Some padded -> inputs pack !! 1%nat = Some lengths ->
  producer padded <> unique n -> producer lengths <> unique n ->
  let rewired :=
    Value_replaceAllUsesWith
      (Value_replaceAllUsesWith g (mkValue (unique n) 0) padded)
      (mkValue (unique n) 1) lengths in
  let g' := without_node (unique n) rewired in
  removeNopPacking_body g (unique n) = Ok (g', unique <$> last pre)
  /\ it_next g' (unique <$> last pre) = Ok (unique <$> head post)
  /\ uses g' (mkValue (unique n) 0) = []
  /\ uses g' (mkValue (unique n) 1) = []
  /\ unique <$> nodes g' = unique <$> (pre ++ post).
Proof.
  intros Hok Hn Hpack Hkn Hkp Hin0 Hin1 Hout Hpo Hp0 Hp1 Hpad Hlen rewired g'.
  set (o0 := mkValue (unique n) 0) in *. set (o1 := mkValue (unique n) 1) in *.
  set (r1 := rename_value o0 padded). set (r2 := rename_value o1 lengths).
  set (R := fun k : Node => rewire r2 (rewire r1 k)).
  assert (Hrew : rewired = map_nodes R g).
  { unfold rewired. rewrite !Value_replaceAllUsesWith_rewire.
    unfold map_nodes. cbn [input_ nodes output_ next_unique].
    by rewrite <- list_fmap_compose. }
  assert (Hokr : graph_ok rewired).
  { unfold rewired. rewrite !Value_replaceAllUsesWith_rewire.
    by do 2 apply graph_ok_rewire. }
  assert (Hnr : nodes rewired = (R <$> pre) ++ R n :: (R <$> post)).
  { rewrite Hrew. cbn [map_nodes nodes]. by rewrite Hn, fmap_app, fmap_cons. }
  assert (Hpn : o0 <> padded /\ o1 <> padded /\ o0 <> lengths /\ o1 <> lengths).
  { unfold o0, o1. repeat split; intros Heq;
      [apply Hpad|apply Hpad|apply Hlen|apply Hlen]; by rewrite <- Heq. }
  destruct Hpn as (Hn1 & Hn2 & Hn3 & Hn4).
  assert (Hu0 : uses rewired o0 = []).
  { apply uses_replaced_twice_nil; [done|done|by left]. }
  assert (Hu1 : uses rewired o1 = []).
  { apply uses_replaced_twice_nil; [done|done|by right]. }
  assert (Hg' : g' = set_nodes ((R <$> pre) ++ (R <$> post)) rewired).
  { unfold g'. change (unique n) with (unique (R n)).
    by apply without_node_set_nodes. }
  assert (Huniq : forall l : list Node, unique <$> (R <$> l) = unique <$> l).
  { intros l. rewrite <- list_fmap_compose. by apply list_fmap_ext. }
  split; [|split; [|split; [|split]]].
  - pose proof (node_at_in g pre post n (unique n) Hok Hn eq_refl) as Hat.
    pose proof (node_at_elem _ _ Hok Hpack) as Hatp.
    assert (Hi : forall (m : Node) (i : nat) (v : Value),
              inputs m !! i = Some v -> Node_inputs_at m i = Ok v).
    { intros m i v Hv. unfold Node_inputs_at. by rewrite Hv. }
    assert (Ho : forall (m : Node) (i : nat), (i < length (output_types m))%nat ->
              Node_outputs_at m i = Ok (mkValue (unique m) i)).
    { intros m i Hlt. unfold Node_outputs_at. by rewrite decide_True. }
    assert (Hatp1 : node_at (Value_replaceAllUsesWith g o0 padded) (unique pack)
                    = Ok (rewire r1 pack)).
    { rewrite Value_replaceAllUsesWith_rewire.
      change (unique pack) with (unique (rewire r1 pack)).
      apply node_at_elem; [by apply graph_ok_rewire|].
      rewrite all_nodes_map_nodes. by apply list_elem_of_fmap_2. }
    assert (Hp1' : inputs (rewire r1 pack) !! 1%nat = Some lengths).
    { unfold rewire. cbn [set_inputs inputs]. rewrite list_lookup_fmap, Hp1.
      cbn [fmap option_fmap option_map]. f_equal.
      unfold r1, rename_value. by rewrite decide_False. }
    unfold removeNopPacking_body. rewrite Hat. cbn [mbind outcome_bind].
    rewrite Hkn, bool_decide_eq_true_2 by done. cbn [negb].
    rewrite (Hi n 0%nat _ Hin0). cbn [mbind outcome_bind].
    unfold Value_node. cbn [producer]. rewrite Hatp. cbn [mbind outcome_bind].
    rewrite Hkp, bool_decide_eq_true_2 by done. cbn [negb].
    rewrite (Ho pack 0%nat) by lia. cbn [mbind outcome_bind].
    rewrite bool_decide_eq_true_2 by done. cbn [negb].
    rewrite (Ho pack 1%nat) by lia. cbn [mbind outcome_bind].
    rewrite (Hi n 1%nat _ Hin1). cbn [mbind outcome_bind].
    rewrite bool_decide_eq_true_2 by done. cbn [negb].
    rewrite (Ho n 0%nat) by (rewrite Hout; simpl; lia). cbn [mbind outcome_bind].
    rewrite (Hi pack 0%nat _ Hp0). cbn [mbind outcome_bind].
    rewrite (Ho n 1%nat) by (rewrite Hout; simpl; lia). cbn [mbind outcome_bind].
    fold o0 o1. rewrite Hatp1. cbn [mbind outcome_bind].
    rewrite (Hi _ 1%nat _ Hp1'). cbn [mbind outcome_bind]. fold rewired.
    assert (Hatn : node_at rewired (unique n) = Ok (R n)).
    { by apply (node_at_in rewired (R <$> pre) (R <$> post)). }
    unfold removeAllInputs. rewrite Hatn. cbn [mbind outcome_bind].
    rewrite (update_node_at rewired (R <$> pre) (R <$> post) (R n)) by done.
    set (g3 := set_nodes ((R <$> pre) ++ set_inputs [] (R n) :: (R <$> post))
                 rewired).
    assert (Hg3 : g3 = update_node (unique n) (set_inputs []) rewired).
    { unfold g3. by rewrite (update_node_at rewired (R <$> pre) (R <$> post) (R n)). }
    assert (Hok3 : graph_ok g3).
    { rewrite Hg3. by apply graph_ok_update_node. }
    change (unique n) with (unique (set_inputs [] (R n))).
    rewrite (destroyCurrent_middle g3 (R <$> pre) (R <$> post)); [|done|done|].
    + f_equal. f_equal; [by rewrite Hg'|].
      rewrite fmap_last. by destruct (last pre).
    + unfold Node_hasUses, Value_hasUses. cbn [set_inputs output_types unique].
      change (output_types (R n)) with (output_types n). rewrite Hout.
      cbn [length seq existsb]. change (unique (R n)) with (unique n).
      fold o0 o1. rewrite Hg3, !uses_nil_update_inputs by done. done.
  - rewrite Hg'.
    replace (unique <$> last pre) with (unique <$> last (R <$> pre)).
    2:{ rewrite fmap_last. by destruct (last pre). }
    rewrite (it_next_after_removal _ (R <$> pre) (R <$> post)); [|done|].
    + by destruct post.
    + cbn [set_nodes nodes]. rewrite fmap_app, !Huniq.
      pose proof (graph_ok_nodes _ Hok) as Hnd.
      rewrite Hn, fmap_app, fmap_cons in Hnd.
      apply NoDup_app in Hnd as (H1 & H2 & H3).
      apply NoDup_cons in H3 as [_ H3].
      apply NoDup_app. split; [done|]. split; [|done].
      intros x Hx Hx'. apply (H2 x Hx). apply elem_of_cons. by right.
  - by apply uses_without_node_nil.
  - by apply uses_without_node_nil.
  - rewrite Hg'. cbn [set_nodes nodes]. by rewrite !fmap_app, !Huniq.
Qed.

(** X14.  At an unpacking node whose first two inputs are the two outputs
    of one packing node, every use of its two outputs is retargeted to the
    inputs of the packing node, the unpacking node is deleted and the
    iteration goes on at the node that followed.  The packing node is left
    in the graph. *)
Theorem removeNopPacking_body_removes
    (g : Graph) (pre post : list Node) (n pack : Node) (padded lengths : Value)
    (u0 u1 : option (list Z)) :
  graph_ok g -> nodes g = pre ++ n :: post -> pack ∈ all_nodes g ->
  kind n = prim_PadPacked -> kind pack = prim_PackPadded ->
  inputs n !! 0%nat = Some (mkValue (unique pack) 0) ->
  inputs n !! 1%nat = Some (mkValue (unique pack) 1) ->
  output_types n = [u0; u1] ->
  (2 <= length (output_types pack))%nat ->
  inputs pack !! 0%nat = Some padded -> inputs pack !! 1%nat = Some lengths ->
  producer padded <> unique n -> producer lengths <> unique n ->
  let rewired :=
    Value_replaceAllUsesWith
      (Value_replaceAllUsesWith g (mkValue (unique n) 0) padded)
      (mkValue (unique n) 1) lengths in
  let g' := without_node (unique n) rewired in
  removeNopPacking_body g (unique n) = Ok (g', unique <$> last pre)
  /\ it_next g' (unique <$> last pre) = Ok (unique <$> head post)
  /\ uses g' (mkValue (unique n) 0) = []
  /\ uses g' (mkValue (unique n) 1) = []
  /\ unique <$> nodes g' = unique <$> (pre ++ post).
Proof.
  intros Hok Hn Hpack Hkn Hkp Hin0 Hin1 Hout Hpo Hp0 Hp1 Hpad Hlen.
  by apply (removeNopPacking_body_run g pre post n pack padded lengths u0 u1).
Qed.


(** ** States the graph provides are left alone *)

Lemma fixDefaultRNNState_provided (g : Graph) (n : Node) (input_index : nat) :
  node_at g (unique n) = Ok n -> provided_state g n input_index ->
  fixDefaultRNNState g (unique n) input_index = Ok g.
Proof.
  intros Hat (s & p & Hs & Hp & Hk & Hslice).
  assert (Hi : Node_inputs_at n input_index = Ok s)
    by (unfold Node_inputs_at; by rewrite Hs).
  assert (Hvn : Value_node g s = Ok p) by done.
  unfold fixDefaultRNNState. rewrite Hat. cbn [mbind outcome_bind].
  rewrite Hi. cbn [mbind outcome_bind]. rewrite Hvn. cbn [mbind outcome_bind].
  assert (Hfix : needsFixing g p = Ok false).
  { unfold needsFixing. rewrite bool_decide_eq_false_2 by done.
    case_bool_decide as Hsl; [|done].
    destruct (Hslice Hsl) as (v & q & Hv & Hq & Hkq).
    unfold Node_inputs_at. rewrite Hv. cbn [mbind outcome_bind].
    unfold Value_node. rewrite Hq. cbn [mbind outcome_bind].
    by rewrite bool_decide_eq_false_2. }
  by rewrite Hfix.
Qed.

(** X15.  The two default-state passes replace default states only: on a
    graph in which every recurrent node reads, at input 5 and at input 6
    where it has them, a state that is neither a Constant nor a Slice of a
    Constant, both passes return the graph as it was. *)
Theorem fixDefaultState_keeps_provided (g : Graph) :
  graph_ok g ->
  (forall (n : Node) (i : nat),
     n ∈ nodes g -> isRNN n = true -> i = 5%nat \/ i = 6%nat ->
     (i < length (inputs n))%nat -> provided_state g n i) ->
  fixDefaultRnnHiddenState g = Ok g /\ fixDefaultLstmCellState g = Ok g.
Proof.
  intros Hok Hprov. split.
  - unfold fixDefaultRnnHiddenState. apply pass_quiet; [done| |lia].
    intros n Hn. apply keeping_iterator_quiet.
    pose proof (in_nodes_node_at _ _ Hok Hn) as Hat.
    unfold fixDefaultRnnHiddenState_body. rewrite Hat. cbn [mbind outcome_bind].
    destruct (isRNN n) eqn:Hrnn; cbn [negb]; [|done].
    case_bool_decide as Hlen; [done|].
    apply fixDefaultRNNState_provided; [done|].
    apply Hprov; [done|done|by left|lia].
  - unfold fixDefaultLstmCellState. apply pass_quiet; [done| |lia].
    intros n Hn. apply keeping_iterator_quiet.
    pose proof (in_nodes_node_at _ _ Hok Hn) as Hat.
    unfold fixDefaultLstmCellState_body. rewrite Hat. cbn [mbind outcome_bind].
    case_bool_decide as Hk; cbn [negb]; [|done].
    case_bool_decide as Hlen; [done|].
    apply fixDefaultRNNState_provided; [done|].
    apply Hprov; [done| |by right|lia].
    unfold isRNN. rewrite Hk. done.
Qed.

(** ** The whole run of [eliminateNopTranspose] *)

(** *** Definition before use *)

Lemma value_ok_app (avail x : list Node) (v : Value) :
  value_ok (avail ++ x) v <-> value_ok avail v \/ value_ok x v.
Proof. unfold value_ok. apply Exists_app. Qed.

Lemma value_ok_rewire (r : Value -> Value) (avail : list Node) (v : Value) :
  value_ok (rewire r <$> avail) v <-> value_ok avail v.
Proof. unfold value_ok. by rewrite Exists_fmap. Qed.

Lemma value_ok_elem (avail : list Node) (v : Value) :
  value_ok avail v ->
  exists p, p ∈ avail /\ unique p = producer v
            /\ (offset v < length (output_types p))%nat.
Proof. unfold value_ok. rewrite Exists_exists. naive_solver. Qed.

Lemma defined_before_app (a b avail : list Node) :
  defined_before avail (a ++ b)
  <-> defined_before avail a /\ defined_before (avail ++ a) b.
Proof.
  revert avail. induction a as [|m a IH]; intros avail; simpl.
  - rewrite app_nil_r. tauto.
  - rewrite IH, <- app_assoc. simpl. tauto.
Qed.

(** Renaming the inputs keeps definition before use, when the renaming
    sends what [avail] offers into what [avail'] offers and leaves the
    outputs of the nodes of [l] alone. *)
Lemma defined_before_rel (r : Value -> Value) (l : list Node) :
  forall avail avail' : list Node,
  (forall v, value_ok avail v -> value_ok avail' (r v)) ->
  (forall m v, m ∈ l -> unique m = producer v -> r v = v) ->
  defined_before avail l -> defined_before avail' (rewire r <$> l).
Proof.
  induction l as [|m l IH]; intros avail avail' Hrel Hfix; simpl; [done|].
  intros [Hin Hl]. split.
  - apply Forall_fmap. eapply Forall_impl; [exact Hin|]. exact Hrel.
  - apply (IH (avail ++ [m])).
    + intros v Hv. apply value_ok_app in Hv as [Hv|Hv]; apply value_ok_app.
      * left. by apply Hrel.
      * right. apply value_ok_elem in Hv as (p & Hp & Hu & Ho).
        apply list_elem_of_singleton in Hp as ->.
        rewrite (Hfix m v); [|apply elem_of_cons; by left|done].
        apply Exists_cons. by left.
    + intros m' v Hm'. apply Hfix. apply elem_of_cons. by right.
    + done.
Qed.

(** Deleting a node with one output and one input, after its output has
    been replaced by that input, keeps definition before use. *)
Lemma defined_before_removed (a b : list Node) (t : Node) (up : nat)
    (tn : option (list Z)) :
  NoDup (unique <$> (a ++ t :: b)) ->
  defined_before [] (a ++ t :: b) ->
  inputs t = [mkValue up 0] -> output_types t = [tn] ->
  let r := rename_value (mkValue (unique t) 0) (mkValue up 0) in
  defined_before [] ((rewire r <$> a) ++ (rewire r <$> b)).
Proof.
  intros Hnd Hdef Hin Hout r.
  rewrite fmap_app, fmap_cons in Hnd.
  apply NoDup_app in Hnd as (_ & Hab & Hb). apply NoDup_cons in Hb as [Htb _].
  assert (Hfix : forall (m : Node) (v : Value),
            unique m <> unique t -> unique m = producer v -> r v = v).
  { intros m v Hne Hu. unfold r, rename_value. rewrite decide_False; [done|].
    intros ->. by apply Hne. }
  apply defined_before_app in Hdef as [Ha Hdef]. cbn [defined_before app] in Hdef.
  destruct Hdef as [Ht Hdef]. rewrite Hin in Ht. apply Forall_inv in Ht.
  apply defined_before_app. split.
  - apply (defined_before_rel r a [] []); [|  |done].
    + intros v Hv. by apply Exists_nil in Hv.
    + intros m v Hm. apply Hfix. intros Heq. apply (Hab (unique t)); [|by left].
      rewrite <- Heq. by apply list_elem_of_fmap_2.
  - cbn [app]. apply (defined_before_rel r b (a ++ [t])); [|  |done].
    + intros v Hv. apply value_ok_rewire.
      apply value_ok_app in Hv as [Hv|Hv].
      * pose proof Hv as Hv'. apply value_ok_elem in Hv' as (p & Hp & Hu & _).
        rewrite (Hfix p v); [done| |done].
        intros Heq. apply (Hab (unique t)); [|by left].
        rewrite <- Heq. by apply list_elem_of_fmap_2.
      * apply value_ok_elem in Hv as (p & Hp & Hu & Ho).
        apply list_elem_of_singleton in Hp as ->.
        rewrite Hout in Ho. simpl in Ho.
        assert (v = mkValue (unique t) 0) as ->.
        { destruct v as [pv ov]. simpl in *. f_equal; [done|lia]. }
        unfold r, rename_value. by rewrite decide_True.
    + intros m v Hm. apply Hfix. intros Heq. apply Htb.
      rewrite <- Heq. by apply list_elem_of_fmap_2.
Qed.

(** *** One step of the loop at a transpose by the identity *)

Lemma eliminateNopTranspose_body_step
    (g : Graph) (pre post : list Node) (t p : Node) (v : Value)
    (perm : list Z) (tn tp : option (list Z)) :
  graph_ok g -> nodes g = pre ++ t :: post ->
  kind t = onnx_Transpose -> attrs t !! attr_perm = Some (IntsAttr perm) ->
  isNopTranspose perm = true ->
  inputs t = [v] -> output_types t = [tn] ->
  node_at g (producer v) = Ok p -> output_types p = [tp] ->
  producer v <> unique t ->
  let r := rename_value (mkValue (unique t) 0) (mkValue (producer v) 0) in
  eliminateNopTranspose_body g (unique t)
  = Ok (set_nodes ((rewire r <$> pre) ++ (rewire r <$> post))
          (map_nodes (rewire r) g),
        unique <$> last pre).
Proof.
  intros Hok Hn Hk Hperm Hnop Hin Htn Hp Htp Hne r.
  assert (Hnew : mkValue (producer v) 0 <> mkValue (unique t) 0)
    by (intros [=]; done).
  unfold eliminateNopTranspose_body.
  rewrite (node_at_in g pre post t (unique t)) by done.
  cbn [mbind outcome_bind]. rewrite bool_decide_eq_true_2 by done.
  cbn [negb]. unfold Node_is. rewrite Hperm. cbn [mbind outcome_bind].
  rewrite Hnop. cbn [negb]. unfold Node_input. rewrite Hin.
  cbn [mbind outcome_bind]. unfold Value_node. rewrite Hp.
  cbn [mbind outcome_bind].
  apply node_at_Ok in Hp as [_ Hup].
  unfold Node_replaceAllUsesWith. rewrite Htn, Htp.
  cbn [length seq foldl]. rewrite bool_decide_eq_true_2 by done.
  rewrite Hup. rewrite Value_replaceAllUsesWith_rewire. fold r.
  cbn [JIT_ASSERT mbind outcome_bind].
  change (unique t) with (unique (rewire r t)).
  rewrite (destroyCurrent_middle _ (rewire r <$> pre) (rewire r <$> post)).
  - f_equal. f_equal. rewrite fmap_last. by destruct (last pre).
  - by apply graph_ok_rewire.
  - cbn [map_nodes nodes]. by rewrite Hn, fmap_app, fmap_cons.
  - rewrite (Node_hasUses_single _ _ tn) by done.
    change (unique (rewire r t)) with (unique t).
    rewrite bool_decide_eq_true_2; [done|].
    apply (uses_replaced_nil g (mkValue (unique t) 0) (mkValue (producer v) 0)).
    done.
Qed.

(** *** The loop *)

Lemma for_nodes_None (fuel : nat) (body : Graph -> nat -> outcome (Graph * iterator))
    (g : Graph) : for_nodes fuel body g None = Ok g.
Proof. by destruct fuel. Qed.

Lemma without_nops_quiet (g : Graph) :
  Forall (fun m => is_nop_transpose m = false) (nodes g) -> without_nops g = g.
Proof.
  intros H. unfold without_nops. rewrite filter_all by done. by destruct g.
Qed.

Lemma filter_keep_rewire (r : Value -> Value) (l : list Node) :
  filter (fun m => is_nop_transpose m = false) (rewire r <$> l)
  = rewire r <$> filter (fun m => is_nop_transpose m = false) l.
Proof.
  induction l as [|m l IH]; [done|]. rewrite fmap_cons.
  destruct (is_nop_transpose m) eqn:Hm.
  - rewrite !filter_cons_False; [done|by rewrite Hm|].
    change (is_nop_transpose (rewire r m)) with (is_nop_transpose m).
    by rewrite Hm.
  - rewrite !filter_cons_True; [by rewrite fmap_cons, IH|done|done].
Qed.

(** The graph after the step at [m] and the rest of the run, seen from the
    graph before the step. *)
Lemma without_nops_step (g : Graph) (done rest : list Node) (m : Node)
    (r1 r' : Value -> Value) :
  nodes g = done ++ m :: rest -> is_nop_transpose m = true ->
  without_nops (map_nodes (rewire r')
                  (set_nodes ((rewire r1 <$> done) ++ (rewire r1 <$> rest))
                     (map_nodes (rewire r1) g)))
  = without_nops (map_nodes (rewire (r' ∘ r1)) g).
Proof.
  intros Hn Hm. unfold without_nops, set_nodes, map_nodes.
  cbn [input_ nodes output_ next_unique]. rewrite !rewire_compose. f_equal.
  rewrite Hn, <- !fmap_app, !filter_keep_rewire, <- list_fmap_compose.
  rewrite !filter_app, filter_cons_False by (by rewrite Hm).
  rewrite <- filter_app. apply list_fmap_ext. intros _ k _. apply rewire_compose.
Qed.

Lemma nop_ok_passed (g : Graph) (m : Node) :
  nop_transposes_ok g -> m ∈ nodes g -> is_nop_transpose m = false ->
  passed_over m.
Proof.
  intros Hnop Hm Hk. unfold passed_over.
  destruct (decide (kind m = onnx_Transpose)) as [Ht|Ht]; [right|by left].
  destruct (Hnop m Hm Ht) as (perm & Hp & _). exists perm. split; [done|].
  unfold is_nop_transpose in Hk.
  by rewrite bool_decide_eq_true_2, Hp in Hk by done.
Qed.

Lemma nop_ok_nop (g : Graph) (m : Node) :
  nop_transposes_ok g -> m ∈ nodes g -> is_nop_transpose m = true ->
  kind m = onnx_Transpose
  /\ exists (perm : list Z) (v : Value) (tn : option (list Z)),
       attrs m !! attr_perm = Some (IntsAttr perm) /\ isNopTranspose perm = true
       /\ inputs m = [v] /\ output_types m = [tn]
       /\ forall p, p ∈ all_nodes g -> unique p = producer v ->
            length (output_types p) = 1%nat.
Proof.
  intros Hnop Hm Hk. unfold is_nop_transpose in Hk.
  apply andb_true_iff in Hk as [Ht Hk]. apply bool_decide_eq_true in Ht.
  split; [done|]. destruct (Hnop m Hm Ht) as (perm & Hp & Hrest).
  rewrite Hp in Hk. destruct (Hrest Hk) as (v & tn & Hin & Hout & Hsingle).
  by exists perm, v, tn.
Qed.

Lemma all_nodes_middle (g : Graph) (done rest : list Node) (m : Node) :
  nodes g = done ++ m :: rest ->
  all_nodes g = (input_ g :: done) ++ m :: (rest ++ [output_ g]).
Proof. intros Hn. unfold all_nodes. rewrite Hn. by rewrite <- app_assoc. Qed.

Lemma eliminateNopTranspose_loop (fuel : nat) :
  forall (g : Graph) (done todo : list Node),
  nodes g = done ++ todo ->
  graph_ok g -> topo_ok g -> nop_transposes_ok g ->
  Forall (fun m => is_nop_transpose m = false) done ->
  (length todo <= fuel)%nat ->
  exists r : Value -> Value,
    for_nodes fuel eliminateNopTranspose_body g (unique <$> head todo)
    = Ok (without_nops (map_nodes (rewire r) g))
    /\ (forall v, (forall t, t ∈ todo -> is_nop_transpose t = true ->
                     producer v <> unique t) -> r v = v)
    /\ (forall t v, t ∈ todo -> is_nop_transpose t = true -> inputs t = [v] ->
          r (mkValue (unique t) 0) = r v)
    /\ graph_ok (without_nops (map_nodes (rewire r) g))
    /\ topo_ok (without_nops (map_nodes (rewire r) g)).
Proof.
  induction fuel as [|fuel IH]; intros g done todo Hn Hok Htopo Hnop Hdone Hfuel.
  { destruct todo; [|simpl in Hfuel; lia]. exists id.
    rewrite map_nodes_rewire_id, without_nops_quiet
      by (rewrite Hn, app_nil_r; done).
    split; [done|]. split; [done|]. split; [|by split].
    intros t v Ht. by apply elem_of_nil in Ht. }
  destruct todo as [|m rest].
  { exists id. rewrite map_nodes_rewire_id, without_nops_quiet
      by (rewrite Hn, app_nil_r; done).
    split; [apply for_nodes_None|]. split; [done|]. split; [|by split].
    intros t v Ht. by apply elem_of_nil in Ht. }
  cbn [length] in Hfuel.
  pose proof (graph_ok_nodes _ Hok) as Hnd. rewrite Hn in Hnd.
  assert (Hm : m ∈ nodes g) by (rewrite Hn; apply elem_of_middle).
  pose proof (in_nodes_node_at _ _ Hok Hm) as Hat.
  cbn [head fmap option_fmap option_map for_nodes].
  destruct (is_nop_transpose m) eqn:Hk.
  - (* a transpose by the identity: replaced by its input and deleted *)
    destruct (nop_ok_nop g m Hnop Hm Hk)
      as (Hkind & perm & v & tn & Hperm & Hisnop & Hin & Hout & Hsingle).
    (* the producer of the input stands before [m] and has one output *)
    pose proof Htopo as Htopo'. unfold topo_ok in Htopo'.
    rewrite (all_nodes_middle g done rest m Hn) in Htopo'.
    apply defined_before_app in Htopo' as [_ Hdefm].
    cbn [defined_before app] in Hdefm. destruct Hdefm as [Hvok _].
    rewrite Hin in Hvok. apply Forall_inv in Hvok.
    apply value_ok_elem in Hvok as (p & Hp & Hup & Hoff).
    assert (Hpall : p ∈ all_nodes g).
    { rewrite (all_nodes_middle g done rest m Hn). by apply elem_of_app; left. }
    pose proof (Hsingle p Hpall Hup) as Hone.
    destruct (output_types p) as [|tp [|]] eqn:Htp; try done.
    assert (Hv : v = mkValue (producer v) 0).
    { destruct v as [pv ov]. simpl in *. f_equal. lia. }
    assert (Hne : producer v <> unique m).
    { intros Heq. unfold graph_ok in Hok.
      rewrite (all_nodes_middle g done rest m Hn), fmap_app, fmap_cons in Hok.
      apply NoDup_app in Hok as (_ & Hok & _).
      apply (Hok (unique m)); [|by left].
      rewrite <- Heq, <- Hup.
      apply (list_elem_of_fmap_2 unique) in Hp. by rewrite fmap_cons in Hp. }
    assert (Hatp : node_at g (producer v) = Ok p).
    { rewrite <- Hup. by apply node_at_elem. }
    rewrite (eliminateNopTranspose_body_step g done rest m p v perm tn tp)
      by done.
    cbn [mbind outcome_bind].
    set (r1 := rename_value (mkValue (unique m) 0) (mkValue (producer v) 0)).
    set (g1 := set_nodes ((rewire r1 <$> done) ++ (rewire r1 <$> rest))
                 (map_nodes (rewire r1) g)).
    assert (Hok1 : graph_ok g1).
    { apply (graph_ok_remove (map_nodes (rewire r1) g) _ _ (rewire r1 m)).
      - cbn [map_nodes nodes]. by rewrite Hn, fmap_app, fmap_cons.
      - by apply graph_ok_rewire. }
    replace (unique <$> last done) with (unique <$> last (rewire r1 <$> done))
      by (rewrite fmap_last; by destruct (last done)).
    rewrite (it_next_after_removal g1 (rewire r1 <$> done) (rewire r1 <$> rest));
      [|done|by apply graph_ok_nodes].
    cbn [mbind outcome_bind].
    replace (unique <$> head (rewire r1 <$> rest))
      with (unique <$> head (rewire r1 <$> rest)) by done.
    (* the invariants after the step *)
    assert (Htopo1 : topo_ok g1).
    { assert (Hall : all_nodes g1
                = (rewire r1 <$> (input_ g :: done))
                    ++ (rewire r1 <$> (rest ++ [output_ g]))).
      { unfold g1, all_nodes, set_nodes, map_nodes. cbn [input_ nodes output_].
        rewrite fmap_cons, fmap_app, <- app_assoc. reflexivity. }
      unfold topo_ok. rewrite Hall.
      apply (defined_before_removed (input_ g :: done) (rest ++ [output_ g])
               m (producer v) tn).
      - rewrite <- (all_nodes_middle g done rest m Hn). exact Hok.
      - rewrite <- (all_nodes_middle g done rest m Hn). exact Htopo.
      - by rewrite Hin, Hv at 1.
      - done. }
    assert (Hnop1 : nop_transposes_ok g1).
    { intros k1 Hk1 Hkk. unfold g1 in Hk1. cbn [set_nodes nodes] in Hk1.
      rewrite <- fmap_app in Hk1.
      apply list_elem_of_fmap in Hk1 as (k & -> & Hkin).
      assert (Hkg : k ∈ nodes g).
      { rewrite Hn. apply elem_of_app in Hkin as [?|?];
          [by apply elem_of_before|by apply elem_of_after]. }
      destruct (Hnop k Hkg Hkk) as (permk & Hpk & Hrest).
      exists permk. split; [done|]. intros Hnk.
      destruct (Hrest Hnk) as (w & tk & Hink & Houtk & Hsk).
      exists (r1 w), tk. split; [|split; [done|]].
      { unfold rewire. cbn [set_inputs inputs]. by rewrite Hink. }
      intros q1 Hq1 Huq.
      unfold g1, all_nodes, set_nodes, map_nodes in Hq1.
      cbn [input_ nodes output_] in Hq1.
      assert (exists q, q1 = rewire r1 q /\ q ∈ all_nodes g) as (q & -> & Hq).
      { apply elem_of_cons in Hq1 as [->|Hq1].
        - exists (input_ g). split; [done|apply input_in_all_nodes].
        - apply elem_of_app in Hq1 as [Hq1|Hq1].
          + rewrite <- fmap_app in Hq1.
            apply list_elem_of_fmap in Hq1 as (q & -> & Hq). exists q.
            split; [done|]. apply elem_of_all_nodes. rewrite Hn.
            apply elem_of_app in Hq as [?|?];
              [by apply elem_of_before|by apply elem_of_after].
          + apply list_elem_of_singleton in Hq1 as ->. exists (output_ g).
            split; [done|apply output_in_all_nodes]. }
      change (length (output_types (rewire r1 q)))
        with (length (output_types q)).
      change (unique (rewire r1 q)) with (unique q) in Huq.
      unfold r1, rename_value in Huq. case_decide as Hw.
      + cbn [producer] in Huq. by apply Hsingle.
      + by apply Hsk. }
    assert (Hdone1 : Forall (fun k => is_nop_transpose k = false)
                       (rewire r1 <$> done)).
    { apply Forall_fmap. eapply Forall_impl; [exact Hdone|]. done. }
    destruct (IH g1 (rewire r1 <$> done) (rewire r1 <$> rest))
      as (r' & Hrun & Hfixr & Hres & Hokr & Htopor);
      [done|done|done|done|done|rewrite length_fmap; lia|].
    exists (r' ∘ r1).
    rewrite <- (without_nops_step g done rest m r1 r' Hn Hk). fold g1.
    split; [exact Hrun|]. split; [|split; [|by split]].
    + intros w Hw. cbn [compose].
      assert (Hr1 : r1 w = w).
      { unfold r1, rename_value. rewrite decide_False; [done|]. intros ->.
        apply (Hw m); [apply elem_of_cons; by left|done|done]. }
      rewrite Hr1. apply Hfixr. intros t1 Ht1 Hnt1.
      apply list_elem_of_fmap in Ht1 as (t0 & -> & Ht0).
      apply (Hw t0); [apply elem_of_cons; by right|done].
    + intros t w Ht Hnt Hinw. cbn [compose].
      apply elem_of_cons in Ht as [->|Ht].
      * assert (w = v) as -> by congruence.
        assert (Hr1v : r1 v = v).
        { unfold r1, rename_value. rewrite decide_False; [done|].
          intros Heq. apply Hne. by rewrite Heq. }
        rewrite Hr1v. unfold r1, rename_value. rewrite decide_True by done.
        by rewrite <- Hv.
      * assert (Hr1t : r1 (mkValue (unique t) 0) = mkValue (unique t) 0).
        { unfold r1, rename_value. rewrite decide_False; [done|].
          intros [= Heq]. rewrite fmap_app, fmap_cons in Hnd.
          apply NoDup_app in Hnd as (_ & _ & Hnd).
          apply NoDup_cons in Hnd as [Hnd _]. apply Hnd.
          rewrite <- Heq. by apply list_elem_of_fmap_2. }
        rewrite Hr1t.
        apply (Hres (rewire r1 t) (r1 w)); [by apply list_elem_of_fmap_2|done|].
        unfold rewire. cbn [set_inputs inputs]. by rewrite Hinw.
  - (* any other node is passed over *)
    rewrite (eliminateNopTranspose_body_passed g m Hat (nop_ok_passed g m Hnop Hm Hk)).
    cbn [mbind outcome_bind]. unfold it_next.
    rewrite Hn, succ_in_middle by done. cbn [mbind outcome_bind].
    destruct (IH g (done ++ [m]) rest)
      as (r & Hrun & Hfixr & Hres & Hokr & Htopor);
      [by rewrite <- app_assoc|done|done|done| |lia|].
    { apply Forall_app. split; [done|]. by apply Forall_singleton. }
    exists r. split; [exact Hrun|]. split; [|split; [|by split]].
    + intros w Hw. apply Hfixr. intros t Ht. apply Hw. apply elem_of_cons. by right.
    + intros t w Ht Hnt. apply elem_of_cons in Ht as [->|Ht]; [congruence|].
      by apply Hres.
Qed.

(** X16.  On a graph with distinct nodes in which every value is defined
    before it is used and every transpose by the identity has one input,
    produced by a node with a single output, the pass returns: the nodes
    left are the other nodes, in their order, with their kinds, attributes
    and outputs; only inputs are renamed, by one renaming [r] for the whole
    graph.  [r] leaves alone every value that no deleted transpose
    produces and sends the output of a deleted transpose where it sends
    the input of that transpose.  The graph returned still has distinct
    nodes and defines every value before its use, so no node reads a
    deleted transpose. *)
Theorem eliminateNopTranspose_eliminates (g : Graph) :
  graph_ok g -> topo_ok g -> nop_transposes_ok g ->
  exists r : Value -> Value,
    eliminateNopTranspose g = Ok (without_nops (map_nodes (rewire r) g))
    /\ nodes (without_nops (map_nodes (rewire r) g))
       = rewire r <$> filter (fun m => is_nop_transpose m = false) (nodes g)
    /\ (forall v, (forall t, t ∈ nodes g -> is_nop_transpose t = true ->
                     producer v <> unique t) -> r v = v)
    /\ (forall t v, t ∈ nodes g -> is_nop_transpose t = true ->
          inputs t = [v] -> r (mkValue (unique t) 0) = r v)
    /\ graph_ok (without_nops (map_nodes (rewire r) g))
    /\ topo_ok (without_nops (map_nodes (rewire r) g)).
Proof.
  intros Hok Htopo Hnop.
  destruct (eliminateNopTranspose_loop (S (length (nodes g))) g [] (nodes g))
    as (r & Hrun & Hfix & Hres & Hok' & Htopo'); [done..|lia|].
  exists r. split; [|split; [|done]].
  - unfold eliminateNopTranspose, it_next. cbn [mbind outcome_bind]. exact Hrun.
  - unfold without_nops. cbn [set_nodes map_nodes nodes].
    apply filter_keep_rewire.
Qed.

(** ** Two more guards *)

(** X17.  Two chained transposes whose permutations differ in length:
    [composeTransposes] refuses the two permutations with an assertion
    failure, whatever their entries, and the step of
    [fuseConsecutiveTransposes] at the outer transpose ends in that
    assertion failure and returns no graph. *)
Theorem fuseConsecutiveTransposes_length_mismatch
    (g : Graph) (n inner : Node) (v : Value) (inner_perm outer_perm : list Z) :
  graph_ok g -> n ∈ nodes g -> inner ∈ all_nodes g ->
  kind n = onnx_Transpose -> kind inner = onnx_Transpose ->
  inputs n = [v] -> producer v = unique inner ->
  attrs inner !! attr_perm = Some (IntsAttr inner_perm) ->
  attrs n !! attr_perm = Some (IntsAttr outer_perm) ->
  length inner_perm <> length outer_perm ->
  composeTransposes inner_perm outer_perm = Err AssertFailed
  /\ fuseConsecutiveTransposes_body g (unique n) = Err AssertFailed.
Proof.
  intros Hok Hn Hinner Hkn Hki Hin Hv Hpi Hpn Hlen.
  pose proof (composeTransposes_length_mismatch _ _ Hlen) as Hc.
  split; [done|]. unfold fuseConsecutiveTransposes_body.
  rewrite (in_nodes_node_at _ _ Hok Hn). cbn [mbind outcome_bind].
  rewrite Hkn, bool_decide_eq_true_2 by done. cbn [negb].
  unfold Node_input. rewrite Hin. cbn [mbind outcome_bind].
  unfold Value_node. rewrite Hv, (node_at_elem _ _ Hok Hinner).
  cbn [mbind outcome_bind].
  rewrite Hki, bool_decide_eq_true_2 by done. cbn [negb].
  unfold Node_is. rewrite Hpi, Hpn. cbn [mbind outcome_bind].
  by rewrite Hc.
Qed.

(** X18.  A packing node whose primary output has one consumer that is
    not a recurrent node is left where it is, and the graph as it was. *)
Theorem pushPackingPastRnn_other_consumer (registered : use_order)
    (g : Graph) (n c : Node) (j : nat) :
  graph_ok g -> n ∈ nodes g -> c ∈ all_nodes g ->
  kind n = prim_PackPadded -> output_types n <> [] ->
  uses g (mkValue (unique n) 0) = [mkUse (unique c) j] ->
  isRNN c = false ->
  pushPackingPastRnn_body registered g (unique n) = Ok (g, Some (unique n)).
Proof.
  intros Hok Hn Hc Hk Hout Hu Hrnn. unfold pushPackingPastRnn_body.
  rewrite (in_nodes_node_at g n Hok Hn). cbn [mbind outcome_bind].
  rewrite Hk, bool_decide_eq_true_2 by done. cbn [negb].
  assert (Ho0 : Node_outputs_at n 0 = Ok (mkValue (unique n) 0)).
  { unfold Node_outputs_at. rewrite decide_True; [done|].
    destruct (output_types n) eqn:E; [done|simpl; lia]. }
  rewrite Ho0. cbn [mbind outcome_bind]. rewrite Hu.
  cbn [length]. rewrite bool_decide_eq_true_2 by done.
  cbn [negb mbind outcome_bind user].
  rewrite (node_at_elem _ _ Hok Hc). cbn [mbind outcome_bind].
  by rewrite Hrnn.
Qed.

(** ** A packing node pushed past a recurrent node, then removed *)

Lemma graph_ok_packing_pushed
    (g : Graph) (pre mid post : list Node) (n rnn : Node) (in0 in1 : Value)
    (j1 : nat) :
  fresh_ok g -> nodes g = pre ++ n :: mid ++ rnn :: post ->
  graph_ok (packing_pushed g pre mid post n rnn in0 in1 j1).
Proof.
  intros [Hok Hlt] Hn. unfold graph_ok, packing_pushed, all_nodes in *.
  cbn [input_ nodes output_]. rewrite Hn in Hok, Hlt.
  set (r := repack_outputs n rnn (next_unique g) ∘ unpack_input n in0).
  set (K := next_unique g) in *.
  assert (Hids :
    unique <$> rewire r (input_ g)
      :: ((rewire r <$> pre) ++ (rewire r <$> mid)
          ++ rnn_unpacked n rnn in0 in1 j1 K :: new_packing rnn in1 K
          :: (rewire r <$> post)) ++ [rewire r (output_ g)]
    = unique (input_ g)
      :: ((unique <$> pre) ++ (unique <$> mid)
          ++ unique rnn :: K :: (unique <$> post)) ++ [unique (output_ g)]).
  { rewrite fmap_cons, !fmap_app, !fmap_cons, !unique_rewire_fmap. done. }
  rewrite Hids. clear Hids.
  assert (Hperm :
    unique (input_ g)
      :: ((unique <$> pre) ++ (unique <$> mid)
          ++ unique rnn :: K :: (unique <$> post)) ++ [unique (output_ g)]
    ≡ₚ K :: unique (input_ g)
         :: ((unique <$> pre) ++ (unique <$> mid)
             ++ unique rnn :: (unique <$> post)) ++ [unique (output_ g)]).
  { set (A := unique <$> pre). set (B := unique <$> mid).
    set (C := unique <$> post).
    replace (unique (input_ g) :: (A ++ B ++ unique rnn :: K :: C)
               ++ [unique (output_ g)])
      with ((unique (input_ g) :: A ++ B ++ [unique rnn])
              ++ K :: (C ++ [unique (output_ g)]))
      by (cbn [app]; rewrite <- !app_assoc; cbn [app]; done).
    replace (unique (input_ g) :: (A ++ B ++ unique rnn :: C)
               ++ [unique (output_ g)])
      with ((unique (input_ g) :: A ++ B ++ [unique rnn])
              ++ (C ++ [unique (output_ g)]))
      by (cbn [app]; rewrite <- !app_assoc; cbn [app]; done).
    symmetry. apply Permutation_middle. }
  rewrite Hperm. clear Hperm.
  rewrite fmap_cons, !fmap_app, !fmap_cons, !fmap_app, !fmap_cons in Hok.
  apply NoDup_cons. split.
  - intros HK. rewrite Forall_forall in Hlt.
    assert (exists m, m ∈ input_ g :: (pre ++ n :: mid ++ rnn :: post)
                            ++ [output_ g] /\ unique m = K)
      as (m & Hm & Hu).
    { apply elem_of_cons in HK as [HK|HK].
      - exists (input_ g). split; [apply elem_of_cons; by left|done].
      - apply elem_of_app in HK as [HK|HK].
        + assert (K ∈ unique <$> (pre ++ mid ++ rnn :: post)) as Hin'
            by (by rewrite !fmap_app, fmap_cons).
          apply list_elem_of_fmap in Hin' as (m & Hu & Hm). exists m.
          split; [|done]. apply elem_of_cons. right. apply elem_of_app. left.
          apply elem_of_app in Hm as [Hm|Hm]; apply elem_of_app; [by left|].
          right. apply elem_of_cons. right.
          apply elem_of_app in Hm as [Hm|Hm]; apply elem_of_app; [by left|by right].
        + apply list_elem_of_singleton in HK. exists (output_ g). split; [|done].
          apply elem_of_cons. right. apply elem_of_app. right.
          by apply list_elem_of_singleton. }
    specialize (Hlt m Hm). lia.
  - eapply sublist_NoDup; [exact Hok|].
    apply sublist_skip, sublist_app; [|done].
    apply sublist_app; [done|]. apply sublist_cons. done.
Qed.

(** X19.  Packing, recurrent node, unpacking, with the use lists as the
    rewrite expects them: the primary output of the packing node [n] has the
    recurrent node as its one consumer, and the first use on record of the
    lengths output of [n] (read where the code reads it, once the packed
    data has been replaced) is a slot of the recurrent node.  When the
    unpacking node [u] reads the output of the recurrent node and the
    lengths output of [n], the step of [pushPackingPastRnn] at [n] followed
    by the step of [removeNopPacking] at [u] returns a graph without [n] and
    without [u], in which what read the outputs of [u] reads the output of
    the recurrent node and the lengths that went into [n].  The packing
    node created in between is left in the graph. *)
Theorem packing_pushed_then_removed (registered : use_order)
    (g : Graph) (pre mid post1 post2 : list Node) (n rnn u : Node)
    (in0 in1 : Value) (t0 t1 u0 u1 : option (list Z)) (j0 j1 : nat)
    (rest1 : list Use) :
  fresh_ok g -> values_below g ->
  nodes g = pre ++ n :: mid ++ rnn :: post1 ++ u :: post2 ->
  kind n = prim_PackPadded -> inputs n = [in0; in1] -> output_types n = [t0; t1] ->
  producer in0 <> unique n -> producer in1 <> unique n ->
  producer in0 <> unique rnn -> producer in1 <> unique rnn ->
  isRNN rnn = true -> output_types rnn <> [] ->
  uses g (mkValue (unique n) 0) = [mkUse (unique rnn) j0] ->
  registered (Value_replaceAllUsesWith g (mkValue (unique n) 0) in0)
    (mkValue (unique n) 1) = mkUse (unique rnn) j1 :: rest1 ->
  kind u = prim_PadPacked ->
  inputs u = [mkValue (unique rnn) 0; mkValue (unique n) 1] ->
  output_types u = [u0; u1] -> producer in1 <> unique u ->
  let pushed :=
    packing_pushed g pre mid (post1 ++ u :: post2) n rnn in0 in1 j1 in
  let removed :=
    without_node (unique u)
      (Value_replaceAllUsesWith
         (Value_replaceAllUsesWith pushed (mkValue (unique u) 0)
            (mkValue (unique rnn) 0))
         (mkValue (unique u) 1) in1) in
  pushPackingPastRnn_body registered g (unique n)
  = Ok (pushed, unique <$> last pre)
  /\ (exists it, removeNopPacking_body pushed (unique u) = Ok (removed, it)
                 /\ it_next removed it = Ok (unique <$> head post2))
  /\ uses removed (mkValue (unique u) 0) = []
  /\ uses removed (mkValue (unique u) 1) = []
  /\ unique <$> nodes removed
     = unique <$> (pre ++ mid ++ rnn :: new_packing rnn in1 (next_unique g)
                     :: post1 ++ post2).
Proof.
  intros Hf Hvals Hn Hkn Hin Hout Hp0n Hp1n Hp0r Hp1r Hrnn Hro Hu0 Hu1
    Hku Hinu Houtu Hp1u pushed removed.
  pose proof Hf as [Hok _].
  pose proof (graph_ok_nodes _ Hok) as Hnd. rewrite Hn in Hnd.
  assert (Hrn : unique rnn <> unique n).
  { rewrite fmap_app, fmap_cons in Hnd. apply NoDup_app in Hnd as (_ & _ & Hnd).
    apply NoDup_cons in Hnd as [Hnd _]. intros Heq. apply Hnd. rewrite <- Heq.
    apply list_elem_of_fmap_2, elem_of_middle. }
  assert (Hur : unique rnn <> unique u).
  { rewrite fmap_app, fmap_cons, fmap_app, fmap_cons in Hnd.
    apply NoDup_app in Hnd as (_ & _ & Hnd). apply NoDup_cons in Hnd as [_ Hnd].
    apply NoDup_app in Hnd as (_ & _ & Hnd). apply NoDup_cons in Hnd as [Hnd _].
    intros Heq. apply Hnd. rewrite Heq.
    apply list_elem_of_fmap_2, elem_of_middle. }
  set (K := next_unique g).
  set (r := repack_outputs n rnn K ∘ unpack_input n in0).
  assert (Hr0 : r (mkValue (unique rnn) 0) = mkValue K 0).
  { unfold r, repack_outputs, unpack_input, rename_value. cbn [compose].
    repeat case_decide; congruence. }
  assert (Hr1 : r (mkValue (unique n) 1) = mkValue K 1).
  { unfold r, repack_outputs, unpack_input, rename_value. cbn [compose].
    repeat case_decide; congruence. }
  assert (Hpushed : nodes pushed
            = ((rewire r <$> pre) ++ (rewire r <$> mid)
               ++ rnn_unpacked n rnn in0 in1 j1 K :: new_packing rnn in1 K
               :: (rewire r <$> post1))
              ++ rewire r u :: (rewire r <$> post2)).
  { unfold pushed, packing_pushed. cbn [nodes]. fold K r.
    rewrite fmap_app, fmap_cons.
    rewrite <- ?app_assoc. cbn [app]. by rewrite <- ?app_assoc. }
  assert (Hokp : graph_ok pushed) by by apply graph_ok_packing_pushed.
  destruct (removeNopPacking_body_run pushed _ _ (rewire r u)
              (new_packing rnn in1 K) (mkValue (unique rnn) 0) in1 u0 u1
              Hokp Hpushed)
    as (Hrun & Hnext & Hnil0 & Hnil1 & Hids); try done.
  { apply elem_of_all_nodes. rewrite Hpushed. apply elem_of_app. left.
    apply elem_of_app. right. apply elem_of_app. right.
    apply elem_of_cons. right. apply elem_of_cons. by left. }
  { unfold rewire. cbn [set_inputs inputs]. rewrite Hinu.
    cbn [fmap list_fmap lookup list_lookup]. by rewrite Hr0. }
  { unfold rewire. cbn [set_inputs inputs]. rewrite Hinu.
    cbn [fmap list_fmap lookup list_lookup]. by rewrite Hr1. }
  split; [|split; [|split; [|split]]].
  - by apply (pushPackingPastRnn_body_run registered g pre mid (post1 ++ u :: post2) n rnn
                in0 in1 t0 t1 j0 j1 rest1).
  - eexists. split; [exact Hrun|]. etrans; [exact Hnext|]. by destruct post2.
  - exact Hnil0.
  - exact Hnil1.
  - change (unique (rewire r u)) with (unique u) in Hids. fold removed in Hids.
    rewrite Hids. rewrite !fmap_app, !fmap_cons, !fmap_app, !unique_rewire_fmap.
    by rewrite <- !app_assoc.
Qed.

(** ** The passes that materialize the default states *)

(** The loop steps over nodes at which the body changes nothing. *)
Lemma for_nodes_skip (body : Graph -> nat -> outcome (Graph * iterator))
    (g : Graph) (skip : list Node) :
  forall (seen rest : list Node) (fuel : nat),
  graph_ok g -> nodes g = seen ++ skip ++ rest ->
  (forall m, m ∈ skip -> body g (unique m) = Ok (g, Some (unique m))) ->
  for_nodes (length skip + fuel) body g (unique <$> head (skip ++ rest))
  = for_nodes fuel body g (unique <$> head rest).
Proof.
  induction skip as [|m skip IH]; intros seen rest fuel Hok Hn Hq; [done|].
  simpl. rewrite Hq by (apply elem_of_cons; by left). cbn [mbind outcome_bind].
  pose proof (graph_ok_nodes _ Hok) as Hnd. rewrite Hn in Hnd.
  cbn [app] in Hn, Hnd.
  unfold it_next. rewrite Hn, succ_in_middle by done. cbn [mbind outcome_bind].
  apply (IH (seen ++ [m])); [done| |].
  - by rewrite <- app_assoc.
  - intros m' Hm'. apply Hq. apply elem_of_cons. by right.
Qed.

(** A pass whose body rewrites at one node [n] and, from there on, finds
    nothing more to do. *)
Lemma for_nodes_one_rewrite (body : Graph -> nat -> outcome (Graph * iterator))
    (g g' : Graph) (pre post done' todo' : list Node) (n n' : Node) (fuel : nat) :
  graph_ok g -> nodes g = pre ++ n :: post ->
  (forall m, m ∈ pre -> body g (unique m) = Ok (g, Some (unique m))) ->
  body g (unique n) = Ok (g', Some (unique n)) ->
  graph_ok g' -> nodes g' = done' ++ n' :: todo' -> unique n' = unique n ->
  (forall m, m ∈ todo' -> body g' (unique m) = Ok (g', Some (unique m))) ->
  (length todo' <= fuel)%nat ->
  (it ← it_next g None; for_nodes (length pre + S fuel) body g it) = Ok g'.
Proof.
  intros Hok Hn Hpre Hat Hok' Hn' Hu Htodo Hfuel.
  unfold it_next at 1. cbn [mbind outcome_bind]. rewrite Hn.
  rewrite (for_nodes_skip body g pre [] (n :: post)); [|done|by rewrite Hn|done].
  simpl. rewrite Hat. cbn [mbind outcome_bind].
  pose proof (graph_ok_nodes _ Hok') as Hnd. rewrite Hn' in Hnd.
  unfold it_next. rewrite Hn', <- Hu, succ_in_middle by done.
  cbn [mbind outcome_bind].
  apply (for_nodes_quiet body g' todo' (done' ++ [n'])); [done| |done|done].
  by rewrite <- app_assoc.
Qed.

Lemma default_state_not_recurrent (g : Graph) (state_node : Node) :
  default_state g state_node -> isRNN state_node = false.
Proof.
  unfold isRNN. intros [Hk|[Hk _]]; rewrite Hk; by rewrite !bool_decide_eq_false_2.
Qed.


Lemma elem_of_all_nodes_inv (g : Graph) (m : Node) :
  m ∈ all_nodes g -> m = input_ g \/ m ∈ nodes g \/ m = output_ g.
Proof.
  unfold all_nodes. intros Hm. apply elem_of_cons in Hm as [->|Hm]; [by left|].
  apply elem_of_app in Hm as [Hm|Hm]; [right; by left|].
  apply list_elem_of_singleton in Hm. right. by right.
Qed.

(** C6.  At a recurrent node [n] whose state input, number 5 for the
    hidden state and number 6 for the cell state of an LSTM, comes from a
    Constant or from a Slice of a Constant, the step of
    [fixDefaultRnnHiddenState], respectively [fixDefaultLstmCellState], at
    [n] returns the graph [rewritten], and so does the whole pass when the
    other nodes are not recurrent, respectively no LSTM.  In [rewritten] the
    zero-fill subgraph stands before [n], and [n] reads the output of its
    fill, which is not the old state.  The node that produced the old state
    is deleted when the rewritten slot was its only use, and is kept when
    the state has another use.  Every other node stays, so a Constant under
    a deleted Slice is not deleted with it. *)
Theorem fixDefaultState_materializes
    (g : Graph) (pre post : list Node) (n state_node : Node) (x : Value)
    (ty : option (list Z)) (h : Z) (bidirectional : bool) (input_index : nat) :
  let s := mkValue (unique state_node) 0 in
  fresh_ok g ->
  nodes g = pre ++ n :: post ->
  isRNN n = true ->
  input_index = 5%nat \/ (input_index = 6%nat /\ kind n = onnx_LSTM) ->
  inputs n !! 0%nat = Some x ->
  inputs n !! input_index = Some s ->
  state_node ∈ nodes g ->
  output_types state_node = [ty] ->
  default_state g state_node ->
  Node_i n attr_hidden_size = Ok h ->
  is_bidirectional n = Ok bidirectional ->
  let filled := with_zero_fill g pre post n input_index x h bidirectional in
  let rewritten :=
    if decide (uses filled s = []) then without_node (unique state_node) filled
    else filled in
  (input_index = 5%nat ->
     fixDefaultRnnHiddenState_body g (unique n) = Ok rewritten
     /\ (Forall (fun m => isRNN m = false) (pre ++ post) ->
         fixDefaultRnnHiddenState g = Ok rewritten))
  /\ (input_index = 6%nat ->
      fixDefaultLstmCellState_body g (unique n) = Ok rewritten
      /\ (Forall (fun m => kind m <> onnx_LSTM) (pre ++ post) ->
          fixDefaultLstmCellState g = Ok rewritten))
  /\ set_inputs (<[input_index := zero_fill_output (next_unique g)]> (inputs n)) n
       ∈ nodes rewritten
  /\ zero_fill_output (next_unique g) <> s
  /\ (uses g s = [mkUse (unique n) input_index] -> state_node ∉ nodes rewritten)
  /\ ((exists u, u ∈ uses g s /\ u <> mkUse (unique n) input_index) ->
      state_node ∈ nodes rewritten)
  /\ (forall m, m ∈ nodes g -> unique m <> unique n ->
        unique m <> unique state_node -> m ∈ nodes rewritten).
Proof.
  intros s Hf Hn Hrnn Hidx Hx Hs Hst Hty Hdef Hh Hbi filled rewritten.
  pose proof Hf as [Hok Hlt].
  assert (Hnin : n ∈ nodes g) by (rewrite Hn; apply elem_of_middle).
  assert (Hne : unique state_node <> unique n).
  { intros Heq. apply default_state_not_recurrent in Hdef.
    assert (state_node = n) as ->; [|congruence].
    apply (same_unique_same_node g); [done| | |done]; by apply elem_of_all_nodes. }
  assert (Hidx0 : input_index <> 0%nat) by (destruct Hidx as [->|[-> _]]; done).
  assert (Hlen : (input_index < length (inputs n))%nat)
    by (by eapply lookup_lt_Some).
  destruct (fixDefaultRNNState_run g pre post n state_node x ty h bidirectional
              input_index Hf Hn Hx Hs Hidx0 Hst Hne Hty Hdef Hh Hbi)
    as (Hrun & Hnew & Hfresh & Hsole & HbodyA & HbodyB).
  fold s filled rewritten in Hrun, Hnew, Hsole.
  (* the graph after the rewrite *)
  assert (Hokf : graph_ok filled).
  { assert (Hprod : Value_node g s = Ok state_node).
    { unfold Value_node. simpl. by apply in_nodes_node_at. }
    by destruct (fixDefaultRNNState_edits g pre post n state_node x s h
                   bidirectional input_index Hf Hn Hx Hs Hprod
                   (needsFixing_default_state _ _ Hdef) Hh Hbi) as [_ [? _]]. }
  assert (Hokr : graph_ok rewritten).
  { unfold rewritten. destruct (decide _); [|done].
    by apply graph_ok_without_node. }
  set (n' := set_inputs (<[input_index := zero_fill_output (next_unique g)]>
                           (inputs n)) n) in *.
  set (front := pre ++ zero_fill_subgraph (next_unique g) x h bidirectional).
  assert (Hnf : nodes filled = front ++ n' :: post).
  { unfold filled, with_zero_fill, front. cbn [nodes]. by rewrite <- app_assoc. }
  assert (Hnr : exists done' todo',
             nodes rewritten = done' ++ n' :: todo'
             /\ (forall m, m ∈ todo' -> m ∈ post)
             /\ (length todo' <= length post)%nat).
  { unfold rewritten. destruct (decide _).
    - exists (filter (fun m => unique m <> unique state_node) front),
             (filter (fun m => unique m <> unique state_node) post).
      split; [|split].
      + unfold without_node, set_nodes. cbn [nodes]. rewrite Hnf.
        rewrite filter_app, filter_cons_True; [done|].
        simpl. intros Heq. by apply Hne.
      + intros m Hm. by apply list_elem_of_filter in Hm as [_ Hm].
      + apply length_filter.
    - exists front, post. split; [done|]. split; [done|lia]. }
  destruct Hnr as (done' & todo' & Hnr & Htodo & Hshort).
  assert (Hfuel : S (length (nodes g)) = (length pre + S (S (length post)))%nat).
  { rewrite Hn, length_app. simpl. lia. }
  assert (Hin_post : forall m, m ∈ todo' -> m ∈ nodes rewritten).
  { intros m Hm. rewrite Hnr. by apply elem_of_after. }
  assert (Hkeep : forall m, m ∈ nodes g -> unique m <> unique n ->
            m ∈ nodes filled).
  { intros m Hm Hmn. rewrite Hnf. rewrite Hn in Hm. unfold front.
    apply elem_of_app in Hm as [Hm|Hm].
    - apply elem_of_app. left. apply elem_of_app. by left.
    - apply elem_of_cons in Hm as [->|Hm]; [done|]. by apply elem_of_after. }
  split; [|split; [|split; [done|split; [done|split; [|split]]]]].
  - (* the hidden state *)
    intros ->. assert (H6 : (6 <= length (inputs n))%nat) by lia.
    rewrite (HbodyA Hrnn H6). split; [done|]. intros Hothers.
    rewrite Forall_app, !Forall_forall in Hothers. destruct Hothers as [Hpre Hpost].
    unfold fixDefaultRnnHiddenState. rewrite Hfuel.
    apply (for_nodes_one_rewrite _ g rewritten pre post done' todo' n n');
      [done|done| | |done|done|done| |lia].
    + intros m Hm. apply keeping_iterator_quiet.
      apply fixDefaultRnnHiddenState_body_other; [|by apply Hpre].
      apply in_nodes_node_at; [done|]. rewrite Hn. by apply elem_of_before.
    + unfold keeping_iterator. by rewrite (HbodyA Hrnn H6), Hrun.
    + intros m Hm. apply keeping_iterator_quiet.
      apply fixDefaultRnnHiddenState_body_other; [|by apply Hpost, Htodo].
      apply in_nodes_node_at; [done|]. by apply Hin_post.
  - (* the cell state *)
    intros ->. destruct Hidx as [|[_ Hk]]; [done|].
    assert (H7 : (7 <= length (inputs n))%nat) by lia.
    rewrite (HbodyB Hk H7). split; [done|]. intros Hothers.
    rewrite Forall_app, !Forall_forall in Hothers. destruct Hothers as [Hpre Hpost].
    unfold fixDefaultLstmCellState. rewrite Hfuel.
    apply (for_nodes_one_rewrite _ g rewritten pre post done' todo' n n');
      [done|done| | |done|done|done| |lia].
    + intros m Hm. apply keeping_iterator_quiet.
      apply fixDefaultLstmCellState_body_other; [|by apply Hpre].
      apply in_nodes_node_at; [done|]. rewrite Hn. by apply elem_of_before.
    + unfold keeping_iterator. by rewrite (HbodyB Hk H7), Hrun.
    + intros m Hm. apply keeping_iterator_quiet.
      apply fixDefaultLstmCellState_body_other; [|by apply Hpost, Htodo].
      apply in_nodes_node_at; [done|]. by apply Hin_post.
  - (* the only use *)
    intros Huses. by destruct (Hsole Huses).
  - (* another use *)
    intros (u & Hu & Hother).
    assert (Hleft : u ∈ uses filled s).
    { apply elem_of_uses in Hu as (m & Hm & Hid & Hi). apply elem_of_uses.
      destruct (decide (unique m = unique n)) as [Heq|Hmn].
      - assert (m = n) as ->.
        { apply (same_unique_same_node g); [done|done| |done].
          by apply elem_of_all_nodes. }
        exists n'. split; [|split; [done|]].
        + apply elem_of_all_nodes. rewrite Hnf. apply elem_of_middle.
        + unfold n'. cbn [set_inputs inputs].
          rewrite list_lookup_insert_ne; [done|].
          intros Hsame. apply Hother. destruct u as [a b]. simpl in *.
          by subst.
      - exists m. split; [|done].
        apply elem_of_all_nodes_inv in Hm as [->|[Hm| ->]].
        + apply (input_in_all_nodes filled).
        + apply elem_of_all_nodes. by apply Hkeep.
        + apply (output_in_all_nodes filled). }
    unfold rewritten. rewrite decide_False.
    + apply Hkeep; [done|]. done.
    + intros He. rewrite He in Hleft. by apply elem_of_nil in Hleft.
  - (* the other nodes *)
    intros m Hm Hmn Hms. unfold rewritten. destruct (decide _); [|by apply Hkeep].
    apply elem_of_without_node. split; [by apply Hkeep|done].
Qed.

(** ** The theorems at concrete inputs *)

(** Closed decidable facts, by evaluation. *)
Ltac by_evaluation := apply (bool_decide_unpack _); vm_compute; exact I.

Lemma is_permutation_102 : is_permutation [1; 0; 2].
Proof. unfold is_permutation, identity_perm. simpl. apply perm_swap. Qed.

Lemma is_permutation_021 : is_permutation [0; 2; 1].
Proof.
  unfold is_permutation, identity_perm. simpl. apply perm_skip, perm_swap.
Qed.

Lemma is_permutation_201 : is_permutation [2; 0; 1].
Proof.
  unfold is_permutation, identity_perm. simpl.
  etrans; [apply perm_swap|]. apply perm_skip, perm_swap.
Qed.

Lemma composeTransposes_laws_witness :
  (exists r, composeTransposes [1; 0; 2] [0; 2; 1] = Ok r
     /\ length r = length [1; 0; 2]
     /\ forall (i : nat) (a : Z),
          [1; 0; 2] !! i = Some a -> r !! i = [0; 2; 1] !! Z.to_nat a)
  /\ (exists r,
        (composeTransposes [1; 0; 2] [0; 2; 1]
           ≫= fun p12 => composeTransposes p12 [2; 0; 1]) = Ok r
        /\ (composeTransposes [0; 2; 1] [2; 0; 1]
              ≫= fun p23 => composeTransposes [1; 0; 2] p23) = Ok r)
  /\ composeTransposes [1; 0; 2] (identity_perm (length [1; 0; 2])) = Ok [1; 0; 2]
  /\ composeTransposes (identity_perm (length [1; 0; 2])) [1; 0; 2] = Ok [1; 0; 2].
Proof.
  apply (composeTransposes_laws [1; 0; 2] [0; 2; 1] [2; 0; 1]).
  - apply is_permutation_102.
  - apply is_permutation_021.
  - apply is_permutation_201.
  - reflexivity.
  - reflexivity.
Defined.

Lemma nop_transposes_in_a_row_ok : graph_ok nop_transposes_in_a_row.
Proof. unfold graph_ok. by_evaluation. Qed.

Lemma eliminateNopTranspose_idempotent_witness :
  eliminateNopTranspose nop_transposes_eliminated = Ok nop_transposes_eliminated.
Proof.
  apply (eliminateNopTranspose_idempotent nop_transposes_in_a_row).
  - apply nop_transposes_in_a_row_ok.
  - vm_compute. reflexivity.
Defined.

Lemma eliminateNopTranspose_body_eliminates_witness :
  eliminateNopTranspose_body nop_transposes_in_a_row 1
  = Ok (without_node 1
          (Value_replaceAllUsesWith nop_transposes_in_a_row
             (mkValue 1 0) (mkValue 0 0)), None).
Proof.
  refine (proj1 (eliminateNopTranspose_body_eliminates nop_transposes_in_a_row
    []
    [ mkNode 2 onnx_Transpose [mkValue 1 0] [None] {[ attr_perm := IntsAttr [0; 1; 2] ]};
      mkNode 3 onnx_Add [mkValue 2 0; mkValue 1 0] [None] ∅ ]
    (mkNode 1 onnx_Transpose [mkValue 0 0] [None] {[ attr_perm := IntsAttr [0; 1; 2] ]})
    (mkNode 0 prim_Param [] [Some [2; 3; 4]] ∅)
    (mkValue 0 0) [0; 1; 2] None (Some [2; 3; 4]) _ _ _ _ _ _ _ _ _ _)).
  - apply nop_transposes_in_a_row_ok.
  - reflexivity.
  - reflexivity.
  - reflexivity.
  - reflexivity.
  - reflexivity.
  - reflexivity.
  - reflexivity.
  - reflexivity.
  - simpl. lia.
Defined.

Lemma two_transposes_ok : graph_ok two_transposes.
Proof. unfold graph_ok. by_evaluation. Qed.

Lemma fuseConsecutiveTransposes_fuses_witness :
  fuseConsecutiveTransposes_body two_transposes 2 = Ok two_transposes_fused.
Proof.
  refine (proj1 (fuseConsecutiveTransposes_fuses two_transposes
    (mkNode 2 onnx_Transpose [mkValue 1 0] [None] {[ attr_perm := IntsAttr [0; 2; 1] ]})
    (mkNode 1 onnx_Transpose [mkValue 0 0] [None] {[ attr_perm := IntsAttr [1; 0; 2] ]})
    (mkValue 0 0) None [1; 0; 2] [0; 2; 1] _ _ _ _ _ _ _ _ _ _ _ _ _ _)).
  - apply two_transposes_ok.
  - by_evaluation.
  - by_evaluation.
  - simpl. lia.
  - reflexivity.
  - reflexivity.
  - reflexivity.
  - reflexivity.
  - reflexivity.
  - reflexivity.
  - reflexivity.
  - apply is_permutation_102.
  - apply is_permutation_021.
  - reflexivity.
Defined.

Lemma lstm_default_states_fresh : fresh_ok lstm_default_states.
Proof. split; [unfold graph_ok|]; by_evaluation. Qed.

Lemma lstm_hidden_filled_fresh : fresh_ok lstm_hidden_filled.
Proof. split; [unfold graph_ok|]; by_evaluation. Qed.

Lemma fixDefaultState_materializes_witness :
  fixDefaultRnnHiddenState lstm_default_states = Ok lstm_hidden_filled
  /\ fixDefaultLstmCellState lstm_hidden_filled = Ok lstm_states_filled.
Proof.
  split.
  - refine (proj2 (proj1 (fixDefaultState_materializes lstm_default_states
      [ mkNode 1 onnx_Constant [] [None] ∅; mkNode 2 onnx_Constant [] [None] ∅;
        mkNode 3 onnx_Slice [mkValue 2 0] [None] ∅ ] []
      (mkNode 4 onnx_LSTM
         [mkValue 0 0; mkValue 0 1; mkValue 0 1; mkValue 0 1; mkValue 0 1;
          mkValue 1 0; mkValue 3 0] [None; None; None]
         {[ attr_hidden_size := IntAttr 7 ]})
      (mkNode 1 onnx_Constant [] [None] ∅)
      (mkValue 0 0) None 7 false 5 _ _ _ _ _ _ _ _ _ _ _) eq_refl) _).
    + apply lstm_default_states_fresh.
    + reflexivity.
    + reflexivity.
    + by left.
    + reflexivity.
    + reflexivity.
    + by_evaluation.
    + reflexivity.
    + by left.
    + reflexivity.
    + reflexivity.
    + by_evaluation.
  - refine (proj2 (proj1 (proj2 (fixDefaultState_materializes lstm_hidden_filled
      ([ mkNode 2 onnx_Constant [] [None] ∅;
         mkNode 3 onnx_Slice [mkValue 2 0] [None] ∅ ]
       ++ zero_fill_subgraph 6 (mkValue 0 0) 7 false) []
      (mkNode 4 onnx_LSTM
         [mkValue 0 0; mkValue 0 1; mkValue 0 1; mkValue 0 1; mkValue 0 1;
          mkValue 14 0; mkValue 3 0] [None; None; None]
         {[ attr_hidden_size := IntAttr 7 ]})
      (mkNode 3 onnx_Slice [mkValue 2 0] [None] ∅)
      (mkValue 0 0) None 7 false 6 _ _ _ _ _ _ _ _ _ _ _)) eq_refl) _).
    + apply lstm_hidden_filled_fresh.
    + reflexivity.
    + reflexivity.
    + right. by split.
    + reflexivity.
    + reflexivity.
    + by_evaluation.
    + reflexivity.
    + right. split; [reflexivity|].
      exists (mkValue 2 0), (mkNode 2 onnx_Constant [] [None] ∅).
      by repeat split.
    + reflexivity.
    + reflexivity.
    + by_evaluation.
Defined.

(** C6 (as stated) fails for a Slice of a Constant.  The cell state of the
    LSTM of [lstm_hidden_filled] is a Slice, the one use of a Constant, and
    the LSTM is the one use of the Slice.  After [fixDefaultLstmCellState]
    the Slice is gone and the Constant is still the first node of the
    graph, with no use. *)
Lemma fixDefaultLstmCellState_keeps_sliced_constant :
  uses lstm_hidden_filled (mkValue 2 0) = [mkUse 3 0]
  /\ uses lstm_hidden_filled (mkValue 3 0) = [mkUse 4 6]
  /\ fixDefaultLstmCellState lstm_hidden_filled = Ok lstm_states_filled
  /\ head (nodes lstm_states_filled) = Some (mkNode 2 onnx_Constant [] [None] ∅)
  /\ uses lstm_states_filled (mkValue 2 0) = []
  /\ kind <$> nodes lstm_states_filled
     = [ onnx_Constant;
         onnx_Shape; onnx_Constant; onnx_Gather; onnx_Unsqueeze; onnx_Constant;
         onnx_Constant; onnx_Unsqueeze; onnx_Concat; onnx_ConstantFill;
         onnx_Shape; onnx_Constant; onnx_Gather; onnx_Unsqueeze; onnx_Constant;
         onnx_Constant; onnx_Unsqueeze; onnx_Concat; onnx_ConstantFill;
         onnx_LSTM ].
Proof. vm_compute. by repeat split. Qed.

(** The two passes on that graph: the hidden state is materialized, and a
    node with six inputs has no cell state to materialize. *)
Example fixDefaultRnnHiddenState_lstm :
  fixDefaultRnnHiddenState lstm_default_state = Ok lstm_state_filled
  /\ fixDefaultLstmCellState lstm_default_state = Ok lstm_default_state.
Proof. split; by vm_compute. Qed.

Lemma packed_rnn_fresh : fresh_ok packed_rnn.
Proof. split; [unfold graph_ok|]; by_evaluation. Qed.

Lemma packed_rnn_values : values_below packed_rnn.
Proof. unfold values_below. by_evaluation. Qed.

Lemma pushPackingPastRnn_body_pushes_witness :
  pushPackingPastRnn_body slot_order packed_rnn 1 = Ok (packed_rnn_pushed, None)
  /\ uses packed_rnn_pushed (mkValue 5 0) = uses packed_rnn (mkValue 2 0)
  /\ uses packed_rnn_pushed (mkValue 5 1) ≡ₚ [mkUse 3 1].
Proof.
  pose proof (pushPackingPastRnn_body_pushes slot_order packed_rnn [] []
    [mkNode 3 prim_PadPacked [mkValue 2 0; mkValue 1 1] [None; None] ∅]
    (mkNode 1 prim_PackPadded [mkValue 0 0; mkValue 0 1] [None; None] ∅)
    (mkNode 2 onnx_RNN [mkValue 1 0; mkValue 0 2; mkValue 1 1] [None; None] ∅)
    (mkValue 0 0) (mkValue 0 1) None None 0 2 [mkUse 3 1]
    slot_order_ok packed_rnn_fresh packed_rnn_values eq_refl eq_refl eq_refl
    eq_refl) as H.
  simpl in H.
  destruct H as (Hrun & _ & Hdata & _ & Hlengths & _);
    [lia|lia|lia|lia|reflexivity|done|reflexivity|reflexivity|].
  split; [exact Hrun|]. split; [exact Hdata|exact Hlengths].
Defined.

Lemma pushPackingPastRnn_first_use_unchecked_witness :
  pushPackingPastRnn slot_order packed_rnn_without_lengths
  = Ok packed_rnn_lengths_lost.
Proof.
  refine (proj1 (proj2 (proj2
            (pushPackingPastRnn_first_use_unchecked slot_order _)))).
  apply slot_order_ok.
Defined.

(** The whole pass on the graph of the witness. *)
Example pushPackingPastRnn_packed_rnn :
  pushPackingPastRnn slot_order packed_rnn = Ok packed_rnn_pushed.
Proof. by vm_compute. Qed.

(** ** The further theorems at concrete inputs *)

Lemma composeTransposes_Ok_inv_witness :
  length [1; 0; 2] = length [0; 2; 1]
  /\ in_range (size [0; 2; 1]) [1; 0; 2]
  /\ [2; 0; 1] = compose_pointwise [1; 0; 2] [0; 2; 1]
  /\ length [2; 0; 1] = length [1; 0; 2]
  /\ Forall (fun b => b < size [0; 2; 1]) [2; 0; 1].
Proof.
  apply (composeTransposes_Ok_inv [1; 0; 2] [0; 2; 1] [2; 0; 1]). reflexivity.
Defined.

Lemma composeTransposes_bad_entry_witness :
  composeTransposes [0; 2] [1; 0] = Err AssertFailed.
Proof.
  refine (proj1 (composeTransposes_bad_entry [0] [] [1; 0] 2 _ _ _) _).
  - reflexivity.
  - unfold in_range. by_evaluation.
  - unfold in_range. by_evaluation.
  - unfold size. simpl. lia.
Defined.

Lemma composeTransposes_is_permutation_witness :
  exists r, composeTransposes [1; 0; 2] [0; 2; 1] = Ok r
            /\ is_permutation r /\ length r = length [1; 0; 2].
Proof.
  apply (composeTransposes_is_permutation [1; 0; 2] [0; 2; 1]).
  - apply is_permutation_102.
  - apply is_permutation_021.
  - reflexivity.
Defined.

Lemma fusibleExpandTo_ones_witness :
  fusibleExpandTo [1; 1] [3; 4] = Ok (true, None).
Proof.
  apply (fusibleExpandTo_ones [1; 1] [3; 4]).
  - by_evaluation.
  - simpl. lia.
Defined.

Lemma fusibleExpandTo_suffix_witness :
  fusibleExpandTo [1; 3; 4] ([2] ++ [1; 3; 4]) = Ok (true, None).
Proof. apply (fusibleExpandTo_suffix [1; 3; 4] [2]). by_evaluation. Defined.

Lemma fusibleExpandTo_prefix_witness :
  fusibleExpandTo [3; 1] ([3; 1] ++ [4])
  = Ok (true, if trailing_aligned (core_of [3; 1]) ([3; 1] ++ [4]) then None
              else Some 0).
Proof. apply (fusibleExpandTo_prefix [3; 1] [4]). by_evaluation. Defined.

Lemma relu_graph_ok : graph_ok relu_graph.
Proof. unfold graph_ok. by_evaluation. Qed.

Lemma PeepholeOptimizeONNX_other_kinds_witness :
  PeepholeOptimizeONNX slot_order relu_graph = Ok relu_graph.
Proof.
  apply (PeepholeOptimizeONNX_other_kinds slot_order relu_graph).
  - apply relu_graph_ok.
  - by_evaluation.
Defined.

Lemma fuseBroadcast_fuses_witness :
  fuseBroadcast_body (expand_then_add (Some [3]) (Some [2; 3])) 2
  = Ok (if decide (uses (update_node 2 (broadcast_fused (mkValue 0 1) None)
                           (expand_then_add (Some [3]) (Some [2; 3])))
                     (mkValue 1 0) = [])
        then without_node 1
               (update_node 2 (broadcast_fused (mkValue 0 1) None)
                  (expand_then_add (Some [3]) (Some [2; 3])))
        else update_node 2 (broadcast_fused (mkValue 0 1) None)
               (expand_then_add (Some [3]) (Some [2; 3]))).
Proof.
  apply (fuseBroadcast_fuses (expand_then_add (Some [3]) (Some [2; 3]))
           (mkNode 2 onnx_Add [mkValue 0 0; mkValue 1 0] [None] ∅)
           (mkNode 1 aten_expand [mkValue 0 1] [Some [2; 3]] ∅)
           (mkValue 0 1) [3] [2; 3] true None).
  - apply expand_then_add_ok.
  - by_evaluation.
  - by_evaluation.
  - simpl. lia.
  - by repeat split.
  - reflexivity.
  - reflexivity.
  - reflexivity.
  - reflexivity.
  - reflexivity.
  - reflexivity.
Defined.

Lemma add_with_axis_ok : graph_ok add_with_axis.
Proof. unfold graph_ok. by_evaluation. Qed.

Lemma fuseBroadcast_axis_without_broadcast_witness :
  fuseBroadcast_body add_with_axis 1 = Err AssertFailed.
Proof.
  apply (fuseBroadcast_axis_without_broadcast add_with_axis
           (mkNode 1 onnx_Add [mkValue 0 0; mkValue 0 1] [None]
              {[ attr_axis := IntAttr 1 ]})).
  - apply add_with_axis_ok.
  - by_evaluation.
  - reflexivity.
  - reflexivity.
  - reflexivity.
Defined.

Lemma gemm_of_transpose_ok : graph_ok gemm_of_transpose.
Proof. unfold graph_ok. by_evaluation. Qed.

Lemma fuseTransposeIntoGemm_fuses_witness :
  fuseTransposeIntoGemm_body gemm_of_transpose 2
  = Ok (if decide (uses (update_node 2 (gemm_fused 0 (mkValue 0 0) 1)
                           gemm_of_transpose) (mkValue 1 0) = [])
        then without_node 1
               (update_node 2 (gemm_fused 0 (mkValue 0 0) 1) gemm_of_transpose)
        else update_node 2 (gemm_fused 0 (mkValue 0 0) 1) gemm_of_transpose).
Proof.
  apply (fuseTransposeIntoGemm_fuses gemm_of_transpose
           (mkNode 2 onnx_Gemm [mkValue 1 0; mkValue 0 1; mkValue 0 2] [None] ∅)
           (mkNode 1 onnx_Transpose [mkValue 0 0] [None]
              {[ attr_perm := IntsAttr [1; 0] ]})
           (mkNode 0 prim_Param [] [Some [3; 2]; Some [3; 4]; Some [4]] ∅)
           (mkValue 0 0) (mkValue 0 1) 0 None 1).
  - apply gemm_of_transpose_ok.
  - by_evaluation.
  - by_evaluation.
  - by_evaluation.
  - simpl. lia.
  - simpl. lia.
  - reflexivity.
  - by left.
  - reflexivity.
  - reflexivity.
  - reflexivity.
  - by_evaluation.
  - reflexivity.
  - reflexivity.
  - reflexivity.
  - reflexivity.
  - reflexivity.
Defined.

Lemma pack_then_unpack_ok : graph_ok pack_then_unpack.
Proof. unfold graph_ok. by_evaluation. Qed.

Lemma removeNopPacking_body_removes_witness :
  removeNopPacking_body pack_then_unpack 2
  = Ok (without_node 2
          (Value_replaceAllUsesWith
             (Value_replaceAllUsesWith pack_then_unpack (mkValue 2 0) (mkValue 0 0))
             (mkValue 2 1) (mkValue 0 1)),
        Some 1%nat).
Proof.
  refine (proj1 (removeNopPacking_body_removes pack_then_unpack
    [ mkNode 1 prim_PackPadded [mkValue 0 0; mkValue 0 1] [None; None] ∅ ]
    [ mkNode 3 (other_kind "Relu") [mkValue 2 0] [None] ∅ ]
    (mkNode 2 prim_PadPacked [mkValue 1 0; mkValue 1 1] [None; None] ∅)
    (mkNode 1 prim_PackPadded [mkValue 0 0; mkValue 0 1] [None; None] ∅)
    (mkValue 0 0) (mkValue 0 1) None None _ _ _ _ _ _ _ _ _ _ _ _ _)).
  - apply pack_then_unpack_ok.
  - reflexivity.
  - by_evaluation.
  - reflexivity.
  - reflexivity.
  - reflexivity.
  - reflexivity.
  - reflexivity.
  - simpl. lia.
  - reflexivity.
  - reflexivity.
  - simpl. lia.
  - simpl. lia.
Defined.

Lemma rnn_with_state_ok : graph_ok rnn_with_state.
Proof. unfold graph_ok. by_evaluation. Qed.

Lemma rnn_with_state_provided (n : Node) (i : nat) :
  n ∈ nodes rnn_with_state -> isRNN n = true -> i = 5%nat \/ i = 6%nat ->
  (i < length (inputs n))%nat -> provided_state rnn_with_state n i.
Proof.
  intros Hn _ Hi Hlen. apply list_elem_of_singleton in Hn as ->.
  destruct Hi as [-> | ->]; [|simpl in Hlen; lia].
  exists (mkValue 0 5), (input_ rnn_with_state). by repeat split.
Qed.

Lemma fixDefaultState_keeps_provided_witness :
  fixDefaultRnnHiddenState rnn_with_state = Ok rnn_with_state
  /\ fixDefaultLstmCellState rnn_with_state = Ok rnn_with_state.
Proof.
  apply (fixDefaultState_keeps_provided rnn_with_state).
  - apply rnn_with_state_ok.
  - apply rnn_with_state_provided.
Defined.

Lemma nop_transposes_in_a_row_topo : topo_ok nop_transposes_in_a_row.
Proof.
  unfold topo_ok, nop_transposes_in_a_row, all_nodes.
  cbn [input_ nodes output_ app defined_before inputs].
  by_evaluation.
Qed.

Lemma nop_transposes_in_a_row_nops : nop_transposes_ok nop_transposes_in_a_row.
Proof.
  intros m Hm Hk. exists [0; 1; 2].
  unfold nop_transposes_in_a_row in Hm. cbn [nodes] in Hm.
  repeat (apply elem_of_cons in Hm as [->|Hm]); try done;
    [| |by apply elem_of_nil in Hm].
  all: split; [done|]; intros _; eexists _, _; split; [done|]; split; [done|].
  all: intros p Hp Hu; unfold nop_transposes_in_a_row, all_nodes in Hp;
    cbn [input_ nodes output_ app] in Hp;
    repeat (apply elem_of_cons in Hp as [->|Hp]; [try done|]);
    by apply elem_of_nil in Hp.
Qed.

Lemma eliminateNopTranspose_eliminates_witness :
  exists r : Value -> Value,
    eliminateNopTranspose nop_transposes_in_a_row
    = Ok (without_nops (map_nodes (rewire r) nop_transposes_in_a_row)).
Proof.
  destruct (eliminateNopTranspose_eliminates nop_transposes_in_a_row
              nop_transposes_in_a_row_ok nop_transposes_in_a_row_topo
              nop_transposes_in_a_row_nops) as (r & Hrun & _).
  by exists r.
Defined.

Lemma transposes_of_two_ranks_ok : graph_ok transposes_of_two_ranks.
Proof. unfold graph_ok. by_evaluation. Qed.

Lemma fuseConsecutiveTransposes_length_mismatch_witness :
  composeTransposes [1; 0; 2] [1; 0] = Err AssertFailed
  /\ fuseConsecutiveTransposes_body transposes_of_two_ranks 2 = Err AssertFailed.
Proof.
  apply (fuseConsecutiveTransposes_length_mismatch transposes_of_two_ranks
           (mkNode 2 onnx_Transpose [mkValue 1 0] [None]
              {[ attr_perm := IntsAttr [1; 0] ]})
           (mkNode 1 onnx_Transpose [mkValue 0 0] [None]
              {[ attr_perm := IntsAttr [1; 0; 2] ]})
           (mkValue 1 0) [1; 0; 2] [1; 0]).
  - apply transposes_of_two_ranks_ok.
  - by_evaluation.
  - by_evaluation.
  - reflexivity.
  - reflexivity.
  - reflexivity.
  - reflexivity.
  - reflexivity.
  - reflexivity.
  - simpl. lia.
Defined.

Lemma pushPackingPastRnn_other_consumer_witness :
  pushPackingPastRnn_body slot_order pack_then_unpack 1
  = Ok (pack_then_unpack, Some 1%nat).
Proof.
  apply (pushPackingPastRnn_other_consumer slot_order pack_then_unpack
           (mkNode 1 prim_PackPadded [mkValue 0 0; mkValue 0 1] [None; None] ∅)
           (mkNode 2 prim_PadPacked [mkValue 1 0; mkValue 1 1] [None; None] ∅)
           0).
  - apply pack_then_unpack_ok.
  - by_evaluation.
  - by_evaluation.
  - reflexivity.
  - by_evaluation.
  - reflexivity.
  - reflexivity.
Defined.

Lemma packing_pushed_then_removed_witness :
  pushPackingPastRnn_body slot_order packed_rnn 1 = Ok (packed_rnn_pushed, None)
  /\ uses (without_node 3
             (Value_replaceAllUsesWith
                (Value_replaceAllUsesWith packed_rnn_pushed (mkValue 3 0)
                   (mkValue 2 0))
                (mkValue 3 1) (mkValue 0 1))) (mkValue 3 0) = [].
Proof.
  pose proof (packing_pushed_then_removed slot_order packed_rnn [] [] [] []
    (mkNode 1 prim_PackPadded [mkValue 0 0; mkValue 0 1] [None; None] ∅)
    (mkNode 2 onnx_RNN [mkValue 1 0; mkValue 0 2; mkValue 1 1] [None; None] ∅)
    (mkNode 3 prim_PadPacked [mkValue 2 0; mkValue 1 1] [None; None] ∅)
    (mkValue 0 0) (mkValue 0 1) None None None None 0 2 [mkUse 3 1]
    packed_rnn_fresh packed_rnn_values eq_refl eq_refl eq_refl eq_refl) as H.
  simpl in H.
  destruct H as (Hrun & _ & Hnil & _);
    [lia|lia|lia|lia|reflexivity|done|reflexivity|reflexivity|reflexivity
    |reflexivity|reflexivity|lia|].
  split; [exact Hrun|exact Hnil].
Defined.

Lemma fusibleExpandTo_plain_witness :
  fusibleExpandTo [2; 3] [2; 3; 4] = Ok (true, Some 0).
Proof.
  refine (proj1 (proj2 (fusibleExpandTo_plain [2; 3] [2; 3; 4] _ _ _)) _ _).
  - by_evaluation.
  - by_evaluation.
  - simpl. lia.
  - by_evaluation.
  - by_evaluation.
Defined.
